(** * TSQL: the query engine of [delphin/tsql.py]

    A shallow embedding of the TSQL lexer table, the recursive-descent
    parser, the schema resolver, the join planner and the executor, with
    the properties of the engine stated against it. *)

From Stdlib Require Import List String Ascii ZArith Bool Arith Lia Permutation.
Import ListNotations.

Set Warnings "-register-all".

Local Open Scope string_scope.
Local Open Scope nat_scope.
Local Open Scope list_scope.

(** ** Exceptions and outcomes *)

(** The exceptions the module raises or lets through.  [TSQLSyntaxError]
    and [TSQLError] are the module's own classes; [KeyError], [ValueError]
    [TypeError] and [IndexError] are the Python built-ins that escape
    from a dict lookup, from [int], from a comparison of unlike values
    and from an index out of range; [ReError] is the [re.error] of a
    pattern that does not compile. *)
Inductive exn : Type :=
| TSQLSyntaxError (msg : string)
| TSQLError (msg : string)
| KeyError (key : string)
| ValueError (msg : string)
| TypeError (msg : string)
| IndexError (msg : string)
| ReError (msg : string).

(** A call returns, raises, or (in the embedding only) exhausts the fuel
    that bounds its loops. *)
Inductive outcome (A : Type) : Type :=
| Ret (a : A)
| Raise (e : exn)
| Fuel.

Arguments Ret {A} a.
Arguments Raise {A} e.
Arguments Fuel {A}.

Definition bind {A B : Type} (m : outcome A) (k : A -> outcome B) : outcome B :=
  match m with
  | Ret a => k a
  | Raise e => Raise e
  | Fuel => Fuel
  end.

Declare Scope outcome_scope.
Delimit Scope outcome_scope with outcome.
Notation "x <- m ;; k" := (bind m (fun x => k))
  (at level 61, m at next level, right associativity) : outcome_scope.
Notation "' p <- m ;; k" := (bind m (fun x => match x with p => k end))
  (at level 61, p pattern, m at next level, right associativity) : outcome_scope.
Local Open Scope outcome_scope.

Definition is_syntax_error {A : Type} (r : outcome A) : bool :=
  match r with
  | Raise (TSQLSyntaxError _) => true
  | _ => false
  end.

Definition is_ret {A : Type} (r : outcome A) : bool :=
  match r with
  | Ret _ => true
  | _ => false
  end.

Fixpoint mapM {A B : Type} (f : A -> outcome B) (l : list A) : outcome (list B) :=
  match l with
  | [] => Ret []
  | a :: l' => b <- f a ;; bs <- mapM f l' ;; Ret (b :: bs)
  end.

(** ** Strings *)

Definition truthy (s : string) : bool :=
  match s with
  | EmptyString => false
  | String _ _ => true
  end.

Definition truthy_list {A : Type} (l : list A) : bool :=
  match l with
  | [] => false
  | _ :: _ => true
  end.

Fixpoint mem (s : string) (l : list string) : bool :=
  match l with
  | [] => false
  | x :: l' => if String.eqb s x then true else mem s l'
  end.

Definition dot : ascii := "."%char.
Definition dquote : ascii := ascii_of_nat 34.
Definition backslash : ascii := ascii_of_nat 92.
Definition newline : ascii := ascii_of_nat 10.

(** [contains_dot s]: whether ['.' in s]. *)
Fixpoint contains_dot (s : string) : bool :=
  match s with
  | EmptyString => false
  | String c s' => if Ascii.eqb c dot then true else contains_dot s'
  end.

(** [str.rpartition('.')], without the separator: the text before the
    last dot and the text after it; a string without a dot gives
    [("", s)]. *)
Fixpoint rpartition (s : string) : string * string :=
  match s with
  | EmptyString => (EmptyString, EmptyString)
  | String c s' =>
      let '(rel, col) := rpartition s' in
      if contains_dot s' then (String c rel, col)
      else if Ascii.eqb c dot then (EmptyString, s')
      else (EmptyString, String c s')
  end.

(** ['{}.{}'.format(rel, col)] *)
Definition qualify (rel col : string) : string := rel ++ "." ++ col.

(** ** Values and the condition tree *)

(** A [tsdb.Value]: an integer, a string, a date or [None].  The date
    cast of [tsdb] is external to the module; a date is carried as the
    text it was cast from. *)
Inductive value : Type :=
| VInt (z : Z)
| VStr (s : string)
| VDate (s : string)
| VNone.

(** A condition is [(op, (column, value))], [('and'|'or', [conds])] or
    [('not', cond)]. *)
Inductive condition : Type :=
| Cmp (op : string) (column : string) (val : value)
| BoolOp (op : string) (body : list condition)
| Not (body : condition).

(** ** Tokens *)

Inductive tokentype : Type :=
| _FROM | _WHERE | _REPORT | _STAR | _DOT | _OP | _AND | _OR | _NOT
| _LPAREN | _RPAREN | _DQSTRING | _SQSTRING | _YYYYMMDD | _DDMMYY
| _KWDATE | _INT | _QID | _ID | _UNEXPECTED.

Definition tokentype_eqb (a b : tokentype) : bool :=
  match a, b with
  | _FROM, _FROM | _WHERE, _WHERE | _REPORT, _REPORT | _STAR, _STAR
  | _DOT, _DOT | _OP, _OP | _AND, _AND | _OR, _OR | _NOT, _NOT
  | _LPAREN, _LPAREN | _RPAREN, _RPAREN | _DQSTRING, _DQSTRING
  | _SQSTRING, _SQSTRING | _YYYYMMDD, _YYYYMMDD | _DDMMYY, _DDMMYY
  | _KWDATE, _KWDATE | _INT, _INT | _QID, _QID | _ID, _ID
  | _UNEXPECTED, _UNEXPECTED => true
  | _, _ => false
  end.

Abbreviation token := (tokentype * string)%type (only parsing).

Fixpoint type_in (t : tokentype) (choices : list tokentype) : bool :=
  match choices with
  | [] => false
  | c :: cs => if tokentype_eqb t c then true else type_in t cs
  end.

(** ** The lexer object

    Modelled from the spec: the token-stream object of [util.Lexer]
    ([accept_type], [expect_type], [choice_type]), whose class is not
    among the sources.  The stream is the list of the tokens not yet
    consumed: accept consumes the next token if its type matches and is a
    no-op otherwise, expect consumes it or fails, choice expects one of
    several types. *)
Abbreviation lexer := (list (tokentype * string)) (only parsing).

Definition accept_type (t : tokentype) (lx : lexer) : option string * lexer :=
  match lx with
  | (t', text) :: rest =>
      if tokentype_eqb t' t then (Some text, rest) else (None, lx)
  | [] => (None, lx)
  end.

Definition choice_type (choices : list tokentype) (lx : lexer)
  : outcome ((tokentype * string) * lexer) :=
  match lx with
  | (t', text) :: rest =>
      if type_in t' choices then Ret ((t', text), rest)
      else Raise (TSQLSyntaxError ("unexpected: " ++ text))
  | [] => Raise (TSQLSyntaxError "unexpected end of input")
  end.

Definition expect_type (t : tokentype) (lx : lexer) : outcome (string * lexer) :=
  '((_, text), rest) <- choice_type [t] lx ;; Ret (text, rest).

(** Truth value of what [accept_type] returns: [None] and the empty
    string are false. *)
Definition accepted (o : option string) : bool :=
  match o with
  | Some s => truthy s
  | None => false
  end.

(** ** The parser *)

Definition is_digit (c : ascii) : bool :=
  let n := nat_of_ascii c in (48 <=? n)%nat && (n <=? 57)%nat.

Fixpoint digits_value (acc : Z) (s : string) : option Z :=
  match s with
  | EmptyString => Some acc
  | String c s' =>
      if is_digit c
      then digits_value (10 * acc + Z.of_nat (nat_of_ascii c - 48)) s'
      else None
  end.

(** [int(text)] on the text of a token: an optional sign and at least
    one decimal digit, [ValueError] otherwise. *)
Definition int (text : string) : outcome Z :=
  let invalid := Raise (ValueError ("invalid literal for int(): " ++ text)) in
  let unsigned (s : string) : option Z :=
    match s with
    | EmptyString => None
    | _ => digits_value 0 s
    end in
  match text with
  | String "+"%char s =>
      match unsigned s with Some z => Ret z | None => invalid end
  | String "-"%char s =>
      match unsigned s with Some z => Ret (- z)%Z | None => invalid end
  | s => match unsigned s with Some z => Ret z | None => invalid end
  end.

Definition _parse_condition_statement (column : string) (lx : lexer)
  : outcome (condition * lexer) :=
  '(op, lx) <- expect_type _OP lx ;;
  let op := if String.eqb op "=" then "==" else op in
  '((typ, text), lx) <-
    (if mem op ["~"; "!~"] then
       choice_type [_DQSTRING; _SQSTRING] lx
     else if mem op ["<"; "<="; ">"; ">="] then
       choice_type [_INT; _YYYYMMDD; _DDMMYY; _KWDATE] lx
     else
       choice_type [_INT; _DQSTRING; _SQSTRING; _YYYYMMDD; _DDMMYY; _KWDATE] lx) ;;
  val <-
    (if tokentype_eqb typ _INT then z <- int text ;; Ret (VInt z)
     else if type_in typ [_YYYYMMDD; _DDMMYY; _KWDATE] then Ret (VDate text)
     else Ret (VStr text)) ;;
  Ret (Cmp op column val, lx).

(** The tail shared by the two loops of the condition parser: no
    condition is an error, one is returned as it is, several are wrapped
    in [(op, list(conds))]. *)
Definition conds_result (op : string) (conds : list condition) : outcome condition :=
  match conds with
  | [] => Raise (TSQLSyntaxError "invalid query")
  | [c] => Ret c
  | _ => Ret (BoolOp op conds)
  end.

(** The [while True] loops of [_parse_condition_disjunction] and
    [_parse_condition_conjunction], each returning its [conds] list;
    [fuel] bounds the nesting of the calls. *)
Fixpoint disjunction_conds (fuel : nat) (lx : lexer) {struct fuel}
  : outcome (list condition * lexer) :=
  match fuel with
  | O => Fuel
  | S fuel' =>
      '(cs, lx) <- conjunction_conds fuel' lx ;;
      c <- conds_result "and" cs ;;
      let '(tok, lx) := accept_type _OR lx in
      if accepted tok then
        '(conds, lx) <- disjunction_conds fuel' lx ;; Ret (c :: conds, lx)
      else Ret ([c], lx)
  end
with conjunction_conds (fuel : nat) (lx : lexer) {struct fuel}
  : outcome (list condition * lexer) :=
  match fuel with
  | O => Fuel
  | S fuel' =>
      '((typ, token), lx) <- choice_type [_NOT; _LPAREN; _QID; _ID] lx ;;
      '(new, lx) <-
        (if tokentype_eqb typ _NOT then
           '(ds, lx) <- disjunction_conds fuel' lx ;;
           d <- conds_result "or" ds ;;
           Ret ([Not d], lx)
         else if tokentype_eqb typ _LPAREN then
           '(ds, lx) <- disjunction_conds fuel' lx ;;
           d <- conds_result "or" ds ;;
           '(_, lx) <- expect_type _RPAREN lx ;;
           Ret ([d], lx)
         else if type_in typ [_QID; _ID] then
           '(c, lx) <- _parse_condition_statement token lx ;;
           Ret ([c], lx)
         else Ret ([], lx)) ;;
      let '(tok, lx) := accept_type _AND lx in
      if accepted tok then
        '(conds, lx) <- conjunction_conds fuel' lx ;; Ret (new ++ conds, lx)
      else Ret (new, lx)
  end.

Definition _parse_condition_disjunction (fuel : nat) (lx : lexer)
  : outcome (condition * lexer) :=
  '(conds, lx) <- disjunction_conds fuel lx ;;
  c <- conds_result "or" conds ;;
  Ret (c, lx).

Definition _parse_condition_conjunction (fuel : nat) (lx : lexer)
  : outcome (condition * lexer) :=
  '(conds, lx) <- conjunction_conds fuel lx ;;
  c <- conds_result "and" conds ;;
  Ret (c, lx).

(** The [while lexer.accept_type(_WHERE)] loop of [_parse_select_where]. *)
Fixpoint where_conditions (fuel : nat) (lx : lexer)
  : outcome (list condition * lexer) :=
  match fuel with
  | O => Fuel
  | S fuel' =>
      let '(tok, lx) := accept_type _WHERE lx in
      if accepted tok then
        '(c, lx) <- _parse_condition_disjunction fuel' lx ;;
        '(conditions, lx) <- where_conditions fuel' lx ;;
        Ret (c :: conditions, lx)
      else Ret ([], lx)
  end.

Definition _parse_select_where (fuel : nat) (lx : lexer)
  : outcome (option condition * lexer) :=
  '(conditions, lx) <- where_conditions fuel lx ;;
  match conditions with
  | [] => Ret (None, lx)
  | [c] => Ret (Some c, lx)
  | _ => Ret (Some (BoolOp "and" conditions), lx)
  end.

(** The [while col_id] loop of [_parse_select_projection]:
    [lexer.accept_type(_QID) or lexer.accept_type(_ID)]. *)
Fixpoint projection_columns (fuel : nat) (col_id : option string) (lx : lexer)
  : outcome (list string * lexer) :=
  match fuel with
  | O => Fuel
  | S fuel' =>
      match col_id with
      | Some text =>
          if truthy text then
            let '(q, lx) := accept_type _QID lx in
            let '(next, lx) :=
              if accepted q then (q, lx) else accept_type _ID lx in
            '(cols, lx) <- projection_columns fuel' next lx ;;
            Ret (text :: cols, lx)
          else Ret ([], lx)
      | None => Ret ([], lx)
      end
  end.

Definition _parse_select_projection (fuel : nat) (lx : lexer)
  : outcome (list string * lexer) :=
  '((typ, col_id), lx) <- choice_type [_STAR; _QID; _ID] lx ;;
  if type_in typ [_QID; _ID] then projection_columns fuel (Some col_id) lx
  else Ret ([col_id], lx).

(** The [while relation] loop of [_parse_select_from]. *)
Fixpoint from_relations (fuel : nat) (relation : option string) (lx : lexer)
  : outcome (list string * lexer) :=
  match fuel with
  | O => Fuel
  | S fuel' =>
      match relation with
      | Some text =>
          if truthy text then
            let '(next, lx) := accept_type _ID lx in
            '(rels, lx) <- from_relations fuel' next lx ;;
            Ret (text :: rels, lx)
          else Ret ([], lx)
      | None => Ret ([], lx)
      end
  end.

Definition _parse_select_from (fuel : nat) (lx : lexer)
  : outcome (list string * lexer) :=
  let '(tok, lx) := accept_type _FROM lx in
  if accepted tok then
    '(relation, lx) <- expect_type _ID lx ;;
    from_relations fuel (Some relation) lx
  else Ret ([], lx).

(** The query dictionary [{'type', 'projection', 'relations', 'condition'}]. *)
Record queryobj : Type := mk_queryobj {
  q_type : string;
  q_projection : list string;
  q_relations : list string;
  q_condition : option condition
}.

Fixpoint list_eqb (a b : list string) : bool :=
  match a, b with
  | [], [] => true
  | x :: a', y :: b' => String.eqb x y && list_eqb a' b'
  | _, _ => false
  end.

Definition star_requires_from : exn :=
  TSQLSyntaxError "'select *' requires a 'from' clause".

(** The body of [_parse_select] from the token stream on: projection,
    from clause, where clauses, the sentinel, the wildcard check. *)
Definition parse_select_lexer (fuel : nat) (lx : lexer) : outcome queryobj :=
  '(projection, lx) <- _parse_select_projection fuel lx ;;
  '(relations, lx) <- _parse_select_from fuel lx ;;
  '(condition, lx) <- _parse_select_where fuel lx ;;
  '(_, lx) <- expect_type _DOT lx ;;
  if list_eqb projection ["*"] && negb (truthy_list relations)
  then Raise star_requires_from
  else Ret (mk_queryobj "select" projection relations condition).

(** ** Regular expressions of the token table

    The patterns of the table are backtracking regular expressions.  A
    match state is the text of the capture group, if one was closed, and
    the rest of the input; [rmatch] lists the states a pattern can end in,
    in the order a backtracking matcher tries them (greedy repetition
    first, alternatives left to right), so its head is the match found. *)
Inductive regex : Type :=
| Eps
| Cls (p : ascii -> bool)
| Lit (s : string)
| Cat (r1 r2 : regex)
| Alt (r1 r2 : regex)
| Opt (r : regex)
| Star (r : regex)
| Group (r : regex).

Abbreviation mstate := (option string * string)%type (only parsing).

Fixpoint strip_prefix (p s : string) : option string :=
  match p, s with
  | EmptyString, _ => Some s
  | String a p', String b s' => if Ascii.eqb a b then strip_prefix p' s' else None
  | String _ _, EmptyString => None
  end.

(** The text consumed between the input [s] and its suffix [rest]. *)
Definition consumed (s rest : string) : string :=
  substring 0 (String.length s - String.length rest) s.

Fixpoint star_matches (step : mstate -> list mstate) (fuel : nat) (x : mstate)
  : list mstate :=
  match fuel with
  | O => [x]
  | S fuel' =>
      flat_map
        (fun y =>
           if (String.length (snd y) <? String.length (snd x))%nat
           then star_matches step fuel' y else [])
        (step x) ++ [x]
  end.

Fixpoint rmatch (r : regex) (x : mstate) : list mstate :=
  match r with
  | Eps => [x]
  | Cls p =>
      match snd x with
      | String c s' => if p c then [(fst x, s')] else []
      | EmptyString => []
      end
  | Lit t =>
      match strip_prefix t (snd x) with
      | Some s' => [(fst x, s')]
      | None => []
      end
  | Cat r1 r2 => flat_map (rmatch r2) (rmatch r1 x)
  | Alt r1 r2 => rmatch r1 x ++ rmatch r2 x
  | Opt r' => rmatch r' x ++ [x]
  | Star r' => star_matches (rmatch r') (String.length (snd x)) x
  | Group r' =>
      map (fun y => (Some (consumed (snd x) (snd y)), snd y)) (rmatch r' x)
  end.

Definition Plus (r : regex) : regex := Cat r (Star r).

Fixpoint Seq (rs : list regex) : regex :=
  match rs with
  | [] => Eps
  | [r] => r
  | r :: rs' => Cat r (Seq rs')
  end.

Fixpoint Alts (rs : list regex) : regex :=
  match rs with
  | [] => Cls (fun _ => false)
  | [r] => r
  | r :: rs' => Alt r (Alts rs')
  end.

Definition Chr (c : ascii) : regex := Cls (Ascii.eqb c).

Definition is_space (c : ascii) : bool :=
  let n := nat_of_ascii c in
  ((9 <=? n) && (n <=? 13) || (28 <=? n) && (n <=? 32))%nat.

Definition is_alpha (c : ascii) : bool :=
  let n := nat_of_ascii c in
  ((65 <=? n) && (n <=? 90) || (97 <=? n) && (n <=? 122))%nat.

Definition is_id_char (c : ascii) : bool :=
  is_alpha c || is_digit c || Ascii.eqb c "-" || Ascii.eqb c "_".

Definition digit : regex := Cls is_digit.

Definition _year : regex := Seq [digit; digit; digit; digit].
Definition _yr : regex := Cat (Opt (Cat digit digit)) (Cat digit digit).
Definition _month : regex :=
  Alts (Cat digit (Opt digit)
        :: map Lit ["jan"; "feb"; "mar"; "apr"; "may"; "jun";
                    "jul"; "aug"; "sep"; "oct"; "nov"; "dec"]).
Definition _day : regex := Cat digit (Opt digit).
Definition _time : regex :=
  let t := Cat digit digit in
  Alt (Seq [Star (Cls is_space); Lit "("; t; Lit ":"; t;
            Opt (Cat (Lit ":") t); Lit ")"])
      (Seq [Plus (Cls is_space); t; Lit ":"; t; Cat (Lit ":") t]).
Definition _yyyy_mm_dd : regex :=
  Seq [_year; Lit "-"; _month; Opt (Cat (Lit "-") _day); Opt _time].
Definition _dd_mm_yy : regex :=
  Seq [Opt (Cat _day (Lit "-")); _month; Lit "-"; _yr; Opt _time].
Definition _id : regex := Cat (Cls is_alpha) (Star (Cls is_id_char)).
Definition _qid : regex := Seq [_id; Lit "."; _id].

(** A quoted string: the quote, a group of unescaped characters and
    backslash escapes, the quote. *)
Definition quoted (q : ascii) : regex :=
  let plain := Cls (fun c => negb (Ascii.eqb c q) && negb (Ascii.eqb c backslash)) in
  let any := Cls (fun c => negb (Ascii.eqb c newline)) in
  Seq [Chr q;
       Group (Cat (Star plain) (Star (Seq [Chr backslash; any; Star plain])));
       Chr q].

(** The pattern of the integer rule, [[+-]?\d+]. *)
Definition int_regex : regex :=
  Cat (Opt (Cls (fun c => Ascii.eqb c "+" || Ascii.eqb c "-"))) (Plus digit).

(** The [tokens] table of [_TSQLLexer], in its order. *)
Definition tokens : list (regex * tokentype) :=
  [ (Lit "from", _FROM);
    (Lit "where", _WHERE);
    (Lit "report", _REPORT);
    (Lit "*", _STAR);
    (Lit ".", _DOT);
    (Alts (map Lit ["=="; "="; "!="; "~"; "!~"; "<="; "<"; ">="; ">"]), _OP);
    (Alts (map Lit ["&&"; "&"; "and"]), _AND);
    (Alts (map Lit ["||"; "|"; "or"]), _OR);
    (Alts (map Lit ["!"; "not"]), _NOT);
    (Lit "(", _LPAREN);
    (Lit ")", _RPAREN);
    (quoted dquote, _DQSTRING);
    (quoted "'", _SQSTRING);
    (_yyyy_mm_dd, _YYYYMMDD);
    (_dd_mm_yy, _DDMMYY);
    (Alts (map Lit [":today"; "now"]), _KWDATE);
    (int_regex, _INT);
    (_qid, _QID);
    (_id, _ID);
    (Cls (fun c => negb (is_space c)), _UNEXPECTED) ].

(** ** The lexer

    Modelled from the spec: the tokenizing loop of [util.Lexer], whose
    class is not among the sources.  At each position the rules of the
    table are tried in order and the longest match wins, the earlier rule
    on a tie; the text of a token is the capture group of its pattern when
    it has one and the whole match otherwise; a position where no rule
    matches (white space) is skipped. *)
Definition rule_match (r : regex) (s : string) : option (string * string) :=
  match rmatch r (None, s) with
  | (cap, rest) :: _ =>
      Some (match cap with Some g => g | None => consumed s rest end, rest)
  | [] => None
  end.

Fixpoint best_match (rules : list (regex * tokentype)) (s : string)
  : option (token * string) :=
  match rules with
  | [] => None
  | (r, t) :: rules' =>
      let later := best_match rules' s in
      match rule_match r s with
      | Some (text, rest) =>
          match later with
          | Some (_, rest') =>
              if (String.length rest' <? String.length rest)%nat
              then later else Some ((t, text), rest)
          | None => Some ((t, text), rest)
          end
      | None => later
      end
  end.

Fixpoint lex_line (fuel : nat) (s : string) : list token :=
  match fuel, s with
  | S fuel', String _ s' =>
      match best_match tokens s with
      | Some (tok, rest) =>
          if (String.length rest <? String.length s)%nat
          then tok :: lex_line fuel' rest
          else lex_line fuel' s'
      | None => lex_line fuel' s'
      end
  | _, _ => []
  end.

(** [str.splitlines()] on the line boundaries of ASCII; a carriage
    return followed by a line feed is one boundary. *)
Definition is_linebreak (c : ascii) : bool :=
  let n := nat_of_ascii c in
  ((10 <=? n) && (n <=? 13) || (28 <=? n) && (n <=? 30))%nat.

Fixpoint splitlines_from (cur : string) (after_cr : bool) (s : string)
  : list string :=
  match s with
  | EmptyString => if truthy cur then [cur] else []
  | String c s' =>
      if after_cr && Ascii.eqb c newline then splitlines_from cur false s'
      else if is_linebreak c then
        cur :: splitlines_from EmptyString (Nat.eqb (nat_of_ascii c) 13) s'
      else splitlines_from (cur ++ String c EmptyString) false s'
  end.

Definition splitlines (s : string) : list string :=
  splitlines_from EmptyString false s.

Definition lex (lines : list string) : lexer :=
  flat_map (fun line => lex_line (String.length line) line) lines.

(** The fuel the parser is run with: its calls nest at most twice per
    token. *)
Definition parser_fuel (lx : lexer) : nat := 2 * List.length lx + 3.

Definition _parse_select (querystring : string) : outcome queryobj :=
  let querystring := (querystring ++ ".")%string in
  let lx := lex (splitlines querystring) in
  parse_select_lexer (parser_fuel lx) lx.

(** The connective, if any, at the head of a token stream: the only thing
    the condition parser looks at without consuming it. *)
Definition hd_conn (lx : lexer) : option tokentype :=
  match lx with
  | (t, _) :: _ => if type_in t [_AND; _OR] then Some t else None
  | [] => None
  end.

(** A parser is stable when a successful run consumed a prefix of the
    stream and runs the same on that prefix followed by any other rest
    with the same connective at its head. *)
Definition stable {A : Type} (p : lexer -> outcome (A * lexer)) : Prop :=
  forall lx a rest,
    p lx = Ret (a, rest) ->
    exists pre,
      lx = pre ++ rest /\
      forall rest', hd_conn rest' = hd_conn rest -> p (pre ++ rest') = Ret (a, rest').

(** A token is well formed when the text of an integer token is a
    numeral; the tokens of the lexer are. *)
Definition wf_token (tok : token) : bool :=
  if tokentype_eqb (fst tok) _INT then is_ret (int (snd tok)) else true.

(** A syntax error other than the one of the wildcard check. *)
Definition syntax_other (e : exn) : bool :=
  match e with
  | TSQLSyntaxError msg =>
      negb (String.eqb msg "'select *' requires a 'from' clause")
  | _ => false
  end.

Definition is_value_error (e : exn) : bool :=
  match e with
  | ValueError _ => true
  | _ => false
  end.

(** What a parsing function may raise on the stream [lx]: a syntax
    error, or the [ValueError] of [int] if a token is ill formed. *)
Definition raises (lx : lexer) (e : exn) : Prop :=
  syntax_other e = true \/
  (is_value_error e = true /\ forallb wf_token lx = false).

(** The language of a pattern: the texts it can match. *)
Inductive lang : regex -> string -> Prop :=
| lang_Eps : lang Eps EmptyString
| lang_Cls p c : p c = true -> lang (Cls p) (String c EmptyString)
| lang_Lit t : lang (Lit t) t
| lang_Cat r1 r2 w1 w2 : lang r1 w1 -> lang r2 w2 -> lang (Cat r1 r2) (w1 ++ w2)
| lang_Alt_l r1 r2 w : lang r1 w -> lang (Alt r1 r2) w
| lang_Alt_r r1 r2 w : lang r2 w -> lang (Alt r1 r2) w
| lang_Opt_none r : lang (Opt r) EmptyString
| lang_Opt_some r w : lang r w -> lang (Opt r) w
| lang_Star_nil r : lang (Star r) EmptyString
| lang_Star_cons r w1 w2 : lang r w1 -> lang (Star r) w2 -> lang (Star r) (w1 ++ w2)
| lang_Group r w : lang r w -> lang (Group r) w.

Fixpoint has_group (r : regex) : bool :=
  match r with
  | Eps | Cls _ | Lit _ => false
  | Cat r1 r2 | Alt r1 r2 => has_group r1 || has_group r2
  | Opt r' | Star r' => has_group r'
  | Group _ => true
  end.

Fixpoint all_chars (p : ascii -> bool) (s : string) : bool :=
  match s with
  | EmptyString => true
  | String c s' => p c && all_chars p s'
  end.

(** What the lexer guarantees of a token: an integer token is a numeral,
    and the text of a [from] keyword or of an identifier is not empty. *)
Definition lexed_token (tok : token) : bool :=
  wf_token tok &&
  (if type_in (fst tok) [_FROM; _ID] then truthy (snd tok) else true).

(** The type of the token at the head of a stream. *)
Definition hd_type (lx : lexer) : option tokentype :=
  match lx with
  | (t, _) :: _ => Some t
  | [] => None
  end.

(** The literal types the documentation of the module allows after each
    comparison operator: a quoted string after [~] and [!~], an integer
    or a date after the ordering operators, an integer, a string or a
    date after [==], [=] and [!=]. *)
Definition operators : list string :=
  ["~"; "!~"; "<"; "<="; ">"; ">="; "=="; "="; "!="].

Definition string_types : list tokentype := [_DQSTRING; _SQSTRING].
Definition date_types : list tokentype := [_YYYYMMDD; _DDMMYY; _KWDATE].

Definition allowed_literal_types (op : string) : list tokentype :=
  if mem op ["~"; "!~"] then string_types
  else if mem op ["<"; "<="; ">"; ">="] then _INT :: date_types
  else if mem op ["=="; "="; "!="] then _INT :: string_types ++ date_types
  else [].

Definition dq : string := String dquote EmptyString.

(** The where clauses of the precedence example of the documentation. *)
Definition where_plain : string :=
  "where i-id = 10 or i-id = 20 and i-input ~ " ++ dq ++ "[Dd]og" ++ dq.
Definition where_grouped : string :=
  "where i-id = 10 or (i-id = 20 and i-input ~ " ++ dq ++ "[Dd]og" ++ dq ++ ")".

(** [_parse_select_where] on the tokens of a clause and the sentinel. *)
Definition parse_where (clause : string) : outcome (option condition * lexer) :=
  let lx := lex (splitlines (clause ++ ".")%string) in
  _parse_select_where (parser_fuel lx) lx.

Definition tok_dot : token := (_DOT, ".").
Definition tok_where : token := (_WHERE, "where").
Definition tok_and : token := (_AND, "and").
Definition tok_lparen : token := (_LPAREN, "(").
Definition tok_rparen : token := (_RPAREN, ")").

(** ** Dictionaries and sets

    A Python [dict] keeps its keys in insertion order and the planner
    depends on that order: a dictionary with string keys is an association
    list without repeated keys.  A [set] of strings is a list without
    repetition; the order in which Python iterates over one is not
    determined by the program and is a parameter of the planner. *)
Abbreviation pydict V := (list (string * V)) (only parsing).

Fixpoint dict_get {V : Type} (k : string) (d : pydict V) : option V :=
  match d with
  | [] => None
  | (k', v) :: d' => if String.eqb k k' then Some v else dict_get k d'
  end.

Definition dict_contains {V : Type} (k : string) (d : pydict V) : bool :=
  match dict_get k d with
  | Some _ => true
  | None => false
  end.

(** [d[k] = v] *)
Fixpoint dict_set {V : Type} (k : string) (v : V) (d : pydict V) : pydict V :=
  match d with
  | [] => [(k, v)]
  | (k', v') :: d' =>
      if String.eqb k k' then (k, v) :: d' else (k', v') :: dict_set k v d'
  end.

(** [d.setdefault(k, []).append(x)] *)
Fixpoint setdefault_append {V : Type} (k : string) (x : V) (d : pydict (list V))
  : pydict (list V) :=
  match d with
  | [] => [(k, [x])]
  | (k', l) :: d' =>
      if String.eqb k k' then (k', l ++ [x]) :: d'
      else (k', l) :: setdefault_append k x d'
  end.

(** [d.pop(k)], the dictionary that is left. *)
Fixpoint dict_pop {V : Type} (k : string) (d : pydict V) : pydict V :=
  match d with
  | [] => []
  | (k', v) :: d' => if String.eqb k k' then d' else (k', v) :: dict_pop k d'
  end.

(** [d[k]], raising [KeyError]. *)
Definition dict_lookup {V : Type} (k : string) (d : pydict V) : outcome V :=
  match dict_get k d with
  | Some v => Ret v
  | None => Raise (KeyError k)
  end.

Definition set_add (x : string) (s : list string) : list string :=
  if mem x s then s else s ++ [x].

(** [s.update(xs)], also [set(xs)] from the empty set. *)
Definition set_update (s : list string) (xs : list string) : list string :=
  fold_left (fun acc x => set_add x acc) xs s.

(** Whether [a.intersection(b)] is not empty. *)
Definition intersects (a b : list string) : bool :=
  existsb (fun x => mem x b) a.

Fixpoint insert_sorted (x : string) (l : list string) : list string :=
  match l with
  | [] => [x]
  | y :: l' => if String.leb x y then x :: l else y :: insert_sorted x l'
  end.

(** [sorted(xs)] *)
Definition sorted (xs : list string) : list string :=
  fold_right insert_sorted [] xs.

(** [sep.join(xs)] *)
Fixpoint join (sep : string) (xs : list string) : string :=
  match xs with
  | [] => EmptyString
  | [x] => x
  | x :: xs' => x ++ sep ++ join sep xs'
  end.

(** ** The database

    Modelled from the spec: the [tsdb] module ([Field], [Database],
    [make_field_index]) is not among the sources.  A field has a name, a
    datatype and the key flag; a database exposes the schema, an ordered
    mapping from relation names to fields, and [select_from], which gives
    the rows of a relation restricted to the requested columns, in the
    order requested. *)
Record Field : Type := mk_Field {
  name : string;
  datatype : string;
  is_key : bool
}.

Abbreviation row := (list value) (only parsing).

Record Database : Type := mk_Database {
  schema : pydict (list Field);
  tables : pydict (list row)
}.

(** [{f.name: i for i, f in enumerate(fields, start)}] merged into [index]. *)
Fixpoint index_fields (start : nat) (fields : list Field) (index : pydict nat)
  : pydict nat :=
  match fields with
  | [] => index
  | f :: fields' => index_fields (S start) fields' (dict_set (name f) start index)
  end.

Definition make_field_index (fields : list Field) : pydict nat :=
  index_fields 0 fields [].

Definition select_from (db : Database) (relation : string) (columns : list string)
  : outcome (list row) :=
  fields <- dict_lookup relation (schema db) ;;
  let index := make_field_index fields in
  indices <- mapM (fun col => dict_lookup col index) columns ;;
  let rows := match dict_get relation (tables db) with Some rs => rs | None => [] end in
  Ret (map (fun r : row => map (fun idx => nth idx r VNone) indices) rows).

(** ** Name resolution *)

Definition schema_fields (db : Database) : list (string * string) :=
  flat_map (fun '(relname, fields) => map (fun f => (name f, relname)) fields)
           (schema db).

(** [sorted(rels, key=relations.__contains__, reverse=True)]: the sort is
    stable, so the relations named in the query come first and each group
    keeps its order. *)
Definition prefer (relations : list string) (rels : list string) : list string :=
  filter (fun r => mem r relations) rels ++ filter (fun r => negb (mem r relations)) rels.

Definition _make_schema_map (db : Database) (relations : list string)
  : pydict (list string) :=
  let schema_map :=
    fold_left (fun m '(col, relname) => setdefault_append col relname m)
              (schema_fields db) [] in
  map (fun '(colname, rels) => (colname, prefer relations rels)) schema_map.

(** The function [resolve] that [_make_qname_resolver] returns. *)
Definition _make_qname_resolver (schema_map : pydict (list string)) (colname : string)
  : outcome string :=
  let '(rel, col) := rpartition colname in
  if truthy rel then Ret colname
  else
    match dict_get col schema_map with
    | Some (r :: _) => Ret (qualify r col)
    | Some [] => Raise (IndexError "list index out of range")
    | None => Raise (TSQLError ("undefined column: " ++ colname))
    end.

(** ** The join planner *)

Definition _make_keymap (db : Database) : pydict (list string) :=
  map (fun '(rel, fields) => (rel, map name (filter is_key fields))) (schema db).

(** The local function [add_edges] of [_pivot_relations]. *)
Fixpoint add_edges (keys : list string) : list (string * string) :=
  match keys with
  | [] => []
  | k :: keys' => map (fun k' => (k, k')) keys' ++ add_edges keys'
  end.

(** Modelled from the spec: [util._connected_components], which is not
    among the sources, gives the connected components of the graph of the
    key names.  Every node starts as a component of its own and every edge
    merges the components its two ends are in. *)
Definition touches (e : string * string) (c : list string) : bool :=
  mem (fst e) c || mem (snd e) c.

Definition merge_edge (comps : list (list string)) (e : string * string)
  : list (list string) :=
  match filter (touches e) comps with
  | [] => comps
  | hit => List.concat hit :: filter (fun c => negb (touches e c)) comps
  end.

Definition _connected_components (nodes : list string) (edges : list (string * string))
  : list (list string) :=
  fold_left merge_edge edges (map (fun n => [n]) nodes).

(** [sum(1 if c.intersection(keys) else 0 for c in components)] *)
Definition bridged (components : list (list string)) (keys : list string) : nat :=
  List.length (filter (fun c => intersects c keys) components).

(** The [for rel, keys in keymap.items()] search of the pivot loop: the
    first relation that is not selected, has more than one key and
    touches more than one component. *)
Definition find_pivot (keymap : pydict (list string)) (chosen : list string)
           (components : list (list string)) : option (string * list string) :=
  find (fun '(rel, keys) =>
          negb (mem rel chosen) && (1 <? List.length keys)
          && (1 <? bridged components keys))
       keymap.

Definition no_pivot (relset : list string) : exn :=
  TSQLError ("could not find relation to join: " ++ join ", " (sorted relset)).

(** The [while len(components) > 1] loop of [_pivot_relations]; [fuel]
    bounds the number of its iterations. *)
Fixpoint pivot_loop (fuel : nat) (keymap : pydict (list string))
         (relset nodes : list string) (edges : list (string * string))
         (pivots : list string) (components : list (list string))
  : outcome (list string) :=
  if (1 <? List.length components) then
    match fuel with
    | O => Fuel
    | S fuel' =>
        match find_pivot keymap (set_update relset pivots) components with
        | Some (rel, keys) =>
            let nodes := set_update nodes keys in
            let edges := edges ++ add_edges keys in
            pivot_loop fuel' keymap relset nodes edges (set_add rel pivots)
                       (_connected_components nodes edges)
        | None => Raise (no_pivot relset)
        end
    end
  else Ret pivots.

(** The first loop of [_pivot_relations]: the nodes and the edges of the
    selected relations. *)
Fixpoint key_graph (keymap : pydict (list string)) (rels : list string)
         (nodes : list string) (edges : list (string * string))
  : outcome (list string * list (string * string)) :=
  match rels with
  | [] => Ret (nodes, edges)
  | rel :: rels' =>
      keys <- dict_lookup rel keymap ;;
      key_graph keymap rels' (set_update nodes keys) (edges ++ add_edges keys)
  end.

(** The first loop of [_plan_joins], over [projection + condition_fields]. *)
Fixpoint requested (qnames : list string)
         (joinmap : pydict (list string)) (added relset : list string)
  : pydict (list string) * list string * list string :=
  match qnames with
  | [] => (joinmap, added, relset)
  | qname :: qnames' =>
      if mem qname added then requested qnames' joinmap added relset
      else
        let '(rel, col) := rpartition qname in
        requested qnames' (setdefault_append rel col joinmap)
                  (set_add qname added) (set_add rel relset)
  end.

(** The inner loop of "always add keys", over the fields of a relation. *)
Definition add_keys (relation : string) (fields : list Field) (added : list string)
           (joinmap : pydict (list string)) : pydict (list string) :=
  fold_left
    (fun jm f =>
       if is_key f && negb (mem (qualify relation (name f)) added)
       then setdefault_append relation (name f) jm else jm)
    fields joinmap.

Fixpoint always_add_keys (db : Database) (rels : list string) (added : list string)
         (joinmap : pydict (list string)) : outcome (pydict (list string)) :=
  match rels with
  | [] => Ret joinmap
  | relation :: rels' =>
      fields <- dict_lookup relation (schema db) ;;
      always_add_keys db rels' added (add_keys relation fields added joinmap)
  end.

Definition infinite_loop : exn := TSQLError "infinite loop detected!".

(** The [while joinmap] loop of [_plan_joins]; [fuel] bounds the number
    of its iterations. *)
Fixpoint join_order (fuel : nat) (keymap : pydict (list string))
         (joinmap : pydict (list string)) (joined_keys : list string)
         (joins : list (string * list string))
  : outcome (list (string * list string)) :=
  match joinmap with
  | [] => Ret joins
  | _ :: _ =>
      match fuel with
      | O => Fuel
      | S fuel' =>
          match find (fun '(rel, cols) =>
                        negb (truthy_list joins) || intersects joined_keys cols)
                     joinmap with
          | Some (rel, cols) =>
              keys <- dict_lookup rel keymap ;;
              join_order fuel' keymap (dict_pop rel joinmap)
                         (set_update joined_keys keys) (joins ++ [(rel, cols)])
          | None => Raise infinite_loop
          end
      end
  end.

(** [_pivot_relations] with [relset] iterated over in the order [order].
    The pivot loop is run with one unit of fuel more than there are
    relations. *)
Definition pivot_relations_in (order relset : list string)
           (keymap : pydict (list string)) : outcome (list string) :=
  '(nodes, edges) <- key_graph keymap order [] [] ;;
  pivot_loop (S (List.length keymap)) keymap relset nodes edges []
             (_connected_components nodes edges).

(** The last two steps of [_plan_joins] with the relations iterated over
    in the order [order].  The join loop is run with one unit of fuel per
    relation. *)
Definition order_joins (db : Database) (order added : list string)
           (joinmap : pydict (list string)) : outcome (list (string * list string)) :=
  joinmap <- always_add_keys db order added joinmap ;;
  join_order (List.length (schema db)) (_make_keymap db) joinmap [] [].

Section Planner.

(** The order in which a set is iterated over. *)
Variable set_iter : list string -> list string.

Definition _pivot_relations (relset : list string) (keymap : pydict (list string))
  : outcome (list string) :=
  pivot_relations_in (set_iter relset) relset keymap.

Definition _plan_joins (projection condition_fields relations : list string)
           (db : Database) : outcome (list (string * list string)) :=
  let '(joinmap, added, relset) :=
    requested (projection ++ condition_fields) [] [] (set_update [] relations) in
  let keymap := _make_keymap db in
  pivots <- _pivot_relations relset keymap ;;
  let relset := set_update relset (set_iter pivots) in
  order_joins db (set_iter relset) added joinmap.

End Planner.

(** ** The schema of the planner example

    Three relations: [R1] with the key [a], [R2] with the keys [a] and
    [b], [R3] with the key [b]; [R1] and [R3] have a column of their own. *)
Definition key_field (n : string) : Field := mk_Field n ":integer" true.
Definition data_field (n : string) : Field := mk_Field n ":string" false.

Definition R1_fields : list Field := [key_field "a"; data_field "x"].
Definition R2_fields : list Field := [key_field "a"; key_field "b"].
Definition R3_fields : list Field := [key_field "b"; data_field "y"].

Definition db123 : Database :=
  mk_Database [("R1", R1_fields); ("R2", R2_fields); ("R3", R3_fields)] [].

(** The same schema without [R2]. *)
Definition db13 : Database :=
  mk_Database [("R1", R1_fields); ("R3", R3_fields)] [].

(** Whether some field of [fields] is named [col]. *)
Definition has_field (col : string) (fields : list Field) : bool :=
  existsb (fun f => String.eqb (name f) col) fields.

(** The first relation of the schema, in its order, that satisfies [p]
    and has a field named [col]. *)
Definition first_relation (db : Database) (p : string -> bool) (col : string)
  : option string :=
  match find (fun '(rel, fields) => p rel && has_field col fields) (schema db) with
  | Some (rel, _) => Some rel
  | None => None
  end.

Definition undefined_column (colname : string) : exn :=
  TSQLError ("undefined column: " ++ colname).

(** ** The execution plan *)

(** [_process_condition_fields]: the condition with its column names
    resolved and the sorted names of the columns it uses. *)
Fixpoint _process_condition_fields (resolve_qname : string -> outcome string)
         (cond : condition) : outcome (condition * list string) :=
  match cond with
  | BoolOp op body =>
      '(conditions, fieldset) <-
        (fix each (body : list condition) (fieldset : list string)
           : outcome (list condition * list string) :=
           match body with
           | [] => Ret ([], fieldset)
           | c :: body' =>
               '(c', fields) <- _process_condition_fields resolve_qname c ;;
               '(conditions, fieldset) <- each body' (set_update fieldset fields) ;;
               Ret (c' :: conditions, fieldset)
           end) body [] ;;
      Ret (BoolOp op conditions, sorted fieldset)
  | Not body =>
      '(ncond, fields) <- _process_condition_fields resolve_qname body ;;
      Ret (Not ncond, fields)
  | Cmp op column val =>
      qname <- resolve_qname column ;;
      Ret (Cmp op qname val, [qname])
  end.

(** The loop of [_project_all] over the fields of one relation. *)
Fixpoint project_fields (relname : string) (fields : list Field)
         (projection keys_added : list string) : list string * list string :=
  match fields with
  | [] => (projection, keys_added)
  | field :: fields' =>
      let qname := qualify relname (name field) in
      if negb (is_key field) then
        project_fields relname fields' (projection ++ [qname]) keys_added
      else if negb (mem (name field) keys_added) then
        project_fields relname fields' (projection ++ [qname])
                       (set_add (name field) keys_added)
      else project_fields relname fields' projection keys_added
  end.

Fixpoint project_relations (db : Database) (relations : list string)
         (projection keys_added : list string) : outcome (list string) :=
  match relations with
  | [] => Ret projection
  | relname :: relations' =>
      fields <- dict_lookup relname (schema db) ;;
      let '(projection, keys_added) :=
        project_fields relname fields projection keys_added in
      project_relations db relations' projection keys_added
  end.

Definition _project_all (relations : list string) (db : Database)
  : outcome (list string) :=
  project_relations db relations [] [].

(** ** Selections *)

Record Selection : Type := mk_Selection {
  sel_fields : list Field;
  sel_field_index : pydict nat;
  sel_data : list row;
  sel_projection : option (list string);
  sel_joined : list string
}.

(** [Selection()] *)
Definition new_selection : Selection := mk_Selection [] [] [] None [].

(** [r[idx]] *)
Definition row_get (r : row) (idx : nat) : outcome value :=
  match nth_error r idx with
  | Some v => Ret v
  | None => Raise (IndexError "tuple index out of range")
  end.

(** [Selection.select] on [names], as the list of the rows it yields. *)
Definition select_rows (selection : Selection) (names : list string)
  : outcome (list row) :=
  indices <-
    (if truthy_list names
     then mapM (fun n => dict_lookup n (sel_field_index selection)) names
     else Ret (seq 0 (List.length (sel_fields selection)))) ;;
  _ <- mapM (fun idx =>
               match nth_error (sel_fields selection) idx with
               | Some f => Ret f
               | None => Raise (IndexError "list index out of range")
               end) indices ;;
  mapM (fun r => mapM (row_get r) indices) (sel_data selection).

(** [list(selection)]: [Selection.__iter__]. *)
Definition selection_rows (selection : Selection) : outcome (list row) :=
  match sel_projection selection with
  | None => select_rows selection []
  | Some names => select_rows selection names
  end.

(** The first loop of [_merge_fields], from position [i] on. *)
Fixpoint merge_each (relationname : string) (i : nat) (new : list Field)
         (fs : list Field) (index : pydict nat) : list Field * pydict nat :=
  match new with
  | [] => (fs, index)
  | field :: new' =>
      let index :=
        if dict_contains (name field) index then index
        else dict_set (name field) i index in
      let index := dict_set (qualify relationname (name field)) i index in
      merge_each relationname (S i) new' (fs ++ [field]) index
  end.

(** The second loop of [_merge_fields], over the [on] columns. *)
Fixpoint merge_on (relationname : string) (on : list string) (index : pydict nat)
  : outcome (pydict nat) :=
  match on with
  | [] => Ret index
  | n :: on' =>
      i <- dict_lookup n index ;;
      merge_on relationname on' (dict_set (qualify relationname n) i index)
  end.

Definition _merge_fields (selection : Selection) (relationname : string)
           (on : list string) (new : list Field) : outcome Selection :=
  let offset := List.length (sel_fields selection) in
  let '(fs, index) :=
    merge_each relationname offset new (sel_fields selection) (sel_field_index selection) in
  index <- merge_on relationname on index ;;
  Ret (mk_Selection fs index (sel_data selection) (sel_projection selection)
                    (set_add relationname (sel_joined selection))).

Definition duplicate_join : exn := TSQLError "cannot join the same relation twice".
Definition no_shared_keys : exn := TSQLError "no shared keys for joining".

Section Executor.

(** The order in which a set is iterated over; [re.search] on a pattern
    and a string, [None] for a pattern that does not compile; equality
    and order of the dates two texts were cast to.  All are external to
    the module. *)
Variable set_iter : list string -> list string.
Variable re_search : string -> string -> option bool.
Variable date_eqb : string -> string -> bool.
Variable date_ltb : string -> string -> bool.

(** [a == b] on values. *)
Definition value_eqb (a b : value) : bool :=
  match a, b with
  | VInt x, VInt y => Z.eqb x y
  | VStr x, VStr y => String.eqb x y
  | VDate x, VDate y => date_eqb x y
  | VNone, VNone => true
  | _, _ => false
  end.

(** [a < b] on values; unlike values are not ordered. *)
Definition value_ltb (a b : value) : outcome bool :=
  match a, b with
  | VInt x, VInt y => Ret (Z.ltb x y)
  | VStr x, VStr y => Ret (String.ltb x y)
  | VDate x, VDate y => Ret (date_ltb x y)
  | _, _ => Raise (TypeError "'<' not supported between instances")
  end.

(** The table [_operator_functions]. *)
Definition _operator_functions : pydict (value -> value -> outcome bool) :=
  [ ("==", fun a b => Ret (value_eqb a b));
    ("!=", fun a b => Ret (negb (value_eqb a b)));
    ("<", value_ltb);
    ("<=", fun a b => lt <- value_ltb a b ;; Ret (lt || value_eqb a b));
    (">", fun a b => value_ltb b a);
    (">=", fun a b => gt <- value_ltb b a ;; Ret (gt || value_eqb a b)) ].

(** [all(cond(row) for cond in conditions)] and [any(...)], which stop at
    the first condition that decides. *)
Fixpoint all_of (conditions : list (row -> outcome bool)) (r : row) : outcome bool :=
  match conditions with
  | [] => Ret true
  | cond :: conditions' =>
      b <- cond r ;; if b then all_of conditions' r else Ret false
  end.

Fixpoint any_of (conditions : list (row -> outcome bool)) (r : row) : outcome bool :=
  match conditions with
  | [] => Ret false
  | cond :: conditions' =>
      b <- cond r ;; if b then Ret true else any_of conditions' r
  end.

(** [re.search(pattern, val)] as a truth value. *)
Definition search (pattern val : value) : outcome bool :=
  match pattern, val with
  | VStr p, VStr s =>
      match re_search p s with
      | Some found => Ret found
      | None => Raise (ReError p)
      end
  | _, _ => Raise (TypeError "expected string or bytes-like object")
  end.

Fixpoint _process_condition_function (cond : condition) (field_index : pydict nat)
  : outcome (row -> outcome bool) :=
  match cond with
  | BoolOp op body =>
      conditions <-
        (fix each (body : list condition) : outcome (list (row -> outcome bool)) :=
           match body with
           | [] => Ret []
           | c :: body' =>
               func <- _process_condition_function c field_index ;;
               funcs <- each body' ;;
               Ret (func :: funcs)
           end) body ;;
      Ret (if String.eqb op "and" then all_of conditions else any_of conditions)
  | Not body =>
      nfunc <- _process_condition_function body field_index ;;
      Ret (fun r => b <- nfunc r ;; Ret (negb b))
  | Cmp op column val =>
      if String.eqb op "~" then
        Ret (fun r =>
               idx <- dict_lookup column field_index ;;
               v <- row_get r idx ;;
               search val v)
      else if String.eqb op "!~" then
        Ret (fun r =>
               idx <- dict_lookup column field_index ;;
               v <- row_get r idx ;;
               b <- search val v ;;
               Ret (negb b))
      else
        compare <- dict_lookup op _operator_functions ;;
        Ret (fun r =>
               idx <- dict_lookup column field_index ;;
               v <- row_get r idx ;;
               compare v val)
  end.

(** [list(filter(cond, rows))] *)
Fixpoint filter_rows (cond : row -> outcome bool) (rows : list row)
  : outcome (list row) :=
  match rows with
  | [] => Ret []
  | r :: rows' =>
      b <- cond r ;;
      kept <- filter_rows cond rows' ;;
      Ret (if b then r :: kept else kept)
  end.

(** [a == b] on tuples of values. *)
Fixpoint row_eqb (a b : row) : bool :=
  match a, b with
  | [], [] => true
  | x :: a', y :: b' => value_eqb x y && row_eqb a' b'
  | _, _ => false
  end.

(** The dictionary [right] of [_join], from key tuples to rows. *)
Fixpoint right_get (keys : row) (right : list (row * list row)) : option (list row) :=
  match right with
  | [] => None
  | (k, rows) :: right' => if row_eqb keys k then Some rows else right_get keys right'
  end.

Fixpoint right_append (keys : row) (r : row) (right : list (row * list row))
  : list (row * list row) :=
  match right with
  | [] => [(keys, [r])]
  | (k, rows) :: right' =>
      if row_eqb keys k then (k, rows ++ [r]) :: right'
      else (k, rows) :: right_append keys r right'
  end.

Definition _join (selection : Selection) (db : Database) (relname : string)
           (columns : list string) (how : string) : outcome Selection :=
  if negb (mem how ["inner"; "left"]) then
    Raise (TSQLError "only 'inner' and 'left' join methods are allowed")
  else if mem relname (sel_joined selection) then Raise duplicate_join
  else
    all_fields <- dict_lookup relname (schema db) ;;
    let field_index := make_field_index all_fields in
    indices <- mapM (fun col => dict_lookup col field_index) columns ;;
    new <- mapM (fun idx =>
                   match nth_error all_fields idx with
                   | Some f => Ret f
                   | None => Raise (IndexError "list index out of range")
                   end) indices ;;
    if negb (truthy_list (sel_joined selection)) then
      selection <- _merge_fields selection relname [] new ;;
      rows <- select_from db relname columns ;;
      Ret (mk_Selection (sel_fields selection) (sel_field_index selection) rows
                        (sel_projection selection) (sel_joined selection))
    else
      let on :=
        map name
            (filter (fun f => is_key f && dict_contains (name f) (sel_field_index selection))
                    new) in
      let new := filter (fun f => negb (mem (name f) on)) new in
      let cols := map name new in
      if negb (truthy_list on) then Raise no_shared_keys
      else
        rkeys <- select_from db relname on ;;
        rrows <- select_from db relname cols ;;
        let right :=
          fold_left (fun right '(keys, r) => right_append keys r right)
                    (combine rkeys rrows) [] in
        let rfill := map (fun _ => VNone) new in
        lkeys <- select_rows selection on ;;
        lrows <- selection_rows selection ;;
        let rows :=
          flat_map
            (fun '(keys, lrow) =>
               match right_get keys right with
               | Some rrows => map (fun rrow => lrow ++ rrow) rrows
               | None =>
                   if String.eqb how "left" then [lrow ++ rfill] else []
               end)
            (combine lkeys lrows) in
        selection <- _merge_fields selection relname on new ;;
        Ret (mk_Selection (sel_fields selection) (sel_field_index selection) rows
                          (sel_projection selection) (sel_joined selection)).

Definition _make_execution_plan (projection relations : list string)
           (cond : option condition) (db : Database)
  : outcome (list string * list (string * list string) * option condition) :=
  let schema_map := _make_schema_map db relations in
  let resolve_qname := _make_qname_resolver schema_map in
  projection <-
    (if list_eqb projection ["*"] then _project_all relations db
     else mapM resolve_qname projection) ;;
  '(cond_resolved, cond_fields) <-
    match cond with
    | Some c =>
        '(c', fs) <- _process_condition_fields resolve_qname c ;;
        Ret (Some c', fs)
    | None => Ret (None, [])
    end ;;
  joins <- _plan_joins set_iter projection cond_fields relations db ;;
  Ret (projection, joins, cond_resolved).

(** The loop of [_select] over the planned joins. *)
Fixpoint join_all (selection : Selection) (db : Database)
         (joins : list (string * list string)) : outcome Selection :=
  match joins with
  | [] => Ret selection
  | (relname, columns) :: joins' =>
      selection <- _join selection db relname columns "inner" ;;
      join_all selection db joins'
  end.

Definition _select (projection relations : list string)
           (cond : option condition) (db : Database) : outcome Selection :=
  '(proj, joins, cond) <-
    _make_execution_plan projection relations cond db ;;
  selection <- join_all new_selection db joins ;;
  selection <-
    match cond with
    | Some c =>
        func <- _process_condition_function c (sel_field_index selection) ;;
        rows <- filter_rows func (sel_data selection) ;;
        Ret (mk_Selection (sel_fields selection) (sel_field_index selection) rows
                          (sel_projection selection) (sel_joined selection))
    | None => Ret selection
    end ;;
  Ret (mk_Selection (sel_fields selection) (sel_field_index selection) (sel_data selection)
                    (Some proj) (sel_joined selection)).

(** [select(querystring, db)] *)
Definition select (querystring : string) (db : Database) : outcome Selection :=
  queryobj <- _parse_select querystring ;;
  _select (q_projection queryobj) (q_relations queryobj) (q_condition queryobj) db.

End Executor.

(** ** Queries *)

(** [s.lstrip()] *)
Fixpoint lstrip (s : string) : string :=
  match s with
  | String c s' => if is_space c then lstrip s' else s
  | EmptyString => s
  end.

(** [s.partition(' ')], without the separator. *)
Fixpoint partition_space (s : string) : string * string :=
  match s with
  | EmptyString => (EmptyString, EmptyString)
  | String c s' =>
      if Ascii.eqb c " " then (EmptyString, s')
      else let '(a, b) := partition_space s' in (String c a, b)
  end.

Definition lower_char (c : ascii) : ascii :=
  let n := nat_of_ascii c in
  if (65 <=? n) && (n <=? 90) then ascii_of_nat (n + 32) else c.

(** [s.lower()] *)
Fixpoint lower (s : string) : string :=
  match s with
  | EmptyString => EmptyString
  | String c s' => String (lower_char c) (lower s')
  end.

Definition _parse_query (querystring : string) : outcome queryobj :=
  let '(querytype, querybody) := partition_space (lstrip querystring) in
  let querytype := lower querytype in
  if mem querytype ["select"; "retrieve"] then _parse_select querybody
  else Raise (TSQLSyntaxError ("'" ++ querytype ++ "' queries are not supported")).

Section Query.

Variable set_iter : list string -> list string.
Variable re_search : string -> string -> option bool.
Variable date_eqb : string -> string -> bool.
Variable date_ltb : string -> string -> bool.

Definition query (querystring : string) (db : Database) : outcome Selection :=
  queryobj <- _parse_query querystring ;;
  if mem (q_type queryobj) ["select"; "retrieve"] then
    _select set_iter re_search date_eqb date_ltb
            (q_projection queryobj) (q_relations queryobj) (q_condition queryobj) db
  else Raise (TSQLSyntaxError (q_type queryobj ++ " queries are not supported")).

(** [list(query(querystring, db))] *)
Definition query_rows (querystring : string) (db : Database) : outcome (list row) :=
  selection <- query querystring db ;;
  selection_rows selection.

End Query.

(** ** An example profile

    A database of one relation, [item], with the key [i-id] and the
    columns [i-input] and [i-wf]. *)
Definition item_fields : list Field :=
  [mk_Field "i-id" ":integer" true;
   mk_Field "i-input" ":string" false;
   mk_Field "i-wf" ":integer" false].

Definition item_rows : list row :=
  [[VInt 10; VStr "The dog barks."; VInt 1];
   [VInt 20; VStr "The cat meows."; VInt 1];
   [VInt 30; VStr "Dog the barks."; VInt 0];
   [VInt 10; VStr "Dogs bark."; VInt 0]].

Definition item_db : Database :=
  mk_Database [("item", item_fields)] [("item", item_rows)].

(** Stand-ins for what is external to the module when a query is run on
    the example: sets are iterated over in insertion order, no pattern
    compiles, dates are compared as their texts. *)
Definition no_search (pattern s : string) : option bool := None.

Definition run_query (querystring : string) (db : Database) : outcome (list row) :=
  query_rows (fun l => l) no_search String.eqb String.ltb querystring db.

(** ** Enumerations for the planner example *)

(** The elements of [xs] not in [seen], each at its first occurrence. *)
Fixpoint dedup_from (seen xs : list string) : list string :=
  match xs with
  | [] => []
  | x :: xs' =>
      if mem x seen then dedup_from seen xs'
      else x :: dedup_from (seen ++ [x]) xs'
  end.

(** The lists of at most [n] elements of [universe] without repetition. *)
Fixpoint seqs (n : nat) (universe : list string) : list (list string) :=
  match n with
  | O => [[]]
  | S n' =>
      [] :: flat_map
              (fun x => map (cons x) (filter (fun l => negb (mem x l)) (seqs n' universe)))
              universe
  end.

Fixpoint insert_all (x : string) (l : list string) : list (list string) :=
  match l with
  | [] => [[x]]
  | y :: l' => (x :: l) :: map (cons y) (insert_all x l')
  end.

(** The permutations of a list. *)
Fixpoint perms (l : list string) : list (list string) :=
  match l with
  | [] => [[]]
  | x :: l' => flat_map (insert_all x) (perms l')
  end.

(** The columns of [R1] and [R3] in the example schema. *)
Definition example_columns : list string := ["R1.a"; "R1.x"; "R3.b"; "R3.y"].

(** Whether [a] comes before [b] in a list that has both. *)
Fixpoint precedes (a b : string) (l : list string) : bool :=
  match l with
  | [] => false
  | x :: l' =>
      if String.eqb x a then mem b l'
      else if String.eqb x b then false
      else precedes a b l'
  end.

(** A plan of three joins: [first], then [R2] on both keys, then the
    other of [R1] and [R3]. *)
Definition pivot_second (first : string) (r : outcome (list (string * list string)))
  : bool :=
  match r with
  | Ret [(r1, _); (r2, c2); (r3, _)] =>
      String.eqb r1 first && String.eqb r2 "R2" && list_eqb c2 ["a"; "b"]
      && String.eqb r3 (if String.eqb first "R1" then "R3" else "R1")
  | _ => false
  end.

Definition is_ret_list (expected : list string) (r : outcome (list string)) : bool :=
  match r with
  | Ret l => list_eqb l expected
  | _ => false
  end.

Definition is_engine_error {A : Type} (msg : string) (r : outcome A) : bool :=
  match r with
  | Raise (TSQLError m) => String.eqb m msg
  | _ => false
  end.

Definition no_pivot_R1_R3 : string := "could not find relation to join: R1, R3".

(** The check of the example for the requested columns [d] (without
    repetition) and the named relations [rs] (without repetition): for
    every order of iteration over the sets, [R2] is the pivot and is
    joined second on the schema with [R2], and no pivot is found on the
    schema without it. *)
Definition example_check (d rs : list string) : bool :=
  let '(joinmap, added, relset) := requested d [] [] rs in
  if truthy_list d && mem "R1" relset && mem "R3" relset then
    forallb
      (fun order =>
         is_ret_list ["R2"] (pivot_relations_in order relset (_make_keymap db123))
         && is_engine_error no_pivot_R1_R3
              (pivot_relations_in order relset (_make_keymap db13)))
      (perms relset)
    && forallb
         (fun order =>
            pivot_second (fst (rpartition (hd EmptyString d)))
                         (order_joins db123 order added joinmap))
         (perms (set_update relset ["R2"]))
  else true.

(** Whether an exception is the engine error [TSQLError]. *)
Definition engine_error (e : exn) : bool :=
  match e with
  | TSQLError _ => true
  | _ => false
  end.

(** Two nodes are in the same component. *)
Definition same_component (comps : list (list string)) (u v : string) : Prop :=
  exists c, In c comps /\ In u c /\ In v c.

(** ** The query of the identifiers 10 and 20 *)

Definition ids_query : string := "select i-id from item where i-id = 10 or i-id = 20".

(** The condition of the query, as parsed and as resolved. *)
Definition ids_parsed : condition :=
  BoolOp "or" [Cmp "==" "i-id" (VInt 10); Cmp "==" "i-id" (VInt 20)].
Definition ids_condition : condition :=
  BoolOp "or" [Cmp "==" "item.i-id" (VInt 10); Cmp "==" "item.i-id" (VInt 20)].

(** A row of the single column [i-id] whose value is 10 or 20. *)
Definition id_is_10_or_20 (r : row) : bool :=
  match r with
  | [VInt z] => (z =? 10)%Z || (z =? 20)%Z
  | _ => false
  end.

(** The keys of [item] other than [i-id], which the planner adds to the
    columns to fetch. *)
Definition other_keys (fs : list Field) : list string :=
  map name
      (filter (fun f => is_key f && negb (mem (qualify "item" (name f)) ["item.i-id"]))
              fs).

(** The rows of a relation as the database stores them. *)
Definition table_rows (db : Database) (relation : string) : list row :=
  match dict_get relation (tables db) with
  | Some rs => rs
  | None => []
  end.

(** Whether the first value of a row is the integer 10 or 20. *)
Definition first_is_10_or_20 (r : row) : bool :=
  match r with
  | VInt z :: _ => (z =? 10)%Z || (z =? 20)%Z
  | _ => false
  end.

(** The two condition bodies of the where-clause examples. *)
Definition body_A : string := "i-id = 10 or i-id = 20".
Definition body_B : string := "i-wf = 0".

Definition body_A_tokens : lexer :=
  [(_ID, "i-id"); (_OP, "="); (_INT, "10"); (_OR, "or");
   (_ID, "i-id"); (_OP, "="); (_INT, "20")].
Definition body_B_tokens : lexer := [(_ID, "i-wf"); (_OP, "="); (_INT, "0")].

Definition cond_A : condition :=
  BoolOp "or" [Cmp "==" "i-id" (VInt 10); Cmp "==" "i-id" (VInt 20)].
Definition cond_B : condition := Cmp "==" "i-wf" (VInt 0).

(** ** Further definitions for the properties of the whole module *)

(** [inspect_query(querystring)] *)
Definition inspect_query (querystring : string) : outcome queryobj :=
  _parse_query querystring.

(** The literals of the rules of the token table that are keywords,
    operators or punctuation. *)
Definition keyword_texts (t : tokentype) : option (list string) :=
  match t with
  | _FROM => Some ["from"]
  | _WHERE => Some ["where"]
  | _REPORT => Some ["report"]
  | _STAR => Some ["*"]
  | _DOT => Some ["."]
  | _OP => Some ["=="; "="; "!="; "~"; "!~"; "<="; "<"; ">="; ">"]
  | _AND => Some ["&&"; "&"; "and"]
  | _OR => Some ["||"; "|"; "or"]
  | _NOT => Some ["!"; "not"]
  | _LPAREN => Some ["("]
  | _RPAREN => Some [")"]
  | _KWDATE => Some [":today"; "now"]
  | _ => None
  end.

(** What the table guarantees of the text of a token: a keyword token
    carries one of the literals of its rule, an integer token a numeral,
    an identifier (qualified or not) a non-empty text. *)
Definition token_ok (tok : token) : bool :=
  match keyword_texts (fst tok) with
  | Some texts => mem (snd tok) texts
  | None =>
      match fst tok with
      | _INT => is_ret (int (snd tok))
      | _QID | _ID => truthy (snd tok)
      | _ => true
      end
  end.

(** The operators [_process_condition_function] can compile. *)
Definition comparison_ops : list string :=
  ["=="; "!="; "~"; "!~"; "<"; "<="; ">"; ">="].

(** A condition all of whose comparisons use such an operator. *)
Fixpoint compilable (cond : condition) : bool :=
  match cond with
  | Cmp op _ _ => mem op comparison_ops
  | BoolOp _ body => forallb compilable body
  | Not body => compilable body
  end.
(** The loop of [_process_condition_fields] over the body of an [and] or
    an [or], as a function of its own. *)
Definition resolve_body (resolve_qname : string -> outcome string)
  : list condition -> list string -> outcome (list condition * list string) :=
  fix each (body : list condition) (fieldset : list string) :=
    match body with
    | [] => Ret ([], fieldset)
    | c :: body' =>
        '(c', fields) <- _process_condition_fields resolve_qname c ;;
        '(conditions, fieldset) <- each body' (set_update fieldset fields) ;;
        Ret (c' :: conditions, fieldset)
    end.

(** The column names of a condition, from left to right. *)
Fixpoint condition_columns (cond : condition) : list string :=
  match cond with
  | Cmp _ column _ => [column]
  | BoolOp _ body => flat_map condition_columns body
  | Not body => condition_columns body
  end.

Section ConditionLoops.

Variable re_search : string -> string -> option bool.
Variable date_eqb : string -> string -> bool.
Variable date_ltb : string -> string -> bool.

(** The loop of [_process_condition_function] over the body of an [and]
    or an [or], as a function of its own. *)
Definition compile_body (field_index : pydict nat)
  : list condition -> outcome (list (row -> outcome bool)) :=
  fix each (body : list condition) :=
    match body with
    | [] => Ret []
    | c :: body' =>
        func <- _process_condition_function re_search date_eqb date_ltb c field_index ;;
        funcs <- each body' ;;
        Ret (func :: funcs)
    end.

End ConditionLoops.

(** Two compiled filters that raise the same exception, or return
    functions that agree on every row. *)
Definition same_filter (a b : outcome (row -> outcome bool)) : Prop :=
  match a, b with
  | Ret f, Ret g => forall r, f r = g r
  | Raise e, Raise e' => e = e'
  | Fuel, Fuel => True
  | _, _ => False
  end.

(** The filter [not nfunc(row)]. *)
Definition negate (nfunc : row -> outcome bool) : row -> outcome bool :=
  fun r => b <- nfunc r ;; Ret (negb b).

(** A join order is valid when every join after the first has, among its
    columns, a key of a relation joined before it; [joined_keys] are the
    keys of the relations already joined and [first] tells whether the
    next join is the first one. *)
Fixpoint valid_order (keymap : pydict (list string)) (joined_keys : list string)
         (first : bool) (joins : list (string * list string)) : bool :=
  match joins with
  | [] => true
  | (rel, cols) :: joins' =>
      (first || intersects joined_keys cols)
      && valid_order keymap
           (set_update joined_keys
              (match dict_get rel keymap with Some keys => keys | None => [] end))
           false joins'
  end.





(** * Properties of the parser *)

Lemma tokentype_eqb_eq (a b : tokentype) : tokentype_eqb a b = true <-> a = b.
Proof.
  split.
  - destruct a, b; simpl; intro H; try reflexivity; discriminate H.
  - intros ->. destruct b; reflexivity.
Qed.

Lemma tokentype_eqb_refl (a : tokentype) : tokentype_eqb a a = true.
Proof. apply tokentype_eqb_eq. reflexivity. Qed.

Lemma choice_type_ret choices lx t text rest :
  choice_type choices lx = Ret ((t, text), rest) ->
  lx = (t, text) :: rest /\ type_in t choices = true.
Proof.
  unfold choice_type. destruct lx as [|[t' text'] lx']; [discriminate|].
  destruct (type_in t' choices) eqn:E; [|discriminate].
  intro H. inversion H; subst. auto.
Qed.

Lemma expect_type_ret t lx text rest :
  expect_type t lx = Ret (text, rest) -> lx = (t, text) :: rest.
Proof.
  unfold expect_type.
  destruct (choice_type [t] lx) as [[[t' text'] lx']| |] eqn:E; simpl; try discriminate.
  intro H. inversion H; subst.
  apply choice_type_ret in E as [-> Hin]. simpl in Hin.
  destruct (tokentype_eqb t' t) eqn:Et; [|discriminate].
  apply tokentype_eqb_eq in Et. subst. reflexivity.
Qed.

Lemma expect_type_cons t text rest :
  expect_type t ((t, text) :: rest) = Ret (text, rest).
Proof. unfold expect_type. simpl. rewrite tokentype_eqb_refl. reflexivity. Qed.

Lemma accept_conn t lx o lx' :
  t = _AND \/ t = _OR ->
  accept_type t lx = (o, lx') ->
  (exists text, lx = (t, text) :: lx' /\ o = Some text) \/
  (o = None /\ lx' = lx /\
   forall r', hd_conn r' = hd_conn lx -> accept_type t r' = (None, r')).
Proof.
  intros Ht. unfold accept_type.
  destruct lx as [|[t' text] rest].
  - intro H. inversion H; subst. right. repeat split.
    intros [|[t'' text''] r'] Hr; [reflexivity|].
    simpl in Hr. destruct Ht; subst t; destruct t''; simpl in *; congruence.
  - destruct (tokentype_eqb t' t) eqn:E; intro H; inversion H; subst.
    + apply tokentype_eqb_eq in E. subst. left. eauto.
    + right. repeat split.
      intros [|[t'' text''] r'] Hr; [reflexivity|].
      simpl in Hr.
      destruct Ht; subst t; destruct t''; destruct t'; simpl in *;
        congruence.
Qed.

Lemma stable_statement column : stable (_parse_condition_statement column).
Proof.
  intros lx a rest H. unfold _parse_condition_statement in H.
  destruct (expect_type _OP lx) as [[op lx1]| |] eqn:E1; cbn [bind] in H; try discriminate.
  apply expect_type_ret in E1. subst lx.
  remember (if String.eqb op "=" then "==" else op) as op' eqn:Hop.
  remember (mem op' ["~"; "!~"]) as b1 eqn:Hb1.
  remember (mem op' ["<"; "<="; ">"; ">="]) as b2 eqn:Hb2.
  match type of H with
  | bind ?m _ = _ => destruct m as [[[typ text] lx2]| |] eqn:E2
  end; cbn [bind] in H; try discriminate.
  assert (Hlx : lx1 = (typ, text) :: lx2 /\
                forall r', (if b1 then
                     choice_type [_DQSTRING; _SQSTRING] ((typ, text) :: r')
                   else if b2 then
                     choice_type [_INT; _YYYYMMDD; _DDMMYY; _KWDATE] ((typ, text) :: r')
                   else
                     choice_type [_INT; _DQSTRING; _SQSTRING; _YYYYMMDD; _DDMMYY; _KWDATE]
                       ((typ, text) :: r')) = Ret ((typ, text), r')).
  { destruct b1; [|destruct b2];
      apply choice_type_ret in E2 as [-> Hin]; split; try reflexivity;
      intros r'; unfold choice_type; rewrite Hin; reflexivity. }
  destruct Hlx as [-> Hch].
  match type of H with
  | bind ?m _ = _ => destruct m as [v| |] eqn:E3
  end; cbn [bind] in H; try discriminate.
  inversion H; subst a rest.
  exists [(_OP, op); (typ, text)]. split; [reflexivity|].
  intros r' _. unfold _parse_condition_statement. simpl app.
  rewrite expect_type_cons. cbn [bind]. rewrite <- Hop, <- Hb1, <- Hb2.
  rewrite Hch. cbn [bind]. rewrite E3. reflexivity.
Qed.

Lemma disjunction_conds_S fuel lx :
  disjunction_conds (S fuel) lx =
  ('(cs, lx) <- conjunction_conds fuel lx ;;
   c <- conds_result "and" cs ;;
   let '(tok, lx) := accept_type _OR lx in
   if accepted tok then
     '(conds, lx) <- disjunction_conds fuel lx ;; Ret (c :: conds, lx)
   else Ret ([c], lx)).
Proof. reflexivity. Qed.

Lemma conjunction_conds_S fuel lx :
  conjunction_conds (S fuel) lx =
  ('((typ, token), lx) <- choice_type [_NOT; _LPAREN; _QID; _ID] lx ;;
   '(new, lx) <-
     (if tokentype_eqb typ _NOT then
        '(ds, lx) <- disjunction_conds fuel lx ;;
        d <- conds_result "or" ds ;;
        Ret ([Not d], lx)
      else if tokentype_eqb typ _LPAREN then
        '(ds, lx) <- disjunction_conds fuel lx ;;
        d <- conds_result "or" ds ;;
        '(_, lx) <- expect_type _RPAREN lx ;;
        Ret ([d], lx)
      else if type_in typ [_QID; _ID] then
        '(c, lx) <- _parse_condition_statement token lx ;;
        Ret ([c], lx)
      else Ret ([], lx)) ;;
   let '(tok, lx) := accept_type _AND lx in
   if accepted tok then
     '(conds, lx) <- conjunction_conds fuel lx ;; Ret (new ++ conds, lx)
   else Ret (new, lx)).
Proof. reflexivity. Qed.

Lemma stable_conds (fuel : nat) :
  stable (disjunction_conds fuel) /\ stable (conjunction_conds fuel).
Proof.
  induction fuel as [|f [IHd IHc]].
  - split; intros lx a rest H; discriminate H.
  - split.
    + intros lx a rest H. rewrite disjunction_conds_S in H.
      destruct (conjunction_conds f lx) as [[cs lx1]| |] eqn:E1; cbn [bind] in H; try discriminate.
      destruct (conds_result "and" cs) as [c| |] eqn:E2; cbn [bind] in H; try discriminate.
      destruct (accept_type _OR lx1) as [tok lx2] eqn:E3.
      apply IHc in E1 as (p1 & -> & S1).
      apply accept_conn in E3 as [(text & -> & ->)|(-> & -> & Hno)]; [| |auto].
      * cbn [accepted] in H. destruct (truthy text) eqn:E4.
        -- destruct (disjunction_conds f lx2) as [[conds lx3]| |] eqn:E5;
             cbn [bind] in H; try discriminate.
           inversion H; subst.
           apply IHd in E5 as (p2 & -> & S2).
           exists (p1 ++ (_OR, text) :: p2). split.
           { rewrite <- app_assoc. reflexivity. }
           intros r' Hr. rewrite <- app_assoc. cbn [app].
           rewrite disjunction_conds_S.
           rewrite (S1 ((_OR, text) :: p2 ++ r')) by reflexivity.
           cbn [bind]. rewrite E2. cbn [bind accept_type].
           rewrite tokentype_eqb_refl. cbn [accepted]. rewrite E4.
           rewrite (S2 r' Hr). reflexivity.
        -- inversion H; subst.
           exists (p1 ++ [(_OR, text)]). split.
           { rewrite <- app_assoc. reflexivity. }
           intros r' Hr. rewrite <- app_assoc. cbn [app].
           rewrite disjunction_conds_S.
           rewrite (S1 ((_OR, text) :: r')) by reflexivity.
           cbn [bind]. rewrite E2. cbn [bind accept_type].
           rewrite tokentype_eqb_refl. cbn [accepted]. rewrite E4. reflexivity.
      * cbn [accepted] in H. inversion H; subst.
        exists p1. split; [reflexivity|].
        intros r' Hr. rewrite disjunction_conds_S.
        rewrite (S1 r' Hr). cbn [bind]. rewrite E2. cbn [bind].
        rewrite (Hno r' Hr). reflexivity.
    + intros lx a rest H. rewrite conjunction_conds_S in H.
      destruct (choice_type [_NOT; _LPAREN; _QID; _ID] lx) as [[[typ token] lx1]| |] eqn:E1;
        cbn [bind] in H; try discriminate.
      pose proof E1 as Hch.
      apply choice_type_ret in E1 as [-> Htyp].
      match type of H with
      | bind ?m _ = _ => destruct m as [[new lxa]| |] eqn:E2
      end; cbn [bind] in H; try discriminate.
      assert (Hnew : exists p, lx1 = p ++ lxa /\
                forall r', hd_conn r' = hd_conn lxa ->
                  conjunction_conds (S f) ((typ, token) :: p ++ r') =
                  (let '(tok, lx) := accept_type _AND r' in
                   if accepted tok then
                     '(conds, lx) <- conjunction_conds f lx ;; Ret (new ++ conds, lx)
                   else Ret (new, lx))).
      { assert (Hc : forall l, choice_type [_NOT; _LPAREN; _QID; _ID] ((typ, token) :: l)
                               = Ret ((typ, token), l)).
        { intro l. unfold choice_type. rewrite Htyp. reflexivity. }
        destruct (tokentype_eqb typ _NOT) eqn:Et1;
          [|destruct (tokentype_eqb typ _LPAREN) eqn:Et2;
            [|destruct (type_in typ [_QID; _ID]) eqn:Et3]].
        - destruct (disjunction_conds f lx1) as [[ds lxd]| |] eqn:E3;
            cbn [bind] in E2; try discriminate.
          destruct (conds_result "or" ds) as [d| |] eqn:E4; cbn [bind] in E2; try discriminate.
          inversion E2; subst.
          apply IHd in E3 as (p & -> & Sd).
          exists p. split; [reflexivity|]. intros r' Hr.
          rewrite conjunction_conds_S, Hc. cbn [bind]. rewrite Et1. rewrite (Sd r' Hr).
          cbn [bind]. rewrite E4. reflexivity.
        - destruct (disjunction_conds f lx1) as [[ds lxd]| |] eqn:E3;
            cbn [bind] in E2; try discriminate.
          destruct (conds_result "or" ds) as [d| |] eqn:E4; cbn [bind] in E2; try discriminate.
          destruct (expect_type _RPAREN lxd) as [[rp lxe]| |] eqn:E5;
            cbn [bind] in E2; try discriminate.
          inversion E2; subst.
          apply expect_type_ret in E5. subst lxd.
          apply IHd in E3 as (p & -> & Sd).
          exists (p ++ [(_RPAREN, rp)]). split.
          { rewrite <- app_assoc. reflexivity. }
          intros r' Hr. rewrite <- app_assoc. cbn [app].
          rewrite conjunction_conds_S, Hc. cbn [bind]. rewrite Et1, Et2.
          rewrite (Sd ((_RPAREN, rp) :: r')) by reflexivity.
          cbn [bind]. rewrite E4. cbn [bind]. rewrite expect_type_cons. reflexivity.
        - destruct (_parse_condition_statement token lx1) as [[c lxs]| |] eqn:E3;
            cbn [bind] in E2; try discriminate.
          inversion E2; subst.
          apply stable_statement in E3 as (p & -> & Ss).
          exists p. split; [reflexivity|]. intros r' Hr.
          rewrite conjunction_conds_S, Hc. cbn [bind]. rewrite Et1, Et2. rewrite Et3.
          rewrite (Ss r' Hr). reflexivity.
        - inversion E2; subst. exists []. split; [reflexivity|].
          intros r' Hr. cbn [app].
          rewrite conjunction_conds_S, Hc. cbn [bind]. rewrite Et1, Et2. rewrite Et3.
          reflexivity. }
      destruct Hnew as (p & -> & Hstep).
      destruct (accept_type _AND lxa) as [tok lxb] eqn:E3.
      apply accept_conn in E3 as [(text & -> & ->)|(-> & -> & Hno)]; [| |auto].
      * cbn [accepted] in H. destruct (truthy text) eqn:E4.
        -- destruct (conjunction_conds f lxb) as [[conds lxc]| |] eqn:E5;
             cbn [bind] in H; try discriminate.
           inversion H; subst.
           apply IHc in E5 as (p2 & -> & S2).
           exists ((typ, token) :: p ++ (_AND, text) :: p2). split.
           { cbn [app]. rewrite <- app_assoc. reflexivity. }
           intros r' Hr. cbn [app]. rewrite <- app_assoc. cbn [app].
           rewrite Hstep by reflexivity.
           cbn [accept_type]. rewrite tokentype_eqb_refl. cbn [accepted]. rewrite E4.
           rewrite (S2 r' Hr). reflexivity.
        -- inversion H; subst.
           exists ((typ, token) :: p ++ [(_AND, text)]). split.
           { cbn [app]. rewrite <- app_assoc. reflexivity. }
           intros r' Hr. cbn [app]. rewrite <- app_assoc. cbn [app].
           rewrite Hstep by reflexivity.
           cbn [accept_type]. rewrite tokentype_eqb_refl. cbn [accepted]. rewrite E4.
           reflexivity.
      * cbn [accepted] in H. inversion H; subst.
        exists ((typ, token) :: p). split; [reflexivity|].
        intros r' Hr. cbn [app]. rewrite (Hstep r' Hr).
        rewrite (Hno r' Hr). reflexivity.
Qed.

Lemma stable_length {A : Type} (p : lexer -> outcome (A * lexer)) lx a rest :
  stable p -> p lx = Ret (a, rest) -> List.length rest <= List.length lx.
Proof.
  intros Hs H. apply Hs in H as (pre & -> & _). rewrite length_app. lia.
Qed.

Lemma accept_type_length t lx o lx' :
  accept_type t lx = (o, lx') ->
  List.length lx' <= List.length lx /\
  (o <> None -> S (List.length lx') = List.length lx).
Proof.
  unfold accept_type. destruct lx as [|[t' text] rest].
  - intro H; inversion H; subst. split; [lia|congruence].
  - destruct (tokentype_eqb t' t); intro H; inversion H; subst; simpl.
    + split; [lia|reflexivity].
    + split; [lia|congruence].
Qed.

(** More fuel does not change a result that was reached. *)
Lemma conds_fuel_mono (fuel : nat) :
  (forall lx fuel', fuel <= fuel' -> disjunction_conds fuel lx <> Fuel ->
     disjunction_conds fuel' lx = disjunction_conds fuel lx) /\
  (forall lx fuel', fuel <= fuel' -> conjunction_conds fuel lx <> Fuel ->
     conjunction_conds fuel' lx = conjunction_conds fuel lx).
Proof.
  induction fuel as [|f [IHd IHc]].
  - split; intros lx f' _ H; exfalso; apply H; reflexivity.
  - split; intros lx [|f'] Hle H; try lia; apply le_S_n in Hle.
    + rewrite (disjunction_conds_S f) in H |- *. rewrite (disjunction_conds_S f').
      destruct (conjunction_conds f lx) as [[cs lx1]| |] eqn:E1;
        [| |exfalso; apply H; reflexivity];
        rewrite (IHc lx f' Hle) by (rewrite E1; discriminate); rewrite E1;
        [|reflexivity].
      cbn [bind] in *.
      destruct (conds_result "and" cs) as [c| |]; cbn [bind] in *; try reflexivity.
      destruct (accept_type _OR lx1) as [tok lx2].
      destruct (accepted tok); [|reflexivity].
      destruct (disjunction_conds f lx2) as [[conds lx3]| |] eqn:E2;
        [| |exfalso; apply H; reflexivity];
        rewrite (IHd lx2 f' Hle) by (rewrite E2; discriminate); rewrite E2;
        reflexivity.
    + rewrite (conjunction_conds_S f) in H |- *. rewrite (conjunction_conds_S f').
      destruct (choice_type [_NOT; _LPAREN; _QID; _ID] lx) as [[[typ token] lx1]| |];
        cbn [bind] in *; try reflexivity.
      assert (Hinner :
        forall (k1 k2 : list condition * lexer -> outcome (list condition * lexer)),
          (forall x, k1 x = k2 x) ->
          bind (disjunction_conds f lx1) k1 <> Fuel ->
          bind (disjunction_conds f' lx1) k2 = bind (disjunction_conds f lx1) k1).
      { intros k1 k2 Hk Hne.
        destruct (disjunction_conds f lx1) as [x| |] eqn:E;
          [| |exfalso; apply Hne; reflexivity];
          rewrite (IHd lx1 f' Hle) by (rewrite E; discriminate); rewrite E;
          cbn [bind]; auto. }
      match type of H with
      | bind ?m ?k <> _ =>
          match goal with
          | |- bind ?m' _ = _ =>
              assert (Hm : m <> Fuel -> m' = m);
              [|destruct m as [[new lxa]| |] eqn:E2;
                [| |exfalso; apply H; reflexivity];
                rewrite Hm by discriminate; [|reflexivity]]
          end
      end.
      { destruct (tokentype_eqb typ _NOT);
          [|destruct (tokentype_eqb typ _LPAREN)]; try reflexivity;
          intro Hne; apply Hinner; auto. }
      cbn [bind] in *.
      destruct (accept_type _AND lxa) as [tok lxb].
      destruct (accepted tok); [|reflexivity].
      destruct (conjunction_conds f lxb) as [[conds lxc]| |] eqn:E3;
        [| |exfalso; apply H; reflexivity];
        rewrite (IHc lxb f' Hle) by (rewrite E3; discriminate); rewrite E3;
        reflexivity.
Qed.

Lemma choice_type_not_fuel choices lx : choice_type choices lx <> Fuel.
Proof.
  unfold choice_type. destruct lx as [|[t text] rest]; [discriminate|].
  destruct (type_in t choices); discriminate.
Qed.

Lemma expect_type_not_fuel t lx : expect_type t lx <> Fuel.
Proof.
  unfold expect_type.
  destruct (choice_type [t] lx) as [[[t' text] rest]| |] eqn:E; cbn [bind];
    try discriminate.
  exfalso. exact (choice_type_not_fuel _ _ E).
Qed.

Lemma int_not_fuel text : int text <> Fuel.
Proof.
  unfold int.
  repeat match goal with
         | |- context [match ?x with _ => _ end] => destruct x
         end; discriminate.
Qed.

Lemma statement_not_fuel column lx : _parse_condition_statement column lx <> Fuel.
Proof.
  unfold _parse_condition_statement.
  destruct (expect_type _OP lx) as [[op lx1]| |] eqn:E1; cbn [bind];
    [|discriminate|exfalso; exact (expect_type_not_fuel _ _ E1)].
  match goal with
  | |- bind ?m _ <> _ => destruct m as [[[typ text] lx2]| |] eqn:E2
  end; cbn [bind]; try discriminate.
  - destruct (tokentype_eqb typ _INT).
    + destruct (int text) eqn:E3; cbn [bind]; try discriminate.
      exfalso. exact (int_not_fuel _ E3).
    + destruct (type_in typ [_YYYYMMDD; _DDMMYY; _KWDATE]); discriminate.
  - exfalso. revert E2.
    repeat match goal with
           | |- context [if ?b then _ else _] => destruct b
           end; apply choice_type_not_fuel.
Qed.

Lemma conds_result_not_fuel op conds : conds_result op conds <> Fuel.
Proof. destruct conds as [|? [|? ?]]; discriminate. Qed.

Lemma accepted_consumed t lx tok lx' :
  accept_type t lx = (tok, lx') -> accepted tok = true ->
  S (List.length lx') = List.length lx.
Proof.
  intros H Ha. apply accept_type_length in H as [_ H]. apply H.
  destruct tok; [discriminate|discriminate Ha].
Qed.

(** With two units of fuel per token the condition parser reaches a
    result. *)
Lemma conds_total (fuel : nat) :
  (forall lx, 2 * List.length lx + 2 <= fuel -> disjunction_conds fuel lx <> Fuel) /\
  (forall lx, 2 * List.length lx + 1 <= fuel -> conjunction_conds fuel lx <> Fuel).
Proof.
  induction fuel as [|f [IHd IHc]].
  - split; intros lx H; lia.
  - split; intros lx Hf.
    + rewrite disjunction_conds_S.
      destruct (conjunction_conds f lx) as [[cs lx1]| |] eqn:E1; cbn [bind];
        [|discriminate|exfalso; apply (IHc lx); [lia|assumption]].
      apply (stable_length _ _ _ _ (proj2 (stable_conds f))) in E1.
      destruct (conds_result "and" cs) as [c| |] eqn:E2; cbn [bind]; try discriminate.
      2: exfalso; exact (conds_result_not_fuel _ _ E2).
      destruct (accept_type _OR lx1) as [tok lx2] eqn:E3.
      destruct (accepted tok) eqn:E5; [|discriminate].
      apply (accepted_consumed _ _ _ _ E3) in E5.
      destruct (disjunction_conds f lx2) as [[conds lx3]| |] eqn:E4; cbn [bind];
        try discriminate.
      exfalso. apply (IHd lx2); [lia|assumption].
    + rewrite conjunction_conds_S.
      destruct (choice_type [_NOT; _LPAREN; _QID; _ID] lx) as [[[typ token] lx1]| |] eqn:E1;
        cbn [bind]; try discriminate.
      2: exfalso; exact (choice_type_not_fuel _ _ E1).
      apply choice_type_ret in E1 as [-> _]. simpl in Hf.
      assert (Hd : disjunction_conds f lx1 <> Fuel) by (apply IHd; lia).
      match goal with
      | |- bind ?m _ <> _ => destruct m as [[new lxa]| |] eqn:E2
      end; cbn [bind]; try discriminate.
      * assert (Hlen : List.length lxa <= List.length lx1).
        { destruct (tokentype_eqb typ _NOT);
            [|destruct (tokentype_eqb typ _LPAREN);
              [|destruct (type_in typ [_QID; _ID])]].
          - destruct (disjunction_conds f lx1) as [[ds lxd]| |] eqn:E3;
              cbn [bind] in E2; try discriminate.
            apply (stable_length _ _ _ _ (proj1 (stable_conds f))) in E3.
            destruct (conds_result "or" ds); cbn [bind] in E2; try discriminate.
            inversion E2; subst. assumption.
          - destruct (disjunction_conds f lx1) as [[ds lxd]| |] eqn:E3;
              cbn [bind] in E2; try discriminate.
            apply (stable_length _ _ _ _ (proj1 (stable_conds f))) in E3.
            destruct (conds_result "or" ds); cbn [bind] in E2; try discriminate.
            destruct (expect_type _RPAREN lxd) as [[rp lxe]| |] eqn:E5;
              cbn [bind] in E2; try discriminate.
            apply expect_type_ret in E5. subst. inversion E2; subst.
            simpl in E3. lia.
          - destruct (_parse_condition_statement token lx1) as [[c lxs]| |] eqn:E3;
              cbn [bind] in E2; try discriminate.
            apply (stable_length _ _ _ _ (stable_statement token)) in E3.
            inversion E2; subst. assumption.
          - inversion E2; subst. lia. }
        destruct (accept_type _AND lxa) as [tok lxb] eqn:E3.
        destruct (accepted tok) eqn:E5; [|discriminate].
        apply (accepted_consumed _ _ _ _ E3) in E5.
        destruct (conjunction_conds f lxb) as [[conds lxc]| |] eqn:E4; cbn [bind];
          try discriminate.
        exfalso. apply (IHc lxb); [lia|assumption].
      * exfalso.
        destruct (tokentype_eqb typ _NOT);
          [|destruct (tokentype_eqb typ _LPAREN);
            [|destruct (type_in typ [_QID; _ID])]].
        -- destruct (disjunction_conds f lx1) as [[ds lxd]| |]; cbn [bind] in E2;
             try discriminate; [|apply Hd; reflexivity].
           destruct (conds_result "or" ds) as [d| |] eqn:E4; cbn [bind] in E2;
             try discriminate.
           exact (conds_result_not_fuel _ _ E4).
        -- destruct (disjunction_conds f lx1) as [[ds lxd]| |]; cbn [bind] in E2;
             try discriminate; [|apply Hd; reflexivity].
           destruct (conds_result "or" ds) as [d| |] eqn:E4; cbn [bind] in E2;
             try discriminate.
           ++ destruct (expect_type _RPAREN lxd) as [[rp lxe]| |] eqn:E5;
                cbn [bind] in E2; try discriminate.
              exact (expect_type_not_fuel _ _ E5).
           ++ exact (conds_result_not_fuel _ _ E4).
        -- destruct (_parse_condition_statement token lx1) as [[c lxs]| |] eqn:E3;
             cbn [bind] in E2; try discriminate.
           exact (statement_not_fuel _ _ E3).
        -- discriminate E2.
Qed.

Lemma raises_app pre rest e : raises rest e -> raises (pre ++ rest) e.
Proof.
  intros [H|[H1 H2]]; [left; assumption|right]. split; [assumption|].
  rewrite forallb_app, H2. apply andb_false_r.
Qed.

Lemma raises_cons tok rest e : raises rest e -> raises (tok :: rest) e.
Proof. apply (raises_app [tok]). Qed.

Lemma choice_type_raises choices lx e :
  choice_type choices lx = Raise e -> syntax_other e = true.
Proof.
  unfold choice_type. destruct lx as [|[t text] rest].
  - intro H. inversion H. reflexivity.
  - destruct (type_in t choices); intro H; inversion H. reflexivity.
Qed.

Lemma expect_type_raises t lx e :
  expect_type t lx = Raise e -> syntax_other e = true.
Proof.
  unfold expect_type.
  destruct (choice_type [t] lx) as [[[t' text] rest]| |] eqn:E; cbn [bind];
    try discriminate.
  intro H. inversion H; subst. exact (choice_type_raises _ _ _ E).
Qed.

Lemma conds_result_raises op conds e :
  conds_result op conds = Raise e -> syntax_other e = true.
Proof.
  destruct conds as [|? [|? ?]]; intro H; inversion H. reflexivity.
Qed.

Lemma int_raises text e : int text = Raise e -> is_value_error e = true.
Proof.
  unfold int.
  repeat match goal with
         | |- context [match ?x with _ => _ end] => destruct x
         end; intro H; inversion H; reflexivity.
Qed.

Lemma statement_raises column lx e :
  _parse_condition_statement column lx = Raise e -> raises lx e.
Proof.
  unfold _parse_condition_statement.
  destruct (expect_type _OP lx) as [[op lx1]| |] eqn:E1; cbn [bind]; try discriminate.
  2: { intro H; inversion H; subst. left. exact (expect_type_raises _ _ _ E1). }
  apply expect_type_ret in E1. subst lx.
  match goal with
  | |- bind ?m _ = _ -> _ => destruct m as [[[typ text] lx2]| |] eqn:E2
  end; cbn [bind]; try discriminate.
  - assert (Hlx : lx1 = (typ, text) :: lx2).
    { revert E2.
      repeat match goal with
             | |- context [if ?b then _ else _] => destruct b
             end; intro E2; apply choice_type_ret in E2; tauto. }
    subst lx1.
    destruct (tokentype_eqb typ _INT) eqn:Et.
    + destruct (int text) as [z| |] eqn:E3; cbn [bind]; try discriminate.
      intro H; inversion H; subst. right. split.
      * exact (int_raises _ _ E3).
      * cbn [forallb]. unfold wf_token at 2. cbn [fst snd]. rewrite Et, E3.
        cbn [is_ret]. rewrite andb_false_r. reflexivity.
    + destruct (type_in typ [_YYYYMMDD; _DDMMYY; _KWDATE]); discriminate.
  - intro H; inversion H; subst. left. revert E2.
    repeat match goal with
           | |- context [if ?b then _ else _] => destruct b
           end; apply choice_type_raises.
Qed.

Lemma accept_type_suffix t lx o lx' :
  accept_type t lx = (o, lx') -> exists p, lx = p ++ lx'.
Proof.
  unfold accept_type. destruct lx as [|[t' text] rest].
  - intro H; inversion H. exists []. reflexivity.
  - destruct (tokentype_eqb t' t); intro H; inversion H; subst.
    + exists [(t', text)]. reflexivity.
    + exists []. reflexivity.
Qed.

Lemma conds_raises (fuel : nat) :
  (forall lx e, disjunction_conds fuel lx = Raise e -> raises lx e) /\
  (forall lx e, conjunction_conds fuel lx = Raise e -> raises lx e).
Proof.
  induction fuel as [|f [IHd IHc]].
  - split; intros lx e H; discriminate H.
  - split; intros lx e H.
    + rewrite disjunction_conds_S in H.
      destruct (conjunction_conds f lx) as [[cs lx1]| |] eqn:E1; cbn [bind] in H;
        try discriminate.
      2: { inversion H; subst. apply IHc. assumption. }
      apply (proj2 (stable_conds f)) in E1 as (p1 & -> & _).
      destruct (conds_result "and" cs) as [c| |] eqn:E2; cbn [bind] in H;
        try discriminate.
      2: { inversion H; subst. left. exact (conds_result_raises _ _ _ E2). }
      destruct (accept_type _OR lx1) as [tok lx2] eqn:E3.
      apply accept_type_suffix in E3 as [p2 ->].
      destruct (accepted tok); [|discriminate].
      destruct (disjunction_conds f lx2) as [[conds lx3]| |] eqn:E4; cbn [bind] in H;
        try discriminate.
      inversion H; subst. apply raises_app, raises_app, IHd. assumption.
    + rewrite conjunction_conds_S in H.
      destruct (choice_type [_NOT; _LPAREN; _QID; _ID] lx) as [[[typ token] lx1]| |] eqn:E1;
        cbn [bind] in H; try discriminate.
      2: { inversion H; subst. left. exact (choice_type_raises _ _ _ E1). }
      apply choice_type_ret in E1 as [-> _]. apply raises_cons.
      match type of H with
      | bind ?m _ = _ => destruct m as [[new lxa]| |] eqn:E2
      end; cbn [bind] in H; try discriminate.
      * assert (Hsuf : exists p, lx1 = p ++ lxa).
        { destruct (tokentype_eqb typ _NOT);
            [|destruct (tokentype_eqb typ _LPAREN);
              [|destruct (type_in typ [_QID; _ID])]].
          - destruct (disjunction_conds f lx1) as [[ds lxd]| |] eqn:E3;
              cbn [bind] in E2; try discriminate.
            apply (proj1 (stable_conds f)) in E3 as (p & -> & _).
            destruct (conds_result "or" ds); cbn [bind] in E2; try discriminate.
            inversion E2; subst. eauto.
          - destruct (disjunction_conds f lx1) as [[ds lxd]| |] eqn:E3;
              cbn [bind] in E2; try discriminate.
            apply (proj1 (stable_conds f)) in E3 as (p & -> & _).
            destruct (conds_result "or" ds); cbn [bind] in E2; try discriminate.
            destruct (expect_type _RPAREN lxd) as [[rp lxe]| |] eqn:E5;
              cbn [bind] in E2; try discriminate.
            apply expect_type_ret in E5. subst. inversion E2; subst.
            exists (p ++ [(_RPAREN, rp)]). rewrite <- app_assoc. reflexivity.
          - destruct (_parse_condition_statement token lx1) as [[c lxs]| |] eqn:E3;
              cbn [bind] in E2; try discriminate.
            apply stable_statement in E3 as (p & -> & _).
            inversion E2; subst. eauto.
          - inversion E2; subst. exists []. reflexivity. }
        destruct Hsuf as [p ->]. apply raises_app.
        destruct (accept_type _AND lxa) as [tok lxb] eqn:E3.
        apply accept_type_suffix in E3 as [p2 ->]. apply raises_app.
        destruct (accepted tok); [|discriminate].
        destruct (conjunction_conds f lxb) as [[conds lxc]| |] eqn:E4; cbn [bind] in H;
          try discriminate.
        inversion H; subst. apply IHc. assumption.
      * inversion H; subst.
        destruct (tokentype_eqb typ _NOT);
          [|destruct (tokentype_eqb typ _LPAREN);
            [|destruct (type_in typ [_QID; _ID])]].
        -- destruct (disjunction_conds f lx1) as [[ds lxd]| |] eqn:E3;
             cbn [bind] in E2; try discriminate.
           ++ destruct (conds_result "or" ds) as [d| |] eqn:E4; cbn [bind] in E2;
                try discriminate.
              inversion E2; subst. left. exact (conds_result_raises _ _ _ E4).
           ++ inversion E2; subst. apply IHd. assumption.
        -- destruct (disjunction_conds f lx1) as [[ds lxd]| |] eqn:E3;
             cbn [bind] in E2; try discriminate.
           ++ destruct (conds_result "or" ds) as [d| |] eqn:E4; cbn [bind] in E2;
                try discriminate.
              ** destruct (expect_type _RPAREN lxd) as [[rp lxe]| |] eqn:E5;
                   cbn [bind] in E2; try discriminate.
                 inversion E2; subst. left. exact (expect_type_raises _ _ _ E5).
              ** inversion E2; subst. left. exact (conds_result_raises _ _ _ E4).
           ++ inversion E2; subst. apply IHd. assumption.
        -- destruct (_parse_condition_statement token lx1) as [[c lxs]| |] eqn:E3;
             cbn [bind] in E2; try discriminate.
           inversion E2; subst. exact (statement_raises _ _ _ E3).
        -- discriminate E2.
Qed.

(** *** The disjunction parser and the where loop *)

Lemma stable_disjunction fuel : stable (_parse_condition_disjunction fuel).
Proof.
  intros lx a rest H. unfold _parse_condition_disjunction in *.
  destruct (disjunction_conds fuel lx) as [[conds lx1]| |] eqn:E1; cbn [bind] in H;
    try discriminate.
  destruct (conds_result "or" conds) as [c| |] eqn:E2; cbn [bind] in H;
    try discriminate.
  inversion H; subst.
  apply (proj1 (stable_conds fuel)) in E1 as (p & -> & Hs).
  exists p. split; [reflexivity|]. intros r' Hr.
  rewrite (Hs r' Hr). cbn [bind]. rewrite E2. reflexivity.
Qed.

Lemma disjunction_fuel_mono fuel fuel' lx :
  fuel <= fuel' -> _parse_condition_disjunction fuel lx <> Fuel ->
  _parse_condition_disjunction fuel' lx = _parse_condition_disjunction fuel lx.
Proof.
  intros Hle H. unfold _parse_condition_disjunction in *.
  destruct (disjunction_conds fuel lx) as [x| |] eqn:E;
    [| |exfalso; apply H; reflexivity];
    rewrite (proj1 (conds_fuel_mono fuel) lx fuel' Hle) by (rewrite E; discriminate);
    rewrite E; reflexivity.
Qed.

Lemma disjunction_total fuel lx :
  2 * List.length lx + 2 <= fuel -> _parse_condition_disjunction fuel lx <> Fuel.
Proof.
  intro Hf. unfold _parse_condition_disjunction.
  destruct (disjunction_conds fuel lx) as [[conds lx1]| |] eqn:E1; cbn [bind];
    try discriminate.
  - destruct (conds_result "or" conds) eqn:E2; cbn [bind]; try discriminate.
    exfalso. exact (conds_result_not_fuel _ _ E2).
  - exfalso. exact (proj1 (conds_total fuel) lx Hf E1).
Qed.

Lemma disjunction_raises fuel lx e :
  _parse_condition_disjunction fuel lx = Raise e -> raises lx e.
Proof.
  unfold _parse_condition_disjunction.
  destruct (disjunction_conds fuel lx) as [[conds lx1]| |] eqn:E1; cbn [bind];
    try discriminate.
  - destruct (conds_result "or" conds) eqn:E2; cbn [bind]; try discriminate.
    intro H; inversion H; subst. left. exact (conds_result_raises _ _ _ E2).
  - intro H; inversion H; subst. exact (proj1 (conds_raises fuel) _ _ E1).
Qed.

Lemma where_conditions_S fuel lx :
  where_conditions (S fuel) lx =
  (let '(tok, lx) := accept_type _WHERE lx in
   if accepted tok then
     '(c, lx) <- _parse_condition_disjunction fuel lx ;;
     '(conditions, lx) <- where_conditions fuel lx ;;
     Ret (c :: conditions, lx)
   else Ret ([], lx)).
Proof. reflexivity. Qed.

Lemma where_conditions_suffix fuel lx conditions rest :
  where_conditions fuel lx = Ret (conditions, rest) -> exists p, lx = p ++ rest.
Proof.
  revert lx conditions rest. induction fuel as [|f IH]; intros lx cs rest H.
  - discriminate H.
  - rewrite where_conditions_S in H.
    destruct (accept_type _WHERE lx) as [tok lx1] eqn:E1.
    apply accept_type_suffix in E1 as [p1 ->].
    destruct (accepted tok).
    + destruct (_parse_condition_disjunction f lx1) as [[c lx2]| |] eqn:E2;
        cbn [bind] in H; try discriminate.
      apply stable_disjunction in E2 as (p2 & -> & _).
      destruct (where_conditions f lx2) as [[cs' lx3]| |] eqn:E3; cbn [bind] in H;
        try discriminate.
      inversion H; subst. apply IH in E3 as [p3 ->].
      exists (p1 ++ p2 ++ p3). rewrite <- !app_assoc. reflexivity.
    + inversion H; subst. eauto.
Qed.

Lemma where_conditions_total fuel lx :
  2 * List.length lx + 1 <= fuel -> where_conditions fuel lx <> Fuel.
Proof.
  revert lx. induction fuel as [|f IH]; intros lx Hf; [lia|].
  rewrite where_conditions_S.
  destruct (accept_type _WHERE lx) as [tok lx1] eqn:E1.
  destruct (accepted tok) eqn:E2; [|discriminate].
  apply (accepted_consumed _ _ _ _ E1) in E2.
  destruct (_parse_condition_disjunction f lx1) as [[c lx2]| |] eqn:E3; cbn [bind];
    try discriminate.
  - apply (stable_length _ _ _ _ (stable_disjunction f)) in E3.
    destruct (where_conditions f lx2) as [[cs' lx3]| |] eqn:E4; cbn [bind];
      try discriminate.
    exfalso. apply (IH lx2); [lia|assumption].
  - exfalso. apply (disjunction_total f lx1); [lia|assumption].
Qed.

Lemma where_conditions_raises fuel lx e :
  where_conditions fuel lx = Raise e -> raises lx e.
Proof.
  revert lx. induction fuel as [|f IH]; intros lx H; [discriminate H|].
  rewrite where_conditions_S in H.
  destruct (accept_type _WHERE lx) as [tok lx1] eqn:E1.
  apply accept_type_suffix in E1 as [p1 ->]. apply raises_app.
  destruct (accepted tok); [|discriminate].
  destruct (_parse_condition_disjunction f lx1) as [[c lx2]| |] eqn:E3; cbn [bind] in H;
    try discriminate.
  - apply stable_disjunction in E3 as (p2 & -> & _). apply raises_app.
    destruct (where_conditions f lx2) as [[cs' lx3]| |] eqn:E4; cbn [bind] in H;
      try discriminate.
    inversion H; subst. apply IH. assumption.
  - inversion H; subst. exact (disjunction_raises _ _ _ E3).
Qed.

Lemma where_conditions_fuel_mono fuel fuel' lx :
  fuel <= fuel' -> where_conditions fuel lx <> Fuel ->
  where_conditions fuel' lx = where_conditions fuel lx.
Proof.
  revert fuel' lx. induction fuel as [|f IH]; intros [|f'] lx Hle H;
    try lia; try (exfalso; apply H; reflexivity).
  apply le_S_n in Hle. rewrite (where_conditions_S f) in H |- *.
  rewrite (where_conditions_S f').
  destruct (accept_type _WHERE lx) as [tok lx1].
  destruct (accepted tok); [|reflexivity].
  destruct (_parse_condition_disjunction f lx1) as [[c lx2]| |] eqn:E3;
    [| |exfalso; apply H; reflexivity];
    rewrite (disjunction_fuel_mono f f' lx1 Hle) by (rewrite E3; discriminate);
    rewrite E3; [|reflexivity].
  cbn [bind] in *.
  destruct (where_conditions f lx2) as [[cs' lx3]| |] eqn:E4;
    [| |exfalso; apply H; reflexivity];
    rewrite (IH f' lx2 Hle) by (rewrite E4; discriminate); rewrite E4; reflexivity.
Qed.

(** *** The projection and from loops *)

Lemma projection_columns_total fuel col_id lx :
  match col_id with Some _ => List.length lx + 2 | None => 1 end <= fuel ->
  projection_columns fuel col_id lx <> Fuel.
Proof.
  revert col_id lx. induction fuel as [|f IH]; intros col lx Hf.
  - destruct col; lia.
  - cbn [projection_columns]. destruct col as [text|]; [|discriminate].
    destruct (truthy text); [|discriminate].
    destruct (accept_type _QID lx) as [q lx1] eqn:E1.
    pose proof (accept_type_length _ _ _ _ E1) as [Hl1 Hc1].
    destruct (accepted q) eqn:Eq.
    + apply (accepted_consumed _ _ _ _ E1) in Eq.
      destruct (projection_columns f q lx1) as [[cols lx2]| |] eqn:E2; cbn [bind];
        try discriminate.
      exfalso. apply (IH q lx1); [destruct q; lia|assumption].
    + destruct (accept_type _ID lx1) as [next lx2] eqn:E2.
      pose proof (accept_type_length _ _ _ _ E2) as [Hl2 Hc2].
      destruct (projection_columns f next lx2) as [[cols lx3]| |] eqn:E3; cbn [bind];
        try discriminate.
      exfalso. apply (IH next lx2); [|assumption].
      destruct next; [|lia]. assert (S (List.length lx2) = List.length lx1).
      { apply Hc2. discriminate. }
      lia.
Qed.

Lemma from_relations_total fuel relation lx :
  match relation with Some _ => List.length lx + 2 | None => 1 end <= fuel ->
  from_relations fuel relation lx <> Fuel.
Proof.
  revert relation lx. induction fuel as [|f IH]; intros rel lx Hf.
  - destruct rel; lia.
  - cbn [from_relations]. destruct rel as [text|]; [|discriminate].
    destruct (truthy text); [|discriminate].
    destruct (accept_type _ID lx) as [next lx1] eqn:E1.
    pose proof (accept_type_length _ _ _ _ E1) as [Hl1 Hc1].
    destruct (from_relations f next lx1) as [[rels lx2]| |] eqn:E2; cbn [bind];
      try discriminate.
    exfalso. apply (IH next lx1); [|assumption].
    destruct next; [|lia]. assert (S (List.length lx1) = List.length lx).
    { apply Hc1. discriminate. }
    lia.
Qed.

Lemma from_relations_ret fuel relation lx rels rest :
  from_relations fuel relation lx = Ret (rels, rest) ->
  (exists p, lx = p ++ rest) /\
  (accepted relation = true -> truthy_list rels = true).
Proof.
  revert relation lx rels rest. induction fuel as [|f IH]; intros rel lx rels rest H.
  - discriminate H.
  - cbn [from_relations] in H. destruct rel as [text|].
    + cbn [accepted]. destruct (truthy text).
      * destruct (accept_type _ID lx) as [next lx1] eqn:E1.
        apply accept_type_suffix in E1 as [p1 ->].
        destruct (from_relations f next lx1) as [[rels' lx2]| |] eqn:E2;
          cbn [bind] in H; try discriminate.
        inversion H; subst. apply IH in E2 as [[p2 ->] _]. split; [|reflexivity].
        exists (p1 ++ p2). rewrite <- app_assoc. reflexivity.
      * inversion H; subst. split; [exists []; reflexivity|discriminate].
    + inversion H; subst. split; [exists []; reflexivity|discriminate].
Qed.

Lemma from_relations_raises fuel relation lx e :
  from_relations fuel relation lx = Raise e -> False.
Proof.
  revert relation lx. induction fuel as [|f IH]; intros rel lx H.
  - discriminate H.
  - cbn [from_relations] in H. destruct rel as [text|]; [|discriminate].
    destruct (truthy text); [|discriminate].
    destruct (accept_type _ID lx) as [next lx1].
    destruct (from_relations f next lx1) as [[rels' lx2]| |] eqn:E2;
      cbn [bind] in H; try discriminate.
    inversion H; subst. exact (IH _ _ E2).
Qed.

(** * Properties of the lexer *)

Lemma string_app_assoc (a b c : string) : ((a ++ b) ++ c)%string = (a ++ (b ++ c))%string.
Proof. induction a as [|x a IH]; simpl; [reflexivity|rewrite IH; reflexivity]. Qed.

Lemma string_length_app (a b : string) :
  String.length (a ++ b) = String.length a + String.length b.
Proof. induction a as [|x a IH]; simpl; [reflexivity|rewrite IH; reflexivity]. Qed.

Lemma substring_prefix (w rest : string) :
  substring 0 (String.length w) (w ++ rest) = w.
Proof.
  induction w as [|c w IH]; simpl.
  - destruct rest; reflexivity.
  - rewrite IH. reflexivity.
Qed.

Lemma consumed_app (w rest : string) : consumed (w ++ rest) rest = w.
Proof.
  unfold consumed. rewrite string_length_app.
  replace (String.length w + String.length rest - String.length rest)
    with (String.length w) by lia.
  apply substring_prefix.
Qed.

Lemma strip_prefix_app p s s' : strip_prefix p s = Some s' -> s = (p ++ s')%string.
Proof.
  revert s. induction p as [|a p IH]; intros s H; simpl in H.
  - inversion H. reflexivity.
  - destruct s as [|b s]; [discriminate|].
    destruct (Ascii.eqb_spec a b); [|discriminate]. subst.
    simpl. rewrite (IH _ H). reflexivity.
Qed.

Lemma star_matches_sound r step :
  (forall x y, In y (step x) ->
     exists w, snd x = (w ++ snd y)%string /\ lang r w /\
               (has_group r = false -> fst y = fst x)) ->
  forall fuel x y, In y (star_matches step fuel x) ->
    exists w, snd x = (w ++ snd y)%string /\ lang (Star r) w /\
              (has_group r = false -> fst y = fst x).
Proof.
  intros Hstep fuel. induction fuel as [|f IH]; intros x y Hin; simpl in Hin.
  - destruct Hin as [<-|[]]. exists EmptyString. repeat split. constructor.
  - apply in_app_or in Hin as [Hin|[<-|[]]].
    + apply in_flat_map in Hin as (z & Hz & Hy).
      destruct (String.length (snd z) <? String.length (snd x))%nat; [|destruct Hy].
      apply Hstep in Hz as (w1 & E1 & L1 & G1).
      apply IH in Hy as (w2 & E2 & L2 & G2).
      exists (w1 ++ w2)%string. repeat split.
      * rewrite E1, E2. symmetry. apply string_app_assoc.
      * constructor; assumption.
      * intro Hg. rewrite G2, G1; auto.
    + exists EmptyString. repeat split. constructor.
Qed.

(** Every match of a pattern consumed a text of its language. *)
Lemma rmatch_sound r :
  forall x y, In y (rmatch r x) ->
    exists w, snd x = (w ++ snd y)%string /\ lang r w /\
              (has_group r = false -> fst y = fst x).
Proof.
  induction r as [|p|t|r1 IH1 r2 IH2|r1 IH1 r2 IH2|r IH|r IH|r IH];
    intros x y Hin; simpl in Hin.
  - destruct Hin as [<-|[]]. exists EmptyString. repeat split. constructor.
  - destruct (snd x) as [|c s'] eqn:Es; [destruct Hin|].
    destruct (p c) eqn:Ep; [|destruct Hin].
    destruct Hin as [<-|[]]. exists (String c EmptyString). repeat split.
    constructor. assumption.
  - destruct (strip_prefix t (snd x)) as [s'|] eqn:Es; [|destruct Hin].
    destruct Hin as [<-|[]]. exists t. repeat split.
    + apply strip_prefix_app. assumption.
    + constructor.
  - apply in_flat_map in Hin as (z & Hz & Hy).
    apply IH1 in Hz as (w1 & E1 & L1 & G1).
    apply IH2 in Hy as (w2 & E2 & L2 & G2).
    exists (w1 ++ w2)%string. repeat split.
    + rewrite E1, E2. symmetry. apply string_app_assoc.
    + constructor; assumption.
    + simpl. intro Hg. apply orb_false_iff in Hg as [Hg1 Hg2].
      rewrite G2, G1; auto.
  - apply in_app_or in Hin as [Hin|Hin].
    + apply IH1 in Hin as (w & E & L & G). exists w. repeat split; auto.
      * apply lang_Alt_l. assumption.
      * simpl. intro Hg. apply orb_false_iff in Hg as [Hg1 Hg2]. auto.
    + apply IH2 in Hin as (w & E & L & G). exists w. repeat split; auto.
      * apply lang_Alt_r. assumption.
      * simpl. intro Hg. apply orb_false_iff in Hg as [Hg1 Hg2]. auto.
  - apply in_app_or in Hin as [Hin|[<-|[]]].
    + apply IH in Hin as (w & E & L & G). exists w. repeat split; auto.
      apply lang_Opt_some. assumption.
    + exists EmptyString. repeat split. constructor.
  - exact (star_matches_sound r (rmatch r) IH _ x y Hin).
  - apply in_map_iff in Hin as (z & <- & Hz).
    apply IH in Hz as (w & E & L & G). exists w. repeat split; auto.
    + constructor. assumption.
    + simpl. discriminate.
Qed.

Lemma rule_match_sound r s text rest :
  rule_match r s = Some (text, rest) ->
  exists w, s = (w ++ rest)%string /\ lang r w /\ (has_group r = false -> text = w).
Proof.
  unfold rule_match.
  destruct (rmatch r (None, s)) as [|[cap rest'] l] eqn:E; [discriminate|].
  intro H. inversion H; subst.
  destruct (rmatch_sound r (None, s) (cap, rest)) as (w & E1 & L & G).
  { rewrite E. left. reflexivity. }
  simpl in E1, G. exists w. repeat split; auto.
  intro Hg. rewrite (G Hg). subst s. apply consumed_app.
Qed.

Lemma best_match_in rules s tok rest :
  best_match rules s = Some (tok, rest) ->
  exists r, In (r, fst tok) rules /\ rule_match r s = Some (snd tok, rest).
Proof.
  revert tok rest. induction rules as [|[r t] rules IH]; intros tok rest H.
  - discriminate H.
  - simpl in H.
    assert (Hlater : best_match rules s = Some (tok, rest) ->
                     exists r0, In (r0, fst tok) ((r, t) :: rules) /\
                                rule_match r0 s = Some (snd tok, rest)).
    { intro H'. apply IH in H' as (r0 & Hin & Hm). exists r0. split; [right|]; auto. }
    destruct (rule_match r s) as [[text rest1]|] eqn:E1; [|auto].
    destruct (best_match rules s) as [[tok' rest']|] eqn:E2.
    + destruct (String.length rest' <? String.length rest1)%nat; [auto|].
      inversion H; subst. exists r. split; [left; reflexivity|assumption].
    + inversion H; subst. exists r. split; [left; reflexivity|assumption].
Qed.

Lemma lang_star_all p w : lang (Star (Cls p)) w -> all_chars p w = true.
Proof.
  remember (Star (Cls p)) as r eqn:Hr. intro H.
  induction H; try discriminate Hr.
  - reflexivity.
  - inversion Hr; subst.
    match goal with
    | Hc : lang (Cls _) _ |- _ => inversion Hc as [|? ? Hp| | | | | | | | |]; subst
    end.
    simpl. rewrite Hp. apply IHlang2. reflexivity.
Qed.

Lemma digits_value_all acc s :
  all_chars is_digit s = true -> exists z, digits_value acc s = Some z.
Proof.
  revert acc. induction s as [|c s IH]; intros acc H; simpl in *.
  - eauto.
  - apply andb_true_iff in H as [Hc Hs]. rewrite Hc. apply IH. assumption.
Qed.

Lemma int_digits c s :
  is_digit c = true -> all_chars is_digit s = true ->
  is_ret (int (String c s)) = true.
Proof.
  intros Hc Hs.
  destruct (digits_value_all 0 (String c s)) as [z Hz].
  { simpl. rewrite Hc, Hs. reflexivity. }
  unfold int.
  destruct c as [[] [] [] [] [] [] [] []]; try discriminate Hc; rewrite Hz; reflexivity.
Qed.

Lemma int_signed c d s :
  (Ascii.eqb c "+" || Ascii.eqb c "-") = true ->
  is_digit d = true -> all_chars is_digit s = true ->
  is_ret (int (String c (String d s))) = true.
Proof.
  intros Hc Hd Hs.
  destruct (digits_value_all 0 (String d s)) as [z Hz].
  { simpl. rewrite Hd, Hs. reflexivity. }
  unfold int.
  apply orb_true_iff in Hc as [Hc|Hc]; apply Ascii.eqb_eq in Hc; subst c;
    rewrite Hz; reflexivity.
Qed.

Lemma lang_int w : lang int_regex w -> is_ret (int w) = true.
Proof.
  unfold int_regex, Plus. intro H.
  inversion H as [| | |r1 r2 w1 w2 H1 H2| | | | | | |]; subst.
  inversion H2 as [| | |r1 r2 w3 w4 H3 H4| | | | | | |]; subst.
  inversion H3 as [|? d Hd| | | | | | | | |]; subst. apply lang_star_all in H4.
  inversion H1 as [| | | | | |r|r w H5| | |]; subst.
  - simpl. apply int_digits; assumption.
  - inversion H5 as [|? c Hc| | | | | | | | |]; subst. simpl.
    apply int_signed; assumption.
Qed.

Lemma best_match_lexed s tok rest :
  best_match tokens s = Some (tok, rest) -> lexed_token tok = true.
Proof.
  intro H. apply best_match_in in H as (r & Hin & Hm).
  destruct tok as [t text]. cbn [fst snd] in *.
  apply rule_match_sound in Hm as (w & _ & L & G).
  unfold tokens in Hin. cbn [In] in Hin.
  repeat (destruct Hin as [Hin|Hin];
          [inversion Hin; subst r t; clear Hin; try reflexivity|]);
    [| | |destruct Hin].
  - rewrite (G eq_refl). inversion L; subst. reflexivity.
  - rewrite (G eq_refl). unfold lexed_token, wf_token. cbn [fst snd tokentype_eqb type_in].
    rewrite (lang_int w L). reflexivity.
  - rewrite (G eq_refl). unfold _id in L.
    inversion L as [| | |r1 r2 w1 w2 H1 H2| | | | | | |]; subst.
    inversion H1; subst. reflexivity.
Qed.

Lemma lex_line_lexed fuel s : forallb lexed_token (lex_line fuel s) = true.
Proof.
  revert s. induction fuel as [|f IH]; intro s; [reflexivity|].
  cbn [lex_line]. destruct s as [|c s']; [reflexivity|].
  destruct (best_match tokens (String c s')) as [[tok rest]|] eqn:E; [|apply IH].
  destruct (String.length rest <? String.length (String c s'))%nat; [|apply IH].
  cbn [forallb]. rewrite (best_match_lexed _ _ _ E), IH. reflexivity.
Qed.

(** The tokens of the lexer are well formed. *)
Lemma lex_lexed lines : forallb lexed_token (lex lines) = true.
Proof.
  unfold lex. induction lines as [|l lines IH]; [reflexivity|].
  cbn [flat_map]. rewrite forallb_app, lex_line_lexed, IH. reflexivity.
Qed.

(** * The parser: the properties claimed *)

(** C3. The where clause [i-id = 10 or i-id = 20 and i-input ~ "[Dd]og"]
    and the clause with the conjunction in parentheses parse to the same
    condition, the disjunction of the first comparison and of the
    conjunction of the other two: conjunction binds tighter. *)
Theorem where_conjunction_binds_tighter :
  let ast :=
    BoolOp "or"
      [Cmp "==" "i-id" (VInt 10);
       BoolOp "and"
         [Cmp "==" "i-id" (VInt 20); Cmp "~" "i-input" (VStr "[Dd]og")]] in
  parse_where where_plain = Ret (Some ast, [tok_dot]) /\
  parse_where where_grouped = Ret (Some ast, [tok_dot]).
Proof. split; vm_compute; reflexivity. Qed.

(** C8. After a comparison operator the parser accepts exactly the
    literal types allowed for it: any other token type is a syntax error,
    and an allowed literal gives the comparison, [=] normalised to [==]. *)
Theorem statement_literal_types column op typ text rest :
  In op operators ->
  let r := _parse_condition_statement column ((_OP, op) :: (typ, text) :: rest) in
  (type_in typ (allowed_literal_types op) = false -> is_syntax_error r = true) /\
  (type_in typ (allowed_literal_types op) = true ->
   wf_token (typ, text) = true ->
   exists val, r = Ret (Cmp (if String.eqb op "=" then "==" else op) column val, rest)).
Proof.
  intros Hop r. subst r. unfold operators in Hop.
  repeat (destruct Hop as [Hop|Hop]; [subst op|]); [..|destruct Hop];
    destruct typ; cbn; split; intros;
    try discriminate; try reflexivity; try (eexists; reflexivity);
    destruct (int text); try discriminate; eexists; reflexivity.
Qed.

Lemma statement_literal_types_witness :
  In "<" operators /\
  exists val,
    _parse_condition_statement "i-length" [(_OP, "<"); (_INT, "4"); tok_dot]
    = Ret (Cmp "<" "i-length" val, [tok_dot]).
Proof.
  split; [right; right; left; reflexivity|].
  apply (statement_literal_types "i-length" "<" _INT "4" [tok_dot]);
    [right; right; left; reflexivity|reflexivity|reflexivity].
Defined.

Lemma syntax_other_is_syntax {A : Type} e :
  syntax_other e = true -> is_syntax_error (@Raise A e) = true.
Proof. destruct e; simpl; intro H; try discriminate; reflexivity. Qed.

Lemma syntax_other_not_star e : syntax_other e = true -> e <> star_requires_from.
Proof. intros H ->. discriminate H. Qed.

Lemma raises_not_star lx e : raises lx e -> e <> star_requires_from.
Proof.
  intros [H|[H _]]; [apply syntax_other_not_star; assumption|].
  intros ->. discriminate H.
Qed.

Lemma raises_wf lx e :
  forallb wf_token lx = true -> raises lx e -> syntax_other e = true.
Proof. intros Hwf [H|[_ H]]; [assumption|congruence]. Qed.

Lemma lexed_wf lx : forallb lexed_token lx = true -> forallb wf_token lx = true.
Proof.
  induction lx as [|tok lx IH]; [reflexivity|]. cbn [forallb].
  intro H. apply andb_true_iff in H as [H1 H2].
  unfold lexed_token in H1. apply andb_true_iff in H1 as [H1 _].
  rewrite H1, (IH H2). reflexivity.
Qed.

(** A wildcard projection followed by anything but [from] is a syntax
    error, whatever follows. *)
Lemma parse_select_star_no_from fuel ts :
  2 * List.length ts + 1 <= fuel ->
  forallb wf_token ts = true ->
  hd_type ts <> Some _FROM ->
  is_syntax_error (parse_select_lexer fuel ((_STAR, "*") :: ts)) = true.
Proof.
  intros Hf Hwf Hhd. unfold parse_select_lexer, _parse_select_projection.
  cbn [choice_type type_in tokentype_eqb bind].
  assert (Hacc : accept_type _FROM ts = (None, ts)).
  { unfold accept_type. destruct ts as [|[t text] ts']; [reflexivity|].
    destruct (tokentype_eqb t _FROM) eqn:E; [|reflexivity].
    apply tokentype_eqb_eq in E. subst. exfalso. apply Hhd. reflexivity. }
  unfold _parse_select_from. rewrite Hacc. cbn [accepted bind].
  unfold _parse_select_where.
  destruct (where_conditions fuel ts) as [[conditions lx1]| |] eqn:E1; cbn [bind].
  - assert (Hfin : forall c : option condition,
              is_syntax_error
                ('(_, lx) <- expect_type _DOT lx1 ;;
                 if list_eqb ["*"] ["*"] && negb (truthy_list (@nil string))
                 then Raise star_requires_from
                 else Ret (mk_queryobj "select" ["*"] [] c)) = true).
    { intro c. destruct (expect_type _DOT lx1) as [[d lx2]| |] eqn:E2; cbn [bind].
      - reflexivity.
      - apply syntax_other_is_syntax. exact (expect_type_raises _ _ _ E2).
      - exfalso. exact (expect_type_not_fuel _ _ E2). }
    destruct conditions as [|c [|c' cs]]; cbn [bind]; apply Hfin.
  - apply syntax_other_is_syntax. apply (raises_wf ts); [assumption|].
    exact (where_conditions_raises _ _ _ E1).
  - exfalso. exact (where_conditions_total fuel ts Hf E1).
Qed.

(** A wildcard projection with a named relation does not raise the error
    of the wildcard check. *)
Lemma parse_select_star_from fuel f rel ts :
  truthy f = true -> truthy rel = true ->
  parse_select_lexer fuel ((_STAR, "*") :: (_FROM, f) :: (_ID, rel) :: ts)
  <> Raise star_requires_from.
Proof.
  intros Hf Hrel. unfold parse_select_lexer, _parse_select_projection.
  cbn [choice_type type_in tokentype_eqb bind].
  unfold _parse_select_from. cbn [accept_type tokentype_eqb accepted].
  rewrite Hf, expect_type_cons. cbn [bind].
  destruct (from_relations fuel (Some rel) ts) as [[rels lx1]| |] eqn:E1; cbn [bind];
    [|exfalso; exact (from_relations_raises _ _ _ _ E1)|discriminate].
  apply from_relations_ret in E1 as [_ Hne]. specialize (Hne Hrel).
  unfold _parse_select_where.
  destruct (where_conditions fuel lx1) as [[conditions lx2]| |] eqn:E2; cbn [bind];
    [| |discriminate].
  - assert (Hfin : forall c : option condition,
              ('(_, lx) <- expect_type _DOT lx2 ;;
               if list_eqb ["*"] ["*"] && negb (truthy_list rels)
               then Raise star_requires_from
               else Ret (mk_queryobj "select" ["*"] rels c))
              <> Raise star_requires_from).
    { intro c. destruct (expect_type _DOT lx2) as [[d lx3]| |] eqn:E3; cbn [bind].
      - rewrite Hne. cbn. discriminate.
      - intro H. inversion H; subst.
        apply expect_type_raises in E3. discriminate E3.
      - discriminate. }
    destruct conditions as [|c [|c' cs]]; cbn [bind]; apply Hfin.
  - intro H. inversion H; subst.
    exact (raises_not_star _ _ (where_conditions_raises _ _ _ E2) eq_refl).
Qed.

(** C7. A query whose projection is the wildcard and that has no from
    clause is a syntax error; with a relation named after [from] the
    error of the wildcard check is not raised. *)
Theorem parse_select_wildcard_requires_from (querystring : string) :
  let lx := lex (splitlines (querystring ++ ".")%string) in
  (forall ts,
     lx = (_STAR, "*") :: ts -> hd_type ts <> Some _FROM ->
     is_syntax_error (_parse_select querystring) = true) /\
  (forall f rel ts,
     lx = (_STAR, "*") :: (_FROM, f) :: (_ID, rel) :: ts ->
     _parse_select querystring <> Raise star_requires_from).
Proof.
  intro lx.
  pose proof (lex_lexed (splitlines (querystring ++ ".")%string)) as Hlexed.
  fold lx in Hlexed. unfold _parse_select. fold lx. split.
  - intros ts Hlx Hhd. rewrite Hlx in *.
    apply parse_select_star_no_from.
    + unfold parser_fuel. cbn [List.length]. lia.
    + apply lexed_wf in Hlexed. cbn [forallb] in Hlexed.
      apply andb_true_iff in Hlexed as [_ H]. exact H.
    + assumption.
  - intros f rel ts Hlx. rewrite Hlx in *.
    cbn [forallb] in Hlexed.
    apply andb_true_iff in Hlexed as [_ H].
    apply andb_true_iff in H as [Hf H].
    apply andb_true_iff in H as [Hrel _].
    apply parse_select_star_from.
    + unfold lexed_token in Hf. apply andb_true_iff in Hf as [_ Hf]. exact Hf.
    + unfold lexed_token in Hrel. apply andb_true_iff in Hrel as [_ Hrel]. exact Hrel.
Qed.

Lemma parse_select_wildcard_requires_from_witness :
  is_syntax_error (_parse_select "* where i-id = 10") = true /\
  _parse_select "* from item" <> Raise star_requires_from.
Proof.
  split.
  - apply (proj1 (parse_select_wildcard_requires_from "* where i-id = 10")
             [(_WHERE, "where"); (_ID, "i-id"); (_OP, "="); (_INT, "10"); tok_dot]).
    + vm_compute. reflexivity.
    + discriminate.
  - apply (proj2 (parse_select_wildcard_requires_from "* from item")
             "from" "item" [tok_dot]).
    vm_compute. reflexivity.
Defined.

(** *** Where clauses as conjuncts *)

(** A condition body that parses up to the sentinel parses the same, with
    any fuel that covers it, before any token that is not a connective. *)
Lemma disjunction_conds_body fuel0 fuel body conds rest :
  disjunction_conds fuel0 (body ++ [tok_dot]) = Ret (conds, [tok_dot]) ->
  2 * List.length body + 4 <= fuel ->
  hd_conn rest = None ->
  disjunction_conds fuel (body ++ rest) = Ret (conds, rest).
Proof.
  intros H Hf Hr.
  assert (H' : disjunction_conds fuel (body ++ [tok_dot]) = Ret (conds, [tok_dot])).
  { assert (Ht : disjunction_conds fuel (body ++ [tok_dot]) <> Fuel).
    { apply (proj1 (conds_total fuel)). rewrite length_app. simpl. lia. }
    destruct (Nat.le_ge_cases fuel0 fuel) as [Hle|Hle].
    - rewrite (proj1 (conds_fuel_mono fuel0) _ _ Hle) by (rewrite H; discriminate).
      exact H.
    - rewrite <- (proj1 (conds_fuel_mono fuel) _ _ Hle Ht). exact H. }
  apply (proj1 (stable_conds fuel)) in H' as (pre & Hpre & Hs).
  apply app_inv_tail in Hpre. subst pre. apply Hs. rewrite Hr. reflexivity.
Qed.

Lemma disjunction_body fuel0 fuel body c rest :
  _parse_condition_disjunction fuel0 (body ++ [tok_dot]) = Ret (c, [tok_dot]) ->
  2 * List.length body + 4 <= fuel ->
  hd_conn rest = None ->
  _parse_condition_disjunction fuel (body ++ rest) = Ret (c, rest) /\
  exists conds,
    disjunction_conds fuel (body ++ rest) = Ret (conds, rest) /\
    conds_result "or" conds = Ret c.
Proof.
  intros H Hf Hr. unfold _parse_condition_disjunction in *.
  destruct (disjunction_conds fuel0 (body ++ [tok_dot])) as [[conds lx1]| |] eqn:E1;
    cbn [bind] in H; try discriminate.
  destruct (conds_result "or" conds) as [c'| |] eqn:E2; cbn [bind] in H;
    try discriminate.
  inversion H; subst.
  rewrite (disjunction_conds_body _ fuel _ _ rest E1 Hf Hr). cbn [bind].
  rewrite E2. split; [reflexivity|]. exists conds. split; [reflexivity|exact E2].
Qed.

Lemma where_conditions_two fuel0 fuel1 fuel A B cA cB :
  _parse_condition_disjunction fuel0 (A ++ [tok_dot]) = Ret (cA, [tok_dot]) ->
  _parse_condition_disjunction fuel1 (B ++ [tok_dot]) = Ret (cB, [tok_dot]) ->
  2 * (List.length A + List.length B) + 7 <= fuel ->
  where_conditions fuel (tok_where :: A ++ tok_where :: B ++ [tok_dot])
  = Ret ([cA; cB], [tok_dot]).
Proof.
  intros HA HB Hf.
  destruct fuel as [|f1]; [lia|]. destruct f1 as [|f2]; [lia|].
  destruct f2 as [|f3]; [lia|].
  rewrite where_conditions_S. cbn [tok_where accept_type tokentype_eqb accepted truthy].
  fold tok_where.
  destruct (disjunction_body _ (S (S f3)) _ _ (tok_where :: B ++ [tok_dot]) HA)
    as [-> _]; [lia|reflexivity|].
  cbn [bind]. rewrite where_conditions_S.
  cbn [tok_where accept_type tokentype_eqb accepted truthy].
  destruct (disjunction_body _ (S f3) _ _ [tok_dot] HB) as [-> _];
    [lia|reflexivity|].
  cbn [bind]. rewrite where_conditions_S. reflexivity.
Qed.

Lemma conjunction_conds_group fuel0 fuel body c rest :
  _parse_condition_disjunction fuel0 (body ++ [tok_dot]) = Ret (c, [tok_dot]) ->
  2 * List.length body + 4 <= fuel ->
  hd_conn rest = None ->
  conjunction_conds (S fuel) (tok_lparen :: body ++ tok_rparen :: rest)
  = Ret ([c], rest) /\
  forall more lx,
    conjunction_conds fuel lx = Ret (more, rest) ->
    conjunction_conds (S fuel) (tok_lparen :: body ++ tok_rparen :: tok_and :: lx)
    = Ret (c :: more, rest).
Proof.
  intros H Hf Hr.
  destruct (disjunction_body _ fuel _ _ (tok_rparen :: rest) H Hf eq_refl)
    as [_ (conds & E1 & E2)].
  destruct (disjunction_body _ fuel _ _ (tok_rparen :: tok_and :: rest) H Hf eq_refl)
    as [_ (conds' & E1' & E2')].
  split.
  - rewrite conjunction_conds_S.
    cbn [tok_lparen choice_type type_in tokentype_eqb bind].
    rewrite E1. cbn [bind]. rewrite E2. cbn [bind].
    unfold tok_rparen at 1. rewrite expect_type_cons. cbn [bind].
    destruct rest as [|[t text] rest']; [reflexivity|].
    cbn [accept_type]. simpl in Hr.
    destruct t; try discriminate Hr; reflexivity.
  - intros more lx Hmore. rewrite conjunction_conds_S.
    cbn [tok_lparen choice_type type_in tokentype_eqb bind].
    destruct (disjunction_body _ fuel _ _ (tok_rparen :: tok_and :: lx) H Hf eq_refl)
      as [_ (conds2 & E3 & E4)].
    rewrite E3. cbn [bind]. rewrite E4. cbn [bind].
    unfold tok_rparen at 1. rewrite expect_type_cons. cbn [bind].
    cbn [tok_and accept_type tokentype_eqb accepted truthy].
    rewrite Hmore. reflexivity.
Qed.

Lemma where_conditions_one fuel0 fuel1 fuel A B cA cB :
  _parse_condition_disjunction fuel0 (A ++ [tok_dot]) = Ret (cA, [tok_dot]) ->
  _parse_condition_disjunction fuel1 (B ++ [tok_dot]) = Ret (cB, [tok_dot]) ->
  2 * (List.length A + List.length B) + 9 <= fuel ->
  where_conditions fuel
    (tok_where :: tok_lparen :: A ++ tok_rparen :: tok_and
       :: tok_lparen :: B ++ [tok_rparen; tok_dot])
  = Ret ([BoolOp "and" [cA; cB]], [tok_dot]).
Proof.
  intros HA HB Hf.
  destruct fuel as [|f1]; [lia|]. destruct f1 as [|f2]; [lia|].
  destruct f2 as [|f3]; [lia|]. destruct f3 as [|f4]; [lia|].
  rewrite where_conditions_S. cbn [tok_where accept_type tokentype_eqb accepted truthy].
  unfold _parse_condition_disjunction. rewrite disjunction_conds_S.
  destruct (conjunction_conds_group _ f4 _ _ [tok_dot] HB) as [HB' _];
    [lia|reflexivity|].
  destruct (conjunction_conds_group _ (S f4) _ _ [tok_dot] HA) as [_ HA'];
    [lia|reflexivity|].
  change (B ++ [tok_rparen; tok_dot]) with (B ++ tok_rparen :: [tok_dot]).
  rewrite (HA' _ _ HB'). cbn [bind conds_result accept_type tok_dot tokentype_eqb accepted].
  rewrite where_conditions_S. reflexivity.
Qed.

(** C4, as the parser has it.  When [A] and [B] are condition bodies
    (each parses as a disjunction up to the end of the query), the two
    clauses [where A where B] parse to the conjunction of the two
    conditions, the same tree as the single clause [where (A) and (B)]. *)
Theorem where_clauses_conjoin fuel0 fuel1 A B cA cB :
  _parse_condition_disjunction fuel0 (A ++ [tok_dot]) = Ret (cA, [tok_dot]) ->
  _parse_condition_disjunction fuel1 (B ++ [tok_dot]) = Ret (cB, [tok_dot]) ->
  let two := tok_where :: A ++ tok_where :: B ++ [tok_dot] in
  let one := tok_where :: tok_lparen :: A ++ tok_rparen :: tok_and
               :: tok_lparen :: B ++ [tok_rparen; tok_dot] in
  _parse_select_where (parser_fuel two) two
  = Ret (Some (BoolOp "and" [cA; cB]), [tok_dot]) /\
  _parse_select_where (parser_fuel one) one
  = Ret (Some (BoolOp "and" [cA; cB]), [tok_dot]).
Proof.
  intros HA HB two one. unfold _parse_select_where. split.
  - rewrite (where_conditions_two _ _ _ _ _ _ _ HA HB); [reflexivity|].
    unfold parser_fuel, two. cbn [List.length]. rewrite !length_app.
    cbn [List.length]. rewrite !length_app. cbn [List.length]. lia.
  - rewrite (where_conditions_one _ _ _ _ _ _ _ HA HB); [reflexivity|].
    unfold parser_fuel, one. cbn [List.length]. rewrite !length_app.
    cbn [List.length]. rewrite !length_app. cbn [List.length]. lia.
Qed.

(** * Properties of the resolver *)

Lemma rpartition_no_dot s : contains_dot s = false -> rpartition s = (EmptyString, s).
Proof.
  induction s as [|c s IH]; intro H; [reflexivity|].
  simpl in *. destruct (Ascii.eqb c dot); [discriminate|].
  rewrite H, (IH H). reflexivity.
Qed.

Lemma dict_get_setdefault_append {V : Type} k c (x : V) d :
  dict_get k (setdefault_append c x d) =
  if String.eqb k c
  then Some (match dict_get k d with Some l => l ++ [x] | None => [x] end)
  else dict_get k d.
Proof.
  induction d as [|[k' l] d IH]; simpl.
  - destruct (String.eqb k c); reflexivity.
  - destruct (String.eqb_spec c k') as [->|Hck]; simpl.
    + destruct (String.eqb k k'); reflexivity.
    + destruct (String.eqb_spec k k') as [->|Hkk].
      * destruct (String.eqb_spec k' c) as [->|_]; [congruence|reflexivity].
      * exact IH.
Qed.

(** The values filed under [k] by a run of [setdefault] and [append]
    over pairs. *)
Lemma dict_get_collect (k : string) (pairs : list (string * string)) m :
  dict_get k (fold_left (fun m '(c, r) => setdefault_append c r m) pairs m) =
  let vals := map snd (filter (fun p => String.eqb k (fst p)) pairs) in
  match dict_get k m with
  | Some l => Some (l ++ vals)
  | None => match vals with [] => None | _ => Some vals end
  end.
Proof.
  revert m. induction pairs as [|[c r] pairs IH]; intro m; cbn [fold_left filter map].
  - cbn. destruct (dict_get k m); [rewrite app_nil_r|]; reflexivity.
  - rewrite IH, dict_get_setdefault_append. cbn [fst].
    destruct (String.eqb k c); cbn [map snd].
    + destruct (dict_get k m); cbn; [rewrite <- app_assoc|]; reflexivity.
    + reflexivity.
Qed.

Lemma dict_get_map {V W : Type} (f : V -> W) k (d : pydict V) :
  dict_get k (map (fun '(c, v) => (c, f v)) d) = option_map f (dict_get k d).
Proof.
  induction d as [|[c v] d IH]; simpl; [reflexivity|].
  destruct (String.eqb k c); [reflexivity|exact IH].
Qed.

Lemma schema_map_get db relations col :
  dict_get col (_make_schema_map db relations) =
  match map snd (filter (fun p => String.eqb col (fst p)) (schema_fields db)) with
  | [] => None
  | rels => Some (prefer relations rels)
  end.
Proof.
  unfold _make_schema_map. rewrite dict_get_map, dict_get_collect. cbn.
  destruct (map snd _); reflexivity.
Qed.

(** The candidates of a column, relation by relation. *)
Lemma candidates_schema col (sch : pydict (list Field)) (p : string -> bool) :
  hd_error
    (filter p
       (map snd
          (filter (fun q => String.eqb col (fst q))
             (flat_map (fun '(relname, fields) => map (fun f => (name f, relname)) fields)
                       sch)))) =
  match find (fun '(rel, fields) => p rel && has_field col fields) sch with
  | Some (rel, _) => Some rel
  | None => None
  end.
Proof.
  induction sch as [|[rel fields] sch IH]; [reflexivity|].
  cbn [flat_map find]. rewrite filter_app, map_app, filter_app.
  assert (Hrel : filter p (map snd (filter (fun q => String.eqb col (fst q))
                    (map (fun f => (name f, rel)) fields))) =
                 if p rel && has_field col fields
                 then rel :: filter p (map snd (filter (fun q => String.eqb col (fst q))
                    (map (fun f => (name f, rel)) (tl (filter (fun f => String.eqb (name f) col) fields)))))
                 else []).
  { induction fields as [|f fields IHf]; cbn.
    - rewrite andb_false_r. reflexivity.
    - rewrite String.eqb_sym. destruct (String.eqb (name f) col) eqn:E; cbn.
      + destruct (p rel) eqn:Ep; cbn.
        * f_equal. clear IHf. induction fields as [|g fields IHg]; cbn; [reflexivity|].
          rewrite (String.eqb_sym col). destruct (String.eqb (name g) col) eqn:Eg; cbn.
          -- rewrite (String.eqb_sym col), Eg. cbn. rewrite Ep. f_equal. exact IHg.
          -- exact IHg.
        * clear IHf. induction fields as [|g fields IHg]; cbn; [reflexivity|].
          destruct (String.eqb col (name g)); cbn; [rewrite Ep|]; exact IHg.
      + rewrite IHf. destruct (p rel); reflexivity. }
  rewrite Hrel. destruct (p rel && has_field col fields); [reflexivity|exact IH].
Qed.

Lemma filter_none_negb {A : Type} (p : A -> bool) l :
  filter p l = [] -> filter (fun x => negb (p x)) l = l.
Proof.
  induction l as [|x l IH]; [reflexivity|]. cbn.
  destruct (p x); [discriminate|]. intro H. cbn. rewrite (IH H). reflexivity.
Qed.

Lemma filter_all {A : Type} (l : list A) : filter (fun _ => true) l = l.
Proof. induction l as [|x l IH]; [reflexivity|]. cbn. rewrite IH. reflexivity. Qed.

Lemma first_relation_none db p col :
  (forall rel fields, In (rel, fields) (schema db) -> has_field col fields = false) ->
  first_relation db p col = None.
Proof.
  intro H. unfold first_relation.
  destruct (find _ (schema db)) as [[rel fields]|] eqn:E; [|reflexivity].
  apply find_some in E as [Hin Hp]. rewrite (H _ _ Hin), andb_false_r in Hp.
  discriminate Hp.
Qed.

(** The resolver on a name without a qualifier. *)
Lemma resolver_first_relation db relations colname :
  contains_dot colname = false ->
  _make_qname_resolver (_make_schema_map db relations) colname =
  match first_relation db (fun r => mem r relations) colname with
  | Some r => Ret (qualify r colname)
  | None =>
      match first_relation db (fun _ => true) colname with
      | Some r => Ret (qualify r colname)
      | None => Raise (undefined_column colname)
      end
  end.
Proof.
  intro Hdot. unfold _make_qname_resolver, first_relation.
  rewrite (rpartition_no_dot _ Hdot). cbn [truthy].
  rewrite schema_map_get.
  rewrite <- !(candidates_schema colname (schema db)).
  fold (schema_fields db).
  set (cands := map snd (filter (fun p => String.eqb colname (fst p)) (schema_fields db))).
  rewrite filter_all.
  destruct cands as [|c cands'] eqn:Ec; [reflexivity|].
  rewrite <- Ec. unfold prefer.
  destruct (filter (fun r => mem r relations) cands) as [|r rs] eqn:E.
  - rewrite (filter_none_negb _ _ E). rewrite Ec. reflexivity.
  - reflexivity.
Qed.

(** C6. An unqualified column name that no relation of the schema has as
    a field is an undefined column; otherwise it is qualified with the
    first relation, in schema order, among those named in the from clause
    that have the field, and with the first relation that has it when no
    named relation does. *)
Theorem resolve_unqualified db relations colname :
  contains_dot colname = false ->
  let resolve := _make_qname_resolver (_make_schema_map db relations) in
  ((forall rel fields, In (rel, fields) (schema db) -> has_field colname fields = false) ->
   resolve colname = Raise (undefined_column colname)) /\
  resolve colname =
  match first_relation db (fun r => mem r relations) colname with
  | Some r => Ret (qualify r colname)
  | None =>
      match first_relation db (fun _ => true) colname with
      | Some r => Ret (qualify r colname)
      | None => Raise (undefined_column colname)
      end
  end.
Proof.
  intros Hdot resolve. split; [|apply resolver_first_relation, Hdot].
  intro Hnone. unfold resolve.
  rewrite (resolver_first_relation _ _ _ Hdot), !first_relation_none by assumption.
  reflexivity.
Qed.

Lemma resolve_unqualified_witness :
  contains_dot "b" = false /\
  _make_qname_resolver (_make_schema_map db123 ["R1"; "R3"]) "b" = Ret "R3.b".
Proof.
  split; [reflexivity|].
  exact (proj2 (resolve_unqualified db123 ["R1"; "R3"] "b" eq_refl)).
Defined.

(** * Sets and dictionaries *)

Lemma mem_In x l : mem x l = true <-> In x l.
Proof.
  induction l as [|y l IH]; simpl.
  - split; [discriminate|tauto].
  - destruct (String.eqb_spec x y) as [->|Hne].
    + split; auto.
    + rewrite IH. split; [auto|]. intros [H|H]; [congruence|assumption].
Qed.

Lemma mem_not_In x l : mem x l = false <-> ~ In x l.
Proof.
  rewrite <- mem_In. destruct (mem x l); split; congruence.
Qed.

Lemma set_add_In y x s : In y (set_add x s) <-> y = x \/ In y s.
Proof.
  unfold set_add. destruct (mem x s) eqn:E.
  - apply mem_In in E. split; [auto|]. intros [->|H]; assumption.
  - rewrite in_app_iff. simpl. split; [intros [H|[H|[]]]|intros [H|H]]; auto.
Qed.

Lemma set_add_NoDup x s : NoDup s -> NoDup (set_add x s).
Proof.
  intro H. unfold set_add. destruct (mem x s) eqn:E; [assumption|].
  apply mem_not_In in E. apply NoDup_app; [assumption|repeat constructor; tauto|].
  intros y Hy [<-|[]]. contradiction.
Qed.

Lemma set_update_In y s xs : In y (set_update s xs) <-> In y s \/ In y xs.
Proof.
  unfold set_update. revert s. induction xs as [|x xs IH]; intro s; cbn [fold_left].
  - simpl. tauto.
  - rewrite IH, set_add_In. simpl. split; [intros [[H|H]|H]|intros [H|[H|H]]]; auto.
Qed.

Lemma set_update_NoDup s xs : NoDup s -> NoDup (set_update s xs).
Proof.
  unfold set_update. revert s. induction xs as [|x xs IH]; intros s H; cbn [fold_left].
  - assumption.
  - apply IH, set_add_NoDup, H.
Qed.

Lemma keys_setdefault_append {V : Type} k (x : V) (d : pydict (list V)) :
  map fst (setdefault_append k x d) = set_add k (map fst d).
Proof.
  unfold set_add. induction d as [|[k' l] d IH]; cbn; [reflexivity|].
  destruct (String.eqb k k'); cbn; [reflexivity|].
  rewrite IH. destruct (mem k (map fst d)); reflexivity.
Qed.

Lemma dict_get_None_keys {V : Type} k (d : pydict V) :
  dict_get k d = None <-> ~ In k (map fst d).
Proof.
  induction d as [|[k' v] d IH]; simpl; [tauto|].
  destruct (String.eqb_spec k k') as [->|Hne].
  - split; [discriminate|]. intro H. exfalso. auto.
  - rewrite IH. split; [intros H [E|Hin]; [congruence|auto]|tauto].
Qed.

Lemma keymap_get db rel :
  dict_get rel (_make_keymap db) =
  option_map (fun fields => map name (filter is_key fields)) (dict_get rel (schema db)).
Proof. unfold _make_keymap. apply dict_get_map. Qed.

Lemma keymap_keys db : map fst (_make_keymap db) = map fst (schema db).
Proof.
  unfold _make_keymap. induction (schema db) as [|[rel fields] sch IH]; cbn;
    [reflexivity|rewrite IH; reflexivity].
Qed.

(** * Properties of the planner *)

Lemma requested_relset qnames :
  forall joinmap added relset joinmap' added' relset',
    requested qnames joinmap added relset = (joinmap', added', relset') ->
    (forall q, In q added -> In (fst (rpartition q)) relset) ->
    (forall r, In r relset -> In r relset') /\
    (forall q, In q qnames -> In (fst (rpartition q)) relset').
Proof.
  induction qnames as [|q qnames IH]; intros jm added relset jm' added' relset' H Hinv.
  - inversion H; subst. split; [auto|intros q []].
  - cbn [requested] in H. destruct (mem q added) eqn:E.
    + destruct (IH _ _ _ _ _ _ H Hinv) as [H1 H2]. split; [exact H1|].
      intros q' [<-|Hq']; [|auto]. apply H1, Hinv, mem_In, E.
    + destruct (rpartition q) as [rel col] eqn:Eq.
      apply IH in H as [H1 H2].
      * split.
        -- intros r Hr. apply H1, set_add_In. auto.
        -- intros q' [<-|Hq']; [|auto]. rewrite Eq. apply H1, set_add_In. auto.
      * intros q' Hq'. apply set_add_In in Hq' as [->|Hq'].
        -- rewrite Eq. apply set_add_In. auto.
        -- apply set_add_In. right. auto.
Qed.

Lemma key_graph_missing keymap order :
  forall nodes edges,
    (exists r, In r order /\ dict_get r keymap = None) ->
    exists k, key_graph keymap order nodes edges = Raise (KeyError k).
Proof.
  induction order as [|rel order IH]; intros nodes edges (r & Hin & Hr).
  - destruct Hin.
  - cbn [key_graph]. unfold dict_lookup.
    destruct (dict_get rel keymap) as [keys|] eqn:E; cbn [bind].
    + apply IH. exists r. split; [|assumption].
      destruct Hin as [->|Hin]; [congruence|assumption].
    + eauto.
Qed.

(** C10. A column name with a relation qualifier is returned by the
    resolver as it is, whatever the schema; when the schema has no such
    relation the planner then fails with a [KeyError], not with an
    engine error. *)
Theorem qualified_name_unchecked set_iter db relations projection condition_fields colname :
  (forall l, Permutation (set_iter l) l) ->
  truthy (fst (rpartition colname)) = true ->
  dict_get (fst (rpartition colname)) (schema db) = None ->
  _make_qname_resolver (_make_schema_map db relations) colname = Ret colname /\
  (In colname (projection ++ condition_fields) ->
   exists k,
     _plan_joins set_iter projection condition_fields relations db = Raise (KeyError k)).
Proof.
  intros Hperm Hrel Hnone. split.
  - unfold _make_qname_resolver. destruct (rpartition colname) as [rel col].
    cbn [fst] in Hrel. rewrite Hrel. reflexivity.
  - intro Hin. unfold _plan_joins.
    destruct (requested (projection ++ condition_fields) [] [] (set_update [] relations))
      as [[joinmap added] relset] eqn:E.
    apply requested_relset in E as [_ E]; [|intros q []].
    specialize (E _ Hin).
    unfold _pivot_relations, pivot_relations_in.
    destruct (key_graph_missing (_make_keymap db) (set_iter relset) [] []) as [k Hk].
    { exists (fst (rpartition colname)). split.
      - apply (Permutation_in _ (Permutation_sym (Hperm relset))). exact E.
      - rewrite keymap_get, Hnone. reflexivity. }
    exists k. rewrite Hk. reflexivity.
Qed.

Lemma qualified_name_unchecked_witness :
  _make_qname_resolver (_make_schema_map db13 ["R1"]) "R9.y" = Ret "R9.y" /\
  exists k, _plan_joins (fun l => l) ["R1.x"; "R9.y"] [] ["R1"] db13 = Raise (KeyError k).
Proof.
  destruct (qualified_name_unchecked (fun l => l) db13 ["R1"] ["R1.x"; "R9.y"] [] "R9.y")
    as [H1 H2].
  - intro l. apply Permutation_refl.
  - reflexivity.
  - reflexivity.
  - split; [exact H1|]. apply H2. right. left. reflexivity.
Defined.

(** *** Termination of the two loops *)

Lemma filter_length_lt {A : Type} (p q : A -> bool) (a : A) l :
  (forall x, q x = true -> p x = true) ->
  In a l -> p a = true -> q a = false ->
  List.length (filter q l) < List.length (filter p l).
Proof.
  intros Hqp Hin Hpa Hqa.
  assert (Hle : forall l', List.length (filter q l') <= List.length (filter p l')).
  { induction l' as [|x l' IH]; cbn; [lia|].
    destruct (q x) eqn:Eq; [rewrite (Hqp _ Eq); cbn; lia|].
    destruct (p x); cbn; lia. }
  induction l as [|x l IH]; [destruct Hin|]. cbn.
  destruct Hin as [->|Hin].
  - rewrite Hpa, Hqa. cbn. specialize (Hle l). lia.
  - specialize (IH Hin). destruct (q x) eqn:Eq; [rewrite (Hqp _ Eq); cbn; lia|].
    destruct (p x); cbn; lia.
Qed.

Lemma filter_length_le {A : Type} (p : A -> bool) l :
  List.length (filter p l) <= List.length l.
Proof.
  induction l as [|x l IH]; cbn; [lia|]. destruct (p x); cbn; lia.
Qed.

(** Every iteration of the pivot loop leaves one relation less to
    choose from. *)
Lemma pivot_loop_total fuel :
  forall keymap relset nodes edges pivots components,
    List.length
      (filter (fun '(rel, _) => negb (mem rel (set_update relset pivots))) keymap)
    < fuel ->
    pivot_loop fuel keymap relset nodes edges pivots components <> Fuel.
Proof.
  induction fuel as [|f IH]; intros keymap relset nodes edges pivots components Hf;
    [lia|].
  cbn [pivot_loop]. destruct (1 <? List.length components); [|discriminate].
  destruct (find_pivot keymap (set_update relset pivots) components)
    as [[rel keys]|] eqn:E; [|discriminate].
  apply IH. unfold find_pivot in E. apply find_some in E as [Hin Hp].
  apply andb_true_iff in Hp as [Hp _]. apply andb_true_iff in Hp as [Hp _].
  eapply Nat.lt_le_trans; [|apply PeanoNat.lt_n_Sm_le; exact Hf].
  apply (filter_length_lt _ _ (rel, keys)).
  - intros [r ks] Hq. apply negb_true_iff in Hq. apply negb_true_iff.
    apply mem_not_In. apply mem_not_In in Hq. intro Hr. apply Hq.
    apply set_update_In. apply set_update_In in Hr as [Hr|Hr]; [auto|].
    right. apply set_add_In. auto.
  - exact Hin.
  - exact Hp.
  - apply negb_false_iff, mem_In, set_update_In. right.
    apply set_add_In. auto.
Qed.

Lemma dict_pop_length {V : Type} k (d : pydict V) :
  In k (map fst d) -> S (List.length (dict_pop k d)) = List.length d.
Proof.
  induction d as [|[k' v] d IH]; cbn; [intros []|].
  destruct (String.eqb_spec k k') as [->|Hne]; [reflexivity|].
  intros [E|Hin]; [congruence|]. cbn. rewrite (IH Hin). reflexivity.
Qed.

Lemma join_order_total fuel :
  forall keymap joinmap joined_keys joins,
    List.length joinmap <= fuel ->
    join_order fuel keymap joinmap joined_keys joins <> Fuel.
Proof.
  induction fuel as [|f IH]; intros keymap joinmap joined_keys joins Hf.
  - destruct joinmap; [discriminate|cbn in Hf; lia].
  - cbn [join_order]. destruct joinmap as [|entry joinmap']; [discriminate|].
    destruct (find _ (entry :: joinmap')) as [[rel cols]|] eqn:E; [|discriminate].
    apply find_some in E as [Hin _].
    unfold dict_lookup. destruct (dict_get rel keymap); cbn [bind]; [|discriminate].
    apply IH.
    assert (Hk : In rel (map fst (entry :: joinmap'))).
    { apply in_map_iff. exists (rel, cols). auto. }
    apply dict_pop_length in Hk. lia.
Qed.

Lemma key_graph_not_fuel keymap order :
  forall nodes edges, key_graph keymap order nodes edges <> Fuel.
Proof.
  induction order as [|rel order IH]; intros nodes edges; cbn [key_graph];
    [discriminate|].
  unfold dict_lookup. destruct (dict_get rel keymap); cbn [bind];
    [apply IH|discriminate].
Qed.

Lemma requested_keys qnames :
  forall joinmap added relset joinmap' added' relset',
    requested qnames joinmap added relset = (joinmap', added', relset') ->
    NoDup (map fst joinmap) -> incl (map fst joinmap) relset ->
    NoDup (map fst joinmap') /\ incl (map fst joinmap') relset'.
Proof.
  induction qnames as [|q qnames IH]; intros jm added relset jm' added' relset' H Hnd Hincl.
  - inversion H; subst. auto.
  - cbn [requested] in H. destruct (mem q added); [eauto|].
    destruct (rpartition q) as [rel col].
    apply IH in H; [exact H| |].
    + rewrite keys_setdefault_append. apply set_add_NoDup, Hnd.
    + rewrite keys_setdefault_append. intros k Hk.
      apply set_add_In in Hk as [->|Hk]; apply set_add_In; auto.
Qed.

Lemma add_keys_keys relation fields added :
  forall joinmap,
    NoDup (map fst joinmap) ->
    NoDup (map fst (add_keys relation fields added joinmap)) /\
    forall k, In k (map fst (add_keys relation fields added joinmap)) ->
              k = relation \/ In k (map fst joinmap).
Proof.
  unfold add_keys. induction fields as [|f fields IH]; intros jm Hnd; cbn [fold_left].
  - auto.
  - destruct (is_key f && negb (mem (qualify relation (name f)) added)).
    + destruct (IH (setdefault_append relation (name f) jm)) as [H1 H2].
      { rewrite keys_setdefault_append. apply set_add_NoDup, Hnd. }
      split; [exact H1|]. intros k Hk. apply H2 in Hk as [Hk|Hk]; [auto|].
      rewrite keys_setdefault_append in Hk. apply set_add_In in Hk. exact Hk.
    + apply IH, Hnd.
Qed.

Lemma always_add_keys_ret db order added :
  forall joinmap joinmap',
    always_add_keys db order added joinmap = Ret joinmap' ->
    NoDup (map fst joinmap) ->
    NoDup (map fst joinmap') /\
    (forall k, In k (map fst joinmap') -> In k order \/ In k (map fst joinmap)) /\
    (forall r, In r order -> In r (map fst (schema db))).
Proof.
  induction order as [|rel order IH]; intros jm jm' H Hnd; cbn [always_add_keys] in H.
  - inversion H; subst. repeat split; auto. intros r [].
  - unfold dict_lookup in H.
    destruct (dict_get rel (schema db)) as [fields|] eqn:E; cbn [bind] in H;
      [|discriminate].
    destruct (add_keys_keys rel fields added jm Hnd) as [Hnd' Hk'].
    apply IH in H as (H1 & H2 & H3); [|exact Hnd'].
    repeat split; [exact H1| |].
    + intros k Hk. apply H2 in Hk as [Hk|Hk]; [left; right; exact Hk|].
      apply Hk' in Hk as [->|Hk]; [left; left; reflexivity|right; exact Hk].
    + intros r [<-|Hr]; [|auto].
      destruct (in_dec string_dec rel (map fst (schema db))) as [Hin|Hnin]; [exact Hin|].
      apply dict_get_None_keys in Hnin. congruence.
Qed.

Lemma always_add_keys_not_fuel db order added :
  forall joinmap, always_add_keys db order added joinmap <> Fuel.
Proof.
  induction order as [|rel order IH]; intro jm; cbn [always_add_keys]; [discriminate|].
  unfold dict_lookup. destruct (dict_get rel (schema db)); cbn [bind];
    [apply IH|discriminate].
Qed.

Lemma plan_joins_not_fuel set_iter projection condition_fields relations db :
  (forall l, Permutation (set_iter l) l) ->
  _plan_joins set_iter projection condition_fields relations db <> Fuel.
Proof.
  intro Hperm. unfold _plan_joins.
  destruct (requested (projection ++ condition_fields) [] [] (set_update [] relations))
    as [[joinmap added] relset] eqn:E.
  apply requested_keys in E as [Hnd Hincl]; [|constructor|intros k []].
  unfold _pivot_relations, pivot_relations_in, order_joins.
  destruct (key_graph (_make_keymap db) (set_iter relset) [] []) as [[nodes edges]| |] eqn:E1;
    cbn [bind]; [|discriminate|exfalso; exact (key_graph_not_fuel _ _ _ _ E1)].
  destruct (pivot_loop _ _ _ _ _ _ _) as [pivots| |] eqn:E2; cbn [bind];
    [|discriminate|].
  2: { exfalso. revert E2. apply pivot_loop_total.
       apply Nat.lt_succ_r. apply filter_length_le. }
  destruct (always_add_keys db _ added joinmap) as [joinmap'| |] eqn:E3; cbn [bind];
    [|discriminate|exfalso; exact (always_add_keys_not_fuel _ _ _ _ E3)].
  apply always_add_keys_ret in E3 as (Hnd' & Hk & Hsch); [|exact Hnd].
  apply join_order_total.
  rewrite <- (length_map fst joinmap'), <- (length_map fst (schema db)).
  apply NoDup_incl_length; [exact Hnd'|].
  intros k Hin. apply Hsch. apply Hk in Hin as [Hin|Hin]; [exact Hin|].
  apply (Permutation_in _ (Permutation_sym (Hperm _))).
  apply set_update_In. left. apply Hincl, Hin.
Qed.

(** C9. The two loops of the planner end within a number of iterations
    bounded by the number of relations: the pivot loop, run with more
    fuel than the key map has relations, and the join loop, run with as
    much fuel as entries are pending, never exhaust it; so planning, which
    runs them with one unit more than, and with as many units as, the
    schema has relations, always returns or raises. *)
Theorem planner_loops_terminate :
  (forall fuel keymap relset nodes edges pivots components,
     List.length keymap < fuel ->
     pivot_loop fuel keymap relset nodes edges pivots components <> Fuel) /\
  (forall fuel keymap joinmap joined_keys joins,
     List.length joinmap <= fuel ->
     join_order fuel keymap joinmap joined_keys joins <> Fuel) /\
  (forall set_iter projection condition_fields relations db,
     (forall l, Permutation (set_iter l) l) ->
     _plan_joins set_iter projection condition_fields relations db <> Fuel).
Proof.
  repeat split.
  - intros fuel keymap relset nodes edges pivots components Hf.
    apply pivot_loop_total. eapply Nat.le_lt_trans; [apply filter_length_le|exact Hf].
  - intros fuel keymap joinmap joined_keys joins. apply join_order_total.
  - intros set_iter projection condition_fields relations db.
    apply plan_joins_not_fuel.
Qed.

Lemma planner_loops_terminate_witness :
  pivot_loop 4 (_make_keymap db123) ["R1"; "R3"] ["a"; "b"] [] [] [["a"]; ["b"]] <> Fuel /\
  join_order 1 (_make_keymap db123) [("R1", ["a"])] [] [] <> Fuel /\
  _plan_joins (fun l => l) ["R1.x"; "R3.y"] [] [] db123 <> Fuel.
Proof.
  destruct planner_loops_terminate as (H1 & H2 & H3). repeat split.
  - apply H1. cbn. lia.
  - apply H2. cbn. lia.
  - apply H3. intro l. apply Permutation_refl.
Defined.

(** *** Enumerations *)

Lemma seqs_complete universe d :
  forall n, NoDup d -> incl d universe -> List.length d <= n -> In d (seqs n universe).
Proof.
  induction d as [|x d IH]; intros n Hnd Hincl Hlen.
  - destruct n; left; reflexivity.
  - destruct n as [|n]; [cbn in Hlen; lia|]. cbn [seqs]. right.
    apply in_flat_map. exists x. split; [apply Hincl; left; reflexivity|].
    apply in_map. apply filter_In. inversion Hnd; subst. split.
    + apply IH; [assumption| |cbn in Hlen; lia].
      intros y Hy. apply Hincl. right. exact Hy.
    + apply negb_true_iff, mem_not_In. assumption.
Qed.

Lemma dedup_from_spec xs :
  forall seen,
    NoDup (dedup_from seen xs) /\
    (forall x, In x (dedup_from seen xs) <-> In x xs /\ ~ In x seen).
Proof.
  induction xs as [|x xs IH]; intro seen; cbn [dedup_from].
  - split; [constructor|]. intro y. simpl. tauto.
  - destruct (mem x seen) eqn:E.
    + destruct (IH seen) as [H1 H2]. split; [exact H1|].
      intro y. rewrite H2. apply mem_In in E. simpl. split.
      * tauto.
      * intros [[<-|Hy] Hn]; [contradiction|tauto].
    + destruct (IH (seen ++ [x])) as [H1 H2]. apply mem_not_In in E. split.
      * constructor; [|exact H1]. rewrite H2. intros [_ Hn]. apply Hn.
        apply in_or_app. right. left. reflexivity.
      * intro y. simpl. rewrite H2, in_app_iff. simpl. split.
        -- intros [<-|[Hy Hn]]; [tauto|]. split; [tauto|]. tauto.
        -- intros [[<-|Hy] Hn]; [tauto|].
           destruct (string_dec x y) as [->|Hne]; [tauto|]. right. split; [assumption|].
           intros [H|[H|[]]]; tauto.
Qed.

Lemma set_update_dedup xs : forall s, set_update s xs = s ++ dedup_from s xs.
Proof.
  unfold set_update. induction xs as [|x xs IH]; intro s; cbn [fold_left dedup_from].
  - rewrite app_nil_r. reflexivity.
  - rewrite IH. unfold set_add. destruct (mem x s); [reflexivity|].
    rewrite <- app_assoc. reflexivity.
Qed.

Lemma requested_dedup qnames :
  forall joinmap added relset,
    requested qnames joinmap added relset =
    requested (dedup_from added qnames) joinmap added relset.
Proof.
  induction qnames as [|q qnames IH]; intros jm added relset; cbn [dedup_from requested].
  - reflexivity.
  - destruct (mem q added) eqn:E; [apply IH|].
    cbn [requested]. rewrite E. destruct (rpartition q) as [rel col].
    unfold set_add at 1 3. rewrite E. apply IH.
Qed.

Lemma insert_all_In x l1 l2 : In (l1 ++ x :: l2) (insert_all x (l1 ++ l2)).
Proof.
  induction l1 as [|y l1 IH]; cbn.
  - destruct l2; left; reflexivity.
  - right. apply in_map. exact IH.
Qed.

Lemma perms_complete l : forall l', Permutation l l' -> In l' (perms l).
Proof.
  induction l as [|x l IH]; intros l' H.
  - apply Permutation_nil in H. subst. left. reflexivity.
  - destruct (Permutation_vs_cons_inv (Permutation_sym H)) as (l1 & l2 & ->).
    apply Permutation_cons_app_inv in H. cbn [perms].
    apply in_flat_map. exists (l1 ++ l2). split; [apply IH; exact H|].
    apply insert_all_In.
Qed.

Lemma list_eqb_eq a b : list_eqb a b = true -> a = b.
Proof.
  revert b. induction a as [|x a IH]; intros [|y b] H; try discriminate H.
  - reflexivity.
  - cbn in H. apply andb_true_iff in H as [H1 H2].
    apply String.eqb_eq in H1. subst. rewrite (IH _ H2). reflexivity.
Qed.

Lemma example_checked :
  forallb (fun d => forallb (example_check d) (seqs 2 ["R1"; "R3"]))
          (seqs 4 example_columns) = true.
Proof. vm_compute. reflexivity. Qed.

(** *** The planner example *)

Lemma dedup_in_seqs universe xs n :
  Forall (fun x => In x universe) xs -> List.length universe <= n ->
  NoDup universe ->
  In (dedup_from [] xs) (seqs n universe).
Proof.
  intros Hall Hn Hu. destruct (dedup_from_spec xs []) as [Hnd Hin].
  assert (Hincl : incl (dedup_from [] xs) universe).
  { intros x Hx. apply Hin in Hx as [Hx _].
    exact (proj1 (Forall_forall _ _) Hall x Hx). }
  apply seqs_complete; [exact Hnd|exact Hincl|].
  etransitivity; [apply NoDup_incl_length; eassumption|exact Hn].
Qed.

(** C1, as the planner has it.  On the schema [R1(a)], [R2(a, b)],
    [R3(b)], for a query whose columns are columns of [R1] and [R3], whose
    named relations are among [R1] and [R3], and that names or uses both,
    the planner joins three relations: first the relation of the first
    column of the projection, then the pivot [R2] on both its keys, then
    the other relation.  On the schema without [R2] planning raises
    "could not find relation to join". *)
Theorem pivot_joined_second set_iter projection condition_fields relations :
  (forall l, Permutation (set_iter l) l) ->
  projection <> [] ->
  Forall (fun q => In q example_columns) (projection ++ condition_fields) ->
  Forall (fun r => In r ["R1"; "R3"]) relations ->
  (forall r, In r ["R1"; "R3"] ->
     In r relations \/
     exists q, In q (projection ++ condition_fields) /\ fst (rpartition q) = r) ->
  let first := fst (rpartition (hd EmptyString projection)) in
  let last := if String.eqb first "R1" then "R3" else "R1" in
  (exists cols1 cols3,
     _plan_joins set_iter projection condition_fields relations db123
     = Ret [(first, cols1); ("R2", ["a"; "b"]); (last, cols3)]) /\
  _plan_joins set_iter projection condition_fields relations db13
  = Raise (TSQLError no_pivot_R1_R3).
Proof.
  intros Hperm Hne Hcols Hrels Hboth first last.
  set (qnames := projection ++ condition_fields) in *.
  set (d := dedup_from [] qnames).
  set (rs := set_update [] relations).
  assert (Hd : In d (seqs 4 example_columns)).
  { apply dedup_in_seqs; [exact Hcols|cbn; lia|].
    repeat constructor; cbn; intuition discriminate. }
  assert (Hrs : In rs (seqs 2 ["R1"; "R3"])).
  { unfold rs. rewrite set_update_dedup. cbn [app].
    apply dedup_in_seqs; [exact Hrels|cbn; lia|].
    repeat constructor; cbn; intuition discriminate. }
  pose proof example_checked as Hall.
  rewrite forallb_forall in Hall. specialize (Hall d Hd).
  rewrite forallb_forall in Hall. specialize (Hall rs Hrs).
  unfold example_check in Hall.
  assert (Hreq : requested qnames [] [] rs = requested d [] [] rs)
    by apply requested_dedup.
  assert (Hhd : hd EmptyString d = hd EmptyString projection /\ truthy_list d = true).
  { unfold d, qnames. destruct projection as [|p ps]; [congruence|].
    cbn. split; reflexivity. }
  destruct Hhd as [Hhd Hnonempty].
  destruct (requested d [] [] rs) as [[joinmap added] relset] eqn:E.
  rewrite Hhd, Hnonempty in Hall. fold first in Hall.
  assert (Hmem : forall r, In r ["R1"; "R3"] -> In r relset).
  { intros r Hr. pose proof Hreq as E'.
    apply requested_relset in E' as [E1 E2]; [|intros q []].
    destruct (Hboth r Hr) as [Hin|(q & Hq & <-)].
    - apply E1. unfold rs. apply set_update_In. right. exact Hin.
    - apply E2. exact Hq. }
  assert (H1 : mem "R1" relset = true) by (apply mem_In, Hmem; cbn; auto).
  assert (H3 : mem "R3" relset = true) by (apply mem_In, Hmem; cbn; auto).
  rewrite H1, H3 in Hall. cbn [andb] in Hall.
  apply andb_true_iff in Hall as [Hpiv Hord].
  rewrite forallb_forall in Hpiv, Hord.
  specialize (Hpiv (set_iter relset)
                (perms_complete _ _ (Permutation_sym (Hperm relset)))).
  apply andb_true_iff in Hpiv as [Hpiv Hnone].
  unfold _plan_joins. fold qnames. fold rs. rewrite Hreq. unfold _pivot_relations.
  split.
  - destruct (pivot_relations_in (set_iter relset) relset (_make_keymap db123))
      as [pivots| |]; try discriminate Hpiv.
    cbn [is_ret_list] in Hpiv. apply list_eqb_eq in Hpiv. subst pivots. cbn [bind].
    rewrite (Permutation_length_1_inv (Permutation_sym (Hperm ["R2"]))).
    specialize (Hord (set_iter (set_update relset ["R2"]))
                  (perms_complete _ _ (Permutation_sym (Hperm _)))).
    destruct (order_joins db123 _ added joinmap) as [joins| |];
      try discriminate Hord.
    destruct joins as [|[r1 c1] [|[r2 c2] [|[r3 c3] [|? ?]]]]; try discriminate Hord.
    cbn [pivot_second] in Hord.
    apply andb_true_iff in Hord as [Hord Hr3].
    apply andb_true_iff in Hord as [Hord Hc2].
    apply andb_true_iff in Hord as [Hr1 Hr2].
    apply String.eqb_eq in Hr1, Hr2, Hr3. apply list_eqb_eq in Hc2. subst.
    exists c1, c3. reflexivity.
  - destruct (pivot_relations_in (set_iter relset) relset (_make_keymap db13))
      as [pivots|e|]; try discriminate Hnone.
    destruct e; try discriminate Hnone. cbn [is_engine_error] in Hnone.
    apply String.eqb_eq in Hnone. subst. reflexivity.
Qed.

Lemma pivot_joined_second_witness :
  (exists cols1 cols3,
     _plan_joins (fun l => l) ["R1.x"; "R3.y"] [] [] db123
     = Ret [("R1", cols1); ("R2", ["a"; "b"]); ("R3", cols3)]) /\
  _plan_joins (fun l => l) ["R1.x"; "R3.y"] [] [] db13 = Raise (TSQLError no_pivot_R1_R3).
Proof.
  apply (pivot_joined_second (fun l => l) ["R1.x"; "R3.y"] [] []).
  - intro l. apply Permutation_refl.
  - discriminate.
  - repeat (apply Forall_cons; [cbn; auto 10|]). apply Forall_nil.
  - constructor.
  - intros r [<-|[<-|[]]]; right.
    + exists "R1.x". split; [cbn; auto|reflexivity].
    + exists "R3.y". split; [cbn; auto|reflexivity].
Defined.

(** C1 as stated fails: for the query [select y x], whose relations are
    [R1] and [R3], the pivot [R2] is planned after [R3]. *)
Lemma pivot_after_R3 :
  exists q joins,
    _parse_query "select y x" = Ret q /\
    q_relations q = [] /\
    _make_execution_plan (fun l => l) (q_projection q) (q_relations q) (q_condition q) db123
    = Ret (["R3.y"; "R1.x"], joins, None) /\
    map fst joins = ["R3"; "R2"; "R1"] /\
    precedes "R2" "R3" (map fst joins) = false.
Proof.
  eexists. eexists. repeat split; vm_compute; reflexivity.
Qed.

(** * Properties of the executor *)

Lemma condition_induction (P : condition -> Prop) :
  (forall op column val, P (Cmp op column val)) ->
  (forall op body, Forall P body -> P (BoolOp op body)) ->
  (forall body, P body -> P (Not body)) ->
  forall c, P c.
Proof.
  intros Hcmp Hbool Hnot. fix IH 1. intros [op column val|op body|body].
  - apply Hcmp.
  - apply Hbool. induction body as [|c body IHb]; constructor; [apply IH|exact IHb].
  - apply Hnot, IH.
Qed.

Lemma engine_error_not_duplicate e : engine_error e = false -> e <> duplicate_join.
Proof. intros H ->. discriminate H. Qed.

Lemma dict_lookup_raises {V : Type} k (d : pydict V) e :
  dict_lookup k d = Raise e -> engine_error e = false.
Proof.
  unfold dict_lookup. destruct (dict_get k d); intro H; inversion H. reflexivity.
Qed.

Lemma mapM_raises {A B : Type} (f : A -> outcome B) l e :
  (forall a e', f a = Raise e' -> engine_error e' = false) ->
  mapM f l = Raise e -> engine_error e = false.
Proof.
  intro Hf. induction l as [|a l IH]; cbn [mapM]; [discriminate|].
  destruct (f a) as [b| |] eqn:E; cbn [bind]; try discriminate.
  - destruct (mapM f l) as [bs| |]; cbn [bind]; try discriminate.
    intro H. apply IH. exact H.
  - intro H. inversion H; subst. exact (Hf _ _ E).
Qed.

Lemma nth_field_raises (fs : list Field) idx e :
  match nth_error fs idx with
  | Some f => Ret f
  | None => Raise (IndexError "list index out of range")
  end = Raise e -> engine_error e = false.
Proof. destruct (nth_error fs idx); intro H; inversion H. reflexivity. Qed.

Lemma row_get_raises r idx e : row_get r idx = Raise e -> engine_error e = false.
Proof.
  unfold row_get. destruct (nth_error r idx); intro H; inversion H. reflexivity.
Qed.

Lemma select_from_raises db relation columns e :
  select_from db relation columns = Raise e -> engine_error e = false.
Proof.
  unfold select_from.
  destruct (dict_lookup relation (schema db)) as [fs| |] eqn:E1; cbn [bind];
    try discriminate.
  - destruct (mapM _ columns) as [indices| |] eqn:E2; cbn [bind]; try discriminate.
    intro H. inversion H; subst.
    revert E2. apply mapM_raises. intros a e'. apply dict_lookup_raises.
  - intro H. inversion H; subst. exact (dict_lookup_raises _ _ _ E1).
Qed.

Lemma select_rows_raises selection names e :
  select_rows selection names = Raise e -> engine_error e = false.
Proof.
  unfold select_rows.
  match goal with
  | |- bind ?m _ = _ -> _ => destruct m as [indices| |] eqn:E1
  end; cbn [bind]; try discriminate.
  - destruct (mapM _ indices) as [fs| |] eqn:E2; cbn [bind]; try discriminate.
    + apply mapM_raises. intros r e'. apply mapM_raises. intros idx e''.
      apply row_get_raises.
    + intro H. inversion H; subst. revert E2. apply mapM_raises.
      intros idx e'. apply nth_field_raises.
  - intro H. inversion H; subst. destruct (truthy_list names); [|discriminate E1].
    revert E1. apply mapM_raises. intros n e'. apply dict_lookup_raises.
Qed.

Lemma selection_rows_raises selection e :
  selection_rows selection = Raise e -> engine_error e = false.
Proof.
  unfold selection_rows. destruct (sel_projection selection); apply select_rows_raises.
Qed.

Lemma merge_on_raises relationname on :
  forall index e, merge_on relationname on index = Raise e -> engine_error e = false.
Proof.
  induction on as [|n on IH]; intros index e; cbn [merge_on]; [discriminate|].
  destruct (dict_lookup n index) as [i| |] eqn:E; cbn [bind]; try discriminate.
  - apply IH.
  - intro H. inversion H; subst. exact (dict_lookup_raises _ _ _ E).
Qed.

Lemma merge_fields_spec selection relationname on new :
  (forall e, _merge_fields selection relationname on new = Raise e ->
             engine_error e = false) /\
  (forall selection', _merge_fields selection relationname on new = Ret selection' ->
                      sel_joined selection' = set_add relationname (sel_joined selection)).
Proof.
  unfold _merge_fields.
  destruct (merge_each _ _ _ _ _) as [fs index].
  destruct (merge_on relationname on index) as [index'| |] eqn:E; cbn [bind]; split;
    intros x H; inversion H; subst; try reflexivity.
  exact (merge_on_raises _ _ _ _ E).
Qed.

(** What [_join] does to the set of the joined relations, and what it
    raises, for a relation that is not yet joined. *)
Lemma join_spec date_eqb selection db relname columns :
  mem relname (sel_joined selection) = false ->
  (forall e, _join date_eqb selection db relname columns "inner" = Raise e ->
             e <> duplicate_join) /\
  (forall selection',
     _join date_eqb selection db relname columns "inner" = Ret selection' ->
     sel_joined selection' = set_add relname (sel_joined selection)).
Proof.
  intro Hmem. unfold _join. cbn [mem String.eqb negb]. rewrite Hmem.
  assert (Hne : forall e, engine_error e = false -> e <> duplicate_join)
    by apply engine_error_not_duplicate.
  destruct (dict_lookup relname (schema db)) as [all_fields| |] eqn:E1; cbn [bind].
  2: { split; intros x H; inversion H; subst.
       apply Hne. exact (dict_lookup_raises _ _ _ E1). }
  2: { split; intros x H; discriminate H. }
  destruct (mapM _ columns) as [indices| |] eqn:E2; cbn [bind].
  2: { split; intros x H; inversion H; subst. apply Hne. revert E2.
       apply mapM_raises. intros a e'. apply dict_lookup_raises. }
  2: { split; intros x H; discriminate H. }
  destruct (mapM _ indices) as [new| |] eqn:E3; cbn [bind].
  2: { split; intros x H; inversion H; subst. apply Hne. revert E3.
       apply mapM_raises. intros a e'. apply nth_field_raises. }
  2: { split; intros x H; discriminate H. }
  destruct (negb (truthy_list (sel_joined selection))).
  - destruct (merge_fields_spec selection relname [] new) as [Hr Hj].
    destruct (_merge_fields selection relname [] new) as [sel1| |] eqn:E4; cbn [bind].
    + destruct (select_from db relname columns) as [rows| |] eqn:E5; cbn [bind];
        split; intros x H; inversion H; subst.
      * cbn. apply Hj. reflexivity.
      * apply Hne. exact (select_from_raises _ _ _ _ E5).
    + split; intros x H; inversion H; subst. apply Hne, Hr. reflexivity.
    + split; intros x H; discriminate H.
  - match goal with
    | |- context [negb (truthy_list ?on)] => destruct (negb (truthy_list on))
    end.
    { split; intros x H; inversion H; subst. discriminate. }
    match goal with
    | |- context [select_from db relname ?on] =>
        destruct (select_from db relname on) as [rkeys| |] eqn:E4
    end; cbn [bind].
    2: { split; intros x H; inversion H; subst.
         apply Hne. exact (select_from_raises _ _ _ _ E4). }
    2: { split; intros x H; discriminate H. }
    match goal with
    | |- context [select_from db relname ?cols] =>
        destruct (select_from db relname cols) as [rrows| |] eqn:E5
    end; cbn [bind].
    2: { split; intros x H; inversion H; subst.
         apply Hne. exact (select_from_raises _ _ _ _ E5). }
    2: { split; intros x H; discriminate H. }
    match goal with
    | |- context [select_rows selection ?on] =>
        destruct (select_rows selection on) as [lkeys| |] eqn:E6
    end; cbn [bind].
    2: { split; intros x H; inversion H; subst.
         apply Hne. exact (select_rows_raises _ _ _ E6). }
    2: { split; intros x H; discriminate H. }
    destruct (selection_rows selection) as [lrows| |] eqn:E7; cbn [bind].
    2: { split; intros x H; inversion H; subst.
         apply Hne. exact (selection_rows_raises _ _ E7). }
    2: { split; intros x H; discriminate H. }
    match goal with
    | |- context [_merge_fields selection relname ?on ?new'] =>
        destruct (merge_fields_spec selection relname on new') as [Hr Hj];
        destruct (_merge_fields selection relname on new') as [sel1| |] eqn:E8
    end; cbn [bind]; split; intros x H; inversion H; subst.
    + cbn. apply Hj. reflexivity.
    + apply Hne, Hr. reflexivity.
Qed.

Lemma dict_pop_keys {V : Type} k (d : pydict V) :
  NoDup (map fst d) ->
  NoDup (map fst (dict_pop k d)) /\
  ~ In k (map fst (dict_pop k d)) /\
  incl (map fst (dict_pop k d)) (map fst d).
Proof.
  induction d as [|[k' v] d IH]; cbn [dict_pop map fst]; intro Hnd.
  - repeat split; [constructor|tauto|intros x []].
  - inversion Hnd as [|? ? Hnin Hnd']; subst.
    destruct (String.eqb_spec k k') as [->|Hne].
    + repeat split; [exact Hnd'|exact Hnin|]. intros x Hx. right. exact Hx.
    + destruct (IH Hnd') as (H1 & H2 & H3). cbn [map fst]. repeat split.
      * constructor; [|exact H1]. intro Hin. apply Hnin, H3, Hin.
      * intros [E|Hin]; [congruence|contradiction].
      * intros x [<-|Hx]; [left; reflexivity|right; apply H3, Hx].
Qed.

(** The join loop plans every relation once. *)
Lemma join_order_nodup fuel :
  forall keymap joinmap joined_keys joins planned,
    join_order fuel keymap joinmap joined_keys joins = Ret planned ->
    NoDup (map fst joinmap) -> NoDup (map fst joins) ->
    (forall k, In k (map fst joins) -> ~ In k (map fst joinmap)) ->
    NoDup (map fst planned).
Proof.
  induction fuel as [|f IH]; intros keymap joinmap joined_keys joins planned H Hjm Hj Hdis.
  - destruct joinmap; [|discriminate H]. inversion H; subst. exact Hj.
  - cbn [join_order] in H. destruct joinmap as [|entry joinmap'].
    { inversion H; subst. exact Hj. }
    destruct (find _ (entry :: joinmap')) as [[rel cols]|] eqn:E; [|discriminate H].
    apply find_some in E as [Hin _].
    destruct (dict_lookup rel keymap) as [keys| |]; cbn [bind] in H; try discriminate H.
    assert (Hrel : In rel (map fst (entry :: joinmap'))).
    { apply in_map_iff. exists (rel, cols). auto. }
    destruct (dict_pop_keys rel (entry :: joinmap') Hjm) as (H1 & H2 & H3).
    apply IH in H; [exact H|exact H1| |].
    + rewrite map_app. apply NoDup_app; [exact Hj|repeat constructor; tauto|].
      intros k Hk [<-|[]]. exact (Hdis _ Hk Hrel).
    + intros k Hk Hk'. rewrite map_app in Hk. apply in_app_or in Hk as [Hk|[<-|[]]].
      * apply (Hdis _ Hk), H3, Hk'.
      * contradiction.
Qed.

Lemma plan_joins_nodup set_iter projection condition_fields relations db joins :
  _plan_joins set_iter projection condition_fields relations db = Ret joins ->
  NoDup (map fst joins).
Proof.
  unfold _plan_joins.
  destruct (requested (projection ++ condition_fields) [] [] (set_update [] relations))
    as [[joinmap added] relset] eqn:E.
  apply requested_keys in E as [Hnd _]; [|constructor|intros k []].
  destruct (_pivot_relations set_iter relset (_make_keymap db)) as [pivots| |];
    cbn [bind]; try discriminate.
  unfold order_joins.
  destruct (always_add_keys db _ added joinmap) as [joinmap'| |] eqn:E3; cbn [bind];
    try discriminate.
  apply always_add_keys_ret in E3 as (Hnd' & _ & _); [|exact Hnd].
  intro H. apply join_order_nodup in H; [exact H|exact Hnd'|constructor|intros k []].
Qed.

(** Joining relations that are all different never meets a relation
    that is already joined. *)
Lemma join_all_no_duplicate date_eqb db joins :
  forall selection e,
    NoDup (map fst joins) ->
    (forall k, In k (sel_joined selection) -> ~ In k (map fst joins)) ->
    join_all date_eqb selection db joins = Raise e -> e <> duplicate_join.
Proof.
  induction joins as [|[relname columns] joins IH]; intros selection e Hnd Hdis;
    cbn [join_all]; [discriminate|].
  inversion Hnd as [|? ? Hnin Hnd']; subst.
  assert (Hmem : mem relname (sel_joined selection) = false).
  { apply mem_not_In. intro Hin. apply (Hdis _ Hin). left. reflexivity. }
  destruct (join_spec date_eqb selection db relname columns Hmem) as [Hr Hj].
  destruct (_join date_eqb selection db relname columns "inner") as [sel1| |];
    cbn [bind]; try discriminate.
  - apply IH; [exact Hnd'|]. rewrite (Hj _ eq_refl).
    intros k Hk. apply set_add_In in Hk as [->|Hk]; [exact Hnin|].
    intro Hin. apply (Hdis _ Hk). right. exact Hin.
  - intro H. inversion H; subst. apply Hr. reflexivity.
Qed.

(** *** What planning and filtering raise *)

Lemma mapM_raises_not_duplicate {A B : Type} (f : A -> outcome B) l e :
  (forall a e', f a = Raise e' -> e' <> duplicate_join) ->
  mapM f l = Raise e -> e <> duplicate_join.
Proof.
  intro Hf. induction l as [|a l IH]; cbn [mapM]; [discriminate|].
  destruct (f a) as [b| |] eqn:E; cbn [bind]; try discriminate.
  - destruct (mapM f l) as [bs| |]; cbn [bind]; try discriminate.
    intro H. apply IH. exact H.
  - intro H. inversion H; subst. exact (Hf _ _ E).
Qed.

Lemma resolver_raises schema_map colname e :
  _make_qname_resolver schema_map colname = Raise e -> e <> duplicate_join.
Proof.
  unfold _make_qname_resolver. destruct (rpartition colname) as [rel col].
  destruct (truthy rel); [discriminate|].
  destruct (dict_get col schema_map) as [[|r rs]|]; intro H; inversion H; discriminate.
Qed.

Lemma project_relations_raises db relations :
  forall proj keys_added e,
    project_relations db relations proj keys_added = Raise e -> e <> duplicate_join.
Proof.
  induction relations as [|relname relations IH]; intros proj keys_added e;
    cbn [project_relations]; [discriminate|].
  destruct (dict_lookup relname (schema db)) as [fs| |] eqn:E; cbn [bind];
    try discriminate.
  - destruct (project_fields relname fs proj keys_added). apply IH.
  - intro H. inversion H; subst.
    apply engine_error_not_duplicate. exact (dict_lookup_raises _ _ _ E).
Qed.

Lemma process_condition_fields_raises resolve_qname :
  (forall colname e, resolve_qname colname = Raise e -> e <> duplicate_join) ->
  forall c e, _process_condition_fields resolve_qname c = Raise e -> e <> duplicate_join.
Proof.
  intro Hres. induction c as [op column val|op body IH|body IH] using condition_induction;
    intro e; cbn [_process_condition_fields].
  - destruct (resolve_qname column) as [q| |] eqn:E; cbn [bind]; try discriminate.
    intro H. inversion H; subst. exact (Hres _ _ E).
  - match goal with
    | |- bind (?each body []) _ = _ -> _ =>
        assert (Heach : forall fieldset e',
                  each body fieldset = Raise e' -> e' <> duplicate_join)
    end.
    { induction IH as [|c body Hc _ IHb]; intros fieldset e'; [discriminate|].
      destruct (_process_condition_fields resolve_qname c) as [[c' fs]| |] eqn:E;
        cbn [bind]; try discriminate.
      - match goal with
        | |- bind ?m _ = _ -> _ => destruct m as [[cs fs']| |] eqn:E2
        end; cbn [bind]; try discriminate.
        intro H. inversion H; subst. exact (IHb _ _ E2).
      - intro H. inversion H; subst. exact (Hc _ eq_refl). }
    match goal with
    | |- bind ?m _ = _ -> _ => destruct m as [[cs fs]| |] eqn:E
    end; cbn [bind]; try discriminate.
    intro H. inversion H; subst. exact (Heach _ _ E).
  - destruct (_process_condition_fields resolve_qname body) as [[c' fs]| |] eqn:E;
      cbn [bind]; try discriminate.
    intro H. inversion H; subst. exact (IH _ eq_refl).
Qed.

Lemma key_graph_raises keymap order :
  forall nodes edges e,
    key_graph keymap order nodes edges = Raise e -> engine_error e = false.
Proof.
  induction order as [|rel order IH]; intros nodes edges e; cbn [key_graph];
    [discriminate|].
  destruct (dict_lookup rel keymap) as [keys| |] eqn:E; cbn [bind]; try discriminate.
  - apply IH.
  - intro H. inversion H; subst. exact (dict_lookup_raises _ _ _ E).
Qed.

Lemma pivot_loop_raises fuel :
  forall keymap relset nodes edges pivots components e,
    pivot_loop fuel keymap relset nodes edges pivots components = Raise e ->
    e = no_pivot relset.
Proof.
  induction fuel as [|f IH]; intros keymap relset nodes edges pivots components e;
    cbn [pivot_loop]; destruct (1 <? List.length components); try discriminate.
  destruct (find_pivot _ _ _) as [[rel keys]|]; [apply IH|].
  intro H. inversion H. reflexivity.
Qed.

Lemma always_add_keys_raises db order added :
  forall joinmap e,
    always_add_keys db order added joinmap = Raise e -> engine_error e = false.
Proof.
  induction order as [|rel order IH]; intros jm e; cbn [always_add_keys];
    [discriminate|].
  destruct (dict_lookup rel (schema db)) as [fs| |] eqn:E; cbn [bind]; try discriminate.
  - apply IH.
  - intro H. inversion H; subst. exact (dict_lookup_raises _ _ _ E).
Qed.

Lemma join_order_raises fuel :
  forall keymap joinmap joined_keys joins e,
    join_order fuel keymap joinmap joined_keys joins = Raise e ->
    e = infinite_loop \/ engine_error e = false.
Proof.
  induction fuel as [|f IH]; intros keymap joinmap joined_keys joins e;
    cbn [join_order]; destruct joinmap as [|entry joinmap']; try discriminate.
  destruct (find _ (entry :: joinmap')) as [[rel cols]|].
  - destruct (dict_lookup rel keymap) as [keys| |] eqn:E; cbn [bind]; try discriminate.
    + apply IH.
    + intro H. inversion H; subst. right. exact (dict_lookup_raises _ _ _ E).
  - intro H. inversion H. left. reflexivity.
Qed.

Lemma plan_joins_raises set_iter projection condition_fields relations db e :
  _plan_joins set_iter projection condition_fields relations db = Raise e ->
  e <> duplicate_join.
Proof.
  unfold _plan_joins.
  destruct (requested (projection ++ condition_fields) [] [] (set_update [] relations))
    as [[joinmap added] relset].
  unfold _pivot_relations, pivot_relations_in.
  destruct (key_graph _ _ [] []) as [[nodes edges]| |] eqn:E1; cbn [bind];
    try discriminate.
  2: { intro H. inversion H; subst. apply engine_error_not_duplicate.
       exact (key_graph_raises _ _ _ _ _ E1). }
  destruct (pivot_loop _ _ _ _ _ _ _) as [pivots| |] eqn:E2; cbn [bind];
    try discriminate.
  2: { intro H. inversion H; subst. apply pivot_loop_raises in E2. subst.
       discriminate. }
  unfold order_joins.
  destruct (always_add_keys db _ added joinmap) as [joinmap'| |] eqn:E3; cbn [bind];
    try discriminate.
  2: { intro H. inversion H; subst. apply engine_error_not_duplicate.
       exact (always_add_keys_raises _ _ _ _ _ E3). }
  intro H. apply join_order_raises in H as [->|H];
    [discriminate|apply engine_error_not_duplicate, H].
Qed.

Section Filtering.

Variable re_search : string -> string -> option bool.
Variable date_eqb : string -> string -> bool.
Variable date_ltb : string -> string -> bool.

Lemma value_ltb_raises a b e :
  value_ltb date_ltb a b = Raise e -> engine_error e = false.
Proof. destruct a, b; intro H; inversion H; reflexivity. Qed.

Lemma operator_raises op compare :
  dict_lookup op (_operator_functions date_eqb date_ltb) = Ret compare ->
  forall a b e, compare a b = Raise e -> engine_error e = false.
Proof.
  unfold dict_lookup, _operator_functions. cbn [dict_get].
  repeat match goal with
         | |- context [if String.eqb op ?s then _ else _] =>
             destruct (String.eqb op s)
         end;
    intro H; inversion H; subst; intros a b e; try discriminate;
    try apply value_ltb_raises.
  - destruct (value_ltb date_ltb a b) eqn:E; cbn [bind]; try discriminate.
    intro H'. inversion H'; subst. exact (value_ltb_raises _ _ _ E).
  - destruct (value_ltb date_ltb b a) eqn:E; cbn [bind]; try discriminate.
    intro H'. inversion H'; subst. exact (value_ltb_raises _ _ _ E).
Qed.

Lemma search_raises pattern val e :
  search re_search pattern val = Raise e -> engine_error e = false.
Proof.
  unfold search. destruct pattern, val; try (intro H; inversion H; reflexivity).
  destruct (re_search s s0); intro H; inversion H; reflexivity.
Qed.

Lemma all_of_raises conditions :
  Forall (fun cond : list value -> outcome bool =>
            forall r e, cond r = Raise e -> engine_error e = false) conditions ->
  forall r e, all_of conditions r = Raise e -> engine_error e = false.
Proof.
  induction 1 as [|cond conditions Hc _ IH]; intros r e; cbn [all_of]; [discriminate|].
  destruct (cond r) as [b| |] eqn:E; cbn [bind]; try discriminate.
  - destruct b; [apply IH|discriminate].
  - intro H. inversion H; subst. exact (Hc _ _ E).
Qed.

Lemma any_of_raises conditions :
  Forall (fun cond : list value -> outcome bool =>
            forall r e, cond r = Raise e -> engine_error e = false) conditions ->
  forall r e, any_of conditions r = Raise e -> engine_error e = false.
Proof.
  induction 1 as [|cond conditions Hc _ IH]; intros r e; cbn [any_of]; [discriminate|].
  destruct (cond r) as [b| |] eqn:E; cbn [bind]; try discriminate.
  - destruct b; [discriminate|apply IH].
  - intro H. inversion H; subst. exact (Hc _ _ E).
Qed.

(** Neither compiling a condition nor evaluating it raises an engine
    error. *)
Lemma process_condition_function_raises field_index c :
  (forall e, _process_condition_function re_search date_eqb date_ltb c field_index
             = Raise e -> engine_error e = false) /\
  (forall func, _process_condition_function re_search date_eqb date_ltb c field_index
                = Ret func ->
                forall r e, func r = Raise e -> engine_error e = false).
Proof.
  induction c as [op column val|op body IH|body IH] using condition_induction;
    cbn [_process_condition_function].
  - assert (Hget : forall (k : value -> outcome bool) r e,
              (forall v e', k v = Raise e' -> engine_error e' = false) ->
              (idx <- dict_lookup column field_index ;; v <- row_get r idx ;; k v)
              = Raise e -> engine_error e = false).
    { intros k r e Hk.
      destruct (dict_lookup column field_index) as [idx| |] eqn:E1; cbn [bind];
        try discriminate.
      - destruct (row_get r idx) as [v| |] eqn:E2; cbn [bind]; try discriminate.
        + apply Hk.
        + intro H. inversion H; subst. exact (row_get_raises _ _ _ E2).
      - intro H. inversion H; subst. exact (dict_lookup_raises _ _ _ E1). }
    destruct (String.eqb op "~"); [|destruct (String.eqb op "!~")].
    + split; [discriminate|]. intros func H. inversion H; subst. intros r e.
      apply Hget. intros v e'. apply search_raises.
    + split; [discriminate|]. intros func H. inversion H; subst. intros r e.
      apply (Hget (fun v => b <- search re_search val v ;; Ret (negb b))).
      intros v e'. destruct (search re_search val v) eqn:E; cbn [bind];
        try discriminate.
      intro H'. inversion H'; subst. exact (search_raises _ _ _ E).
    + destruct (dict_lookup op _) as [compare| |] eqn:E; cbn [bind]; split;
        try discriminate.
      * intros func H. inversion H; subst. intros r e.
        apply (Hget (fun v => compare v val)).
        intros v e'. exact (operator_raises _ _ E v val e').
      * intros e' H. inversion H; subst. exact (dict_lookup_raises _ _ _ E).
  - match goal with
    | |- context [bind (?each body) _] =>
        assert (Heach :
          (forall e, each body = Raise e -> engine_error e = false) /\
          (forall funcs, each body = Ret funcs ->
             Forall (fun cond : list value -> outcome bool =>
                       forall r e, cond r = Raise e -> engine_error e = false) funcs))
    end.
    { induction IH as [|c body [Hc1 Hc2] _ [IHb1 IHb2]].
      - split; [discriminate|]. intros funcs H. inversion H. constructor.
      - destruct (_process_condition_function re_search date_eqb date_ltb c field_index)
          as [func| |] eqn:E; cbn [bind]; split; try discriminate.
        + match goal with
          | |- forall e, bind ?m _ = _ -> _ => destruct m as [funcs| |] eqn:E2
          end; cbn [bind]; try discriminate.
          intros e1 H. inversion H; subst. apply IHb1. reflexivity.
        + match goal with
          | |- forall fs, bind ?m _ = _ -> _ => destruct m as [funcs| |] eqn:E2
          end; cbn [bind]; try discriminate.
          intros fs H. inversion H; subst. constructor.
          * apply Hc2. reflexivity.
          * apply IHb2. reflexivity.
        + intros e1 H. inversion H; subst. apply Hc1. reflexivity. }
    destruct Heach as [He1 He2].
    match goal with
    | |- context [bind ?m _] => destruct m as [funcs| |] eqn:E
    end; cbn [bind]; split; try discriminate.
    + intros func H. inversion H; subst.
      destruct (String.eqb op "and");
        [apply all_of_raises|apply any_of_raises]; apply He2; reflexivity.
    + intros e1 H. inversion H; subst. apply He1. reflexivity.
  - destruct IH as [IH1 IH2].
    destruct (_process_condition_function re_search date_eqb date_ltb body field_index)
      as [nfunc| |] eqn:E; cbn [bind]; split; try discriminate.
    + intros func H. inversion H; subst. intros r e.
      destruct (nfunc r) as [b| |] eqn:E2; cbn [bind]; try discriminate.
      intro H'. inversion H'; subst. exact (IH2 _ eq_refl _ _ E2).
    + intros e1 H. inversion H; subst. apply IH1. reflexivity.
Qed.

Lemma filter_rows_raises func rows e :
  (forall r e', func r = Raise e' -> engine_error e' = false) ->
  filter_rows func rows = Raise e -> engine_error e = false.
Proof.
  intro Hf. induction rows as [|r rows IH]; cbn [filter_rows]; [discriminate|].
  destruct (func r) as [b| |] eqn:E; cbn [bind]; try discriminate.
  - destruct (filter_rows func rows); cbn [bind]; try discriminate.
    intro H. apply IH. exact H.
  - intro H. inversion H; subst. exact (Hf _ _ E).
Qed.

End Filtering.

(** *** Duplicate joins *)

Lemma syntax_other_engine e : syntax_other e = true -> engine_error e = false.
Proof. destruct e; simpl; intro H; try discriminate; reflexivity. Qed.

Lemma raises_engine lx e : raises lx e -> engine_error e = false.
Proof.
  intros [H|[H _]]; [apply syntax_other_engine, H|].
  destruct e; try discriminate H; reflexivity.
Qed.

Lemma projection_columns_raises fuel col_id lx e :
  projection_columns fuel col_id lx = Raise e -> False.
Proof.
  revert col_id lx. induction fuel as [|f IH]; intros col lx H; [discriminate H|].
  cbn [projection_columns] in H. destruct col as [text|]; [|discriminate].
  destruct (truthy text); [|discriminate].
  destruct (accept_type _QID lx) as [q lx1].
  destruct (accepted q).
  - destruct (projection_columns f q lx1) as [[cols lx2]| |] eqn:E; cbn [bind] in H;
      try discriminate.
    inversion H; subst. exact (IH _ _ E).
  - destruct (accept_type _ID lx1) as [next lx2].
    destruct (projection_columns f next lx2) as [[cols lx3]| |] eqn:E; cbn [bind] in H;
      try discriminate.
    inversion H; subst. exact (IH _ _ E).
Qed.

Lemma parse_select_lexer_raises fuel lx e :
  parse_select_lexer fuel lx = Raise e -> engine_error e = false.
Proof.
  unfold parse_select_lexer, _parse_select_projection.
  destruct (choice_type [_STAR; _QID; _ID] lx) as [[[typ col_id] lx1]| |] eqn:E1;
    cbn [bind]; try discriminate.
  2: { intro H. inversion H; subst.
       apply syntax_other_engine. exact (choice_type_raises _ _ _ E1). }
  match goal with
  | |- bind ?m _ = _ -> _ => destruct m as [[proj lx2]| |] eqn:E2
  end; cbn [bind]; try discriminate.
  2: { intro H. inversion H; subst. exfalso.
       destruct (type_in typ [_QID; _ID]); [|discriminate E2].
       exact (projection_columns_raises _ _ _ _ E2). }
  unfold _parse_select_from.
  destruct (accept_type _FROM lx2) as [tok lx3].
  match goal with
  | |- bind ?m _ = _ -> _ => destruct m as [[rels lx4]| |] eqn:E3
  end; cbn [bind]; try discriminate.
  2: { intro H. inversion H; subst.
       destruct (accepted tok); [|discriminate E3].
       destruct (expect_type _ID lx3) as [[relation lx5]| |] eqn:E4; cbn [bind] in E3;
         try discriminate.
       - exfalso. exact (from_relations_raises _ _ _ _ E3).
       - inversion E3; subst. apply syntax_other_engine.
         exact (expect_type_raises _ _ _ E4). }
  unfold _parse_select_where.
  destruct (where_conditions fuel lx4) as [[conditions lx5]| |] eqn:E5; cbn [bind];
    try discriminate.
  2: { intro H. inversion H; subst.
       exact (raises_engine _ _ (where_conditions_raises _ _ _ E5)). }
  assert (Hfin : forall c : option condition,
            ('(_, lx) <- expect_type _DOT lx5 ;;
             if list_eqb proj ["*"] && negb (truthy_list rels)
             then Raise star_requires_from
             else Ret (mk_queryobj "select" proj rels c)) = Raise e ->
            engine_error e = false).
  { intro c. destruct (expect_type _DOT lx5) as [[d lx6]| |] eqn:E6; cbn [bind];
      try discriminate.
    - destruct (list_eqb proj ["*"] && negb (truthy_list rels)); [|discriminate].
      intro H. inversion H. reflexivity.
    - intro H. inversion H; subst. apply syntax_other_engine.
      exact (expect_type_raises _ _ _ E6). }
  destruct conditions as [|c [|c' cs]]; cbn [bind]; apply Hfin.
Qed.

Lemma parse_query_raises querystring e :
  _parse_query querystring = Raise e -> engine_error e = false.
Proof.
  unfold _parse_query.
  destruct (partition_space (lstrip querystring)) as [querytype querybody].
  destruct (mem (lower querytype) ["select"; "retrieve"]).
  - apply parse_select_lexer_raises.
  - intro H. inversion H. reflexivity.
Qed.

Section DuplicateJoin.

Variable set_iter : list string -> list string.
Variable re_search : string -> string -> option bool.
Variable date_eqb : string -> string -> bool.
Variable date_ltb : string -> string -> bool.

Lemma make_execution_plan_spec projection relations cond db :
  (forall e, _make_execution_plan set_iter projection relations cond db = Raise e ->
             e <> duplicate_join) /\
  (forall proj joins c,
     _make_execution_plan set_iter projection relations cond db = Ret (proj, joins, c) ->
     NoDup (map fst joins)).
Proof.
  unfold _make_execution_plan.
  match goal with
  | |- context [bind ?m _] => destruct m as [proj| |] eqn:E1
  end; cbn [bind]; [| |split; discriminate].
  2: { split; [|discriminate]. intros e0 H. inversion H; subst.
       destruct (list_eqb projection ["*"]).
       - exact (project_relations_raises _ _ _ _ _ E1).
       - revert E1. apply mapM_raises_not_duplicate.
         intros a e'. apply resolver_raises. }
  match goal with
  | |- context [bind ?m _] => destruct m as [[c' fs]| |] eqn:E2
  end; cbn [bind]; [| |split; discriminate].
  2: { split; [|discriminate]. intros e0 H. inversion H; subst.
       destruct cond as [c|]; [|discriminate E2].
       destruct (_process_condition_fields _ c) as [[c'' fs']| |] eqn:E3;
         cbn [bind] in E2; try discriminate.
       inversion E2; subst. revert E3. apply process_condition_fields_raises.
       intros colname e'. apply resolver_raises. }
  destruct (_plan_joins set_iter proj fs relations db) as [joins| |] eqn:E3;
    cbn [bind]; split; try discriminate.
  - intros p j c H. inversion H; subst. exact (plan_joins_nodup _ _ _ _ _ _ E3).
  - intros e0 H. inversion H; subst. exact (plan_joins_raises _ _ _ _ _ _ E3).
Qed.

Lemma select_no_duplicate projection relations cond db :
  _select set_iter re_search date_eqb date_ltb projection relations cond db
  <> Raise duplicate_join.
Proof.
  unfold _select.
  destruct (make_execution_plan_spec projection relations cond db) as [Hr Hnd].
  destruct (_make_execution_plan set_iter projection relations cond db)
    as [[[proj joins] c]| |]; cbn [bind]; try discriminate.
  2: { intro H. inversion H; subst. exact (Hr _ eq_refl eq_refl). }
  specialize (Hnd _ _ _ eq_refl).
  destruct (join_all date_eqb new_selection db joins) as [sel1| |] eqn:E1; cbn [bind];
    try discriminate.
  2: { intro H. inversion H; subst. revert E1.
       intro E1. apply (join_all_no_duplicate _ _ _ _ _ Hnd) in E1; [congruence|].
       intros k []. }
  destruct c as [c|]; cbn [bind]; [|discriminate].
  destruct (process_condition_function_raises re_search date_eqb date_ltb
              (sel_field_index sel1) c) as [Hc1 Hc2].
  destruct (_process_condition_function _ _ _ c _) as [func| |]; cbn [bind];
    try discriminate.
  - destruct (filter_rows func (sel_data sel1)) as [rows| |] eqn:E2; cbn [bind];
      try discriminate.
    intro H. inversion H; subst.
    apply (filter_rows_raises _ _ _ (Hc2 _ eq_refl)) in E2. discriminate E2.
  - intro H. inversion H; subst. specialize (Hc1 _ eq_refl). discriminate Hc1.
Qed.

(** C2, as the engine has it.  [_join] fails with the duplicate-join
    error when the relation is already joined into the selection; the
    planner turns the named relations into a set and plans every relation
    once, so no query, whatever its from clause names, fails with that
    error. *)
Theorem duplicate_join_only_in_join :
  (forall selection db relname columns how,
     mem how ["inner"; "left"] = true ->
     In relname (sel_joined selection) ->
     _join date_eqb selection db relname columns how = Raise duplicate_join) /\
  (forall querystring db,
     query set_iter re_search date_eqb date_ltb querystring db <> Raise duplicate_join).
Proof.
  split.
  - intros selection db relname columns how Hhow Hin. unfold _join.
    rewrite Hhow. cbn [negb]. apply mem_In in Hin. rewrite Hin. reflexivity.
  - intros querystring db. unfold query.
    destruct (_parse_query querystring) as [q| |] eqn:E; cbn [bind]; try discriminate.
    + destruct (mem (q_type q) ["select"; "retrieve"]); [|discriminate].
      apply select_no_duplicate.
    + intro H. inversion H; subst. apply parse_query_raises in E. discriminate E.
Qed.

End DuplicateJoin.

Lemma duplicate_join_only_in_join_witness :
  _join String.eqb (mk_Selection [] [] [] None ["item"]) item_db "item" ["i-id"] "inner"
  = Raise duplicate_join.
Proof.
  apply (proj1 (duplicate_join_only_in_join (fun l => l) no_search String.eqb String.ltb)).
  - reflexivity.
  - left. reflexivity.
Defined.

(** C2 as stated fails: the query [select i-id from item item], which
    names [item] twice, returns the column of the example profile. *)
Lemma from_item_item_returns :
  run_query "select i-id from item item" item_db
  = Ret [[VInt 10]; [VInt 20]; [VInt 30]; [VInt 10]].
Proof. vm_compute. reflexivity. Qed.

(** * Connected components of a clique *)

Lemma concat_filter_split (p : list string -> bool) comps :
  Permutation (List.concat (filter p comps)
               ++ List.concat (filter (fun c => negb (p c)) comps))
              (List.concat comps).
Proof.
  induction comps as [|c comps IH]; cbn; [constructor|].
  destruct (p c); cbn.
  - rewrite <- app_assoc. apply Permutation_app_head, IH.
  - etransitivity; [apply Permutation_app_swap_app|].
    apply Permutation_app_head, IH.
Qed.

Lemma merge_edge_concat comps e :
  Permutation (List.concat (merge_edge comps e)) (List.concat comps).
Proof.
  unfold merge_edge. destruct (filter (touches e) comps) as [|h hit] eqn:E;
    [reflexivity|].
  rewrite <- E. cbn [List.concat]. apply concat_filter_split.
Qed.

Lemma merge_edge_nonempty comps e :
  Forall (fun c => c <> []) comps -> Forall (fun c => c <> []) (merge_edge comps e).
Proof.
  intro H. unfold merge_edge. destruct (filter (touches e) comps) as [|h hit] eqn:E;
    [exact H|].
  rewrite Forall_forall in H. constructor.
  - assert (Hh : In h comps).
    { apply (proj1 (filter_In (touches e) h comps)). rewrite E. left. reflexivity. }
    specialize (H h Hh). destruct h; [congruence|discriminate].
  - apply Forall_forall. intros c Hc. apply filter_In in Hc as [Hc _]. auto.
Qed.

Lemma merge_edge_same comps e u v :
  same_component comps u v -> same_component (merge_edge comps e) u v.
Proof.
  intros (c & Hc & Hu & Hv). unfold merge_edge.
  destruct (filter (touches e) comps) as [|h hit] eqn:E.
  - exists c. auto.
  - rewrite <- E. destruct (touches e c) eqn:Et.
    + exists (List.concat (filter (touches e) comps)). split; [left; reflexivity|].
      split; apply in_concat; exists c; (split; [apply filter_In|]); auto.
    + exists c. split; [|auto]. right. apply filter_In. rewrite Et. auto.
Qed.

Lemma merge_edge_joins comps u v :
  In u (List.concat comps) -> In v (List.concat comps) ->
  same_component (merge_edge comps (u, v)) u v.
Proof.
  intros Hu Hv. apply in_concat in Hu as (cu & Hcu & Hu).
  apply in_concat in Hv as (cv & Hcv & Hv).
  assert (Htu : touches (u, v) cu = true).
  { unfold touches. cbn. apply orb_true_iff. left. apply mem_In, Hu. }
  assert (Htv : touches (u, v) cv = true).
  { unfold touches. cbn. apply orb_true_iff. right. apply mem_In, Hv. }
  unfold merge_edge.
  destruct (filter (touches (u, v)) comps) as [|h hit] eqn:E.
  - exfalso. assert (Hin : In cu (filter (touches (u, v)) comps))
      by (apply filter_In; auto).
    rewrite E in Hin. destruct Hin.
  - rewrite <- E. exists (List.concat (filter (touches (u, v)) comps)).
    split; [left; reflexivity|].
    split; apply in_concat; [exists cu|exists cv]; (split; [apply filter_In|]); auto.
Qed.

Lemma merge_edges_spec edges :
  forall comps,
    (forall u v, In (u, v) edges -> In u (List.concat comps) /\ In v (List.concat comps)) ->
    let final := fold_left merge_edge edges comps in
    Permutation (List.concat final) (List.concat comps) /\
    (Forall (fun c => c <> []) comps -> Forall (fun c => c <> []) final) /\
    (forall u v, same_component comps u v -> same_component final u v) /\
    (forall u v, In (u, v) edges -> same_component final u v).
Proof.
  induction edges as [|[a b] edges IH]; intros comps Hcov; cbn [fold_left].
  - repeat split; auto. intros u v [].
  - destruct (IH (merge_edge comps (a, b))) as (H1 & H2 & H3 & H4).
    { intros u v Hin. destruct (Hcov u v (or_intror Hin)) as [Hu Hv].
      split; apply (Permutation_in _ (Permutation_sym (merge_edge_concat _ _)));
        assumption. }
    repeat split.
    + etransitivity; [exact H1|apply merge_edge_concat].
    + intro Hne. apply H2, merge_edge_nonempty, Hne.
    + intros u v Hs. apply H3, merge_edge_same, Hs.
    + intros u v [Heq|Hin]; [|auto]. inversion Heq; subst.
      destruct (Hcov u v (or_introl eq_refl)) as [Hu Hv].
      apply H3, merge_edge_joins; assumption.
Qed.

Lemma add_edges_pairs keys u v :
  In u keys -> In v keys -> u <> v ->
  In (u, v) (add_edges keys) \/ In (v, u) (add_edges keys).
Proof.
  induction keys as [|k keys IH]; intros Hu Hv Hne; [destruct Hu|].
  cbn [add_edges]. destruct Hu as [->|Hu], Hv as [->|Hv].
  - congruence.
  - left. apply in_or_app. left. apply in_map. exact Hv.
  - right. apply in_or_app. left. apply in_map. exact Hu.
  - destruct (IH Hu Hv Hne); [left|right]; apply in_or_app; right; assumption.
Qed.

Lemma add_edges_In keys u v : In (u, v) (add_edges keys) -> In u keys /\ In v keys.
Proof.
  induction keys as [|k keys IH]; cbn [add_edges]; [intros []|].
  intro H. apply in_app_or in H as [H|H].
  - apply in_map_iff in H as (x & Hx & Hin). inversion Hx; subst.
    split; [left; reflexivity|right; exact Hin].
  - destruct (IH H). split; right; assumption.
Qed.

Lemma concat_singletons (nodes : list string) :
  List.concat (map (fun n => [n]) nodes) = nodes.
Proof. induction nodes as [|n nodes IH]; cbn; [|rewrite IH]; reflexivity. Qed.

(** The keys of one relation are all connected: their graph has at most
    one component. *)
Lemma clique_one_component keys :
  List.length (_connected_components (set_update [] keys) (add_edges keys)) <= 1.
Proof.
  unfold _connected_components.
  set (nodes := set_update [] keys).
  set (comps := map (fun n => [n]) nodes).
  assert (Hnodes : forall x, In x nodes <-> In x keys).
  { intro x. unfold nodes. rewrite set_update_In. simpl. tauto. }
  assert (Hnd : NoDup nodes) by (apply set_update_NoDup; constructor).
  destruct (merge_edges_spec (add_edges keys) comps) as (H1 & H2 & H3 & H4).
  { intros u v Hin. apply add_edges_In in Hin as [Hu Hv].
    unfold comps. rewrite concat_singletons. split; apply Hnodes; assumption. }
  set (final := fold_left merge_edge (add_edges keys) comps) in *.
  unfold comps in H1. rewrite concat_singletons in H1.
  assert (Hne : Forall (fun c => c <> []) final).
  { apply H2. unfold comps. apply Forall_forall. intros c Hc.
    apply in_map_iff in Hc as (n & <- & _). discriminate. }
  assert (Hsame : forall u v, In u (List.concat final) -> In v (List.concat final) ->
                              same_component final u v).
  { intros u v Hu Hv. destruct (string_dec u v) as [->|Huv].
    - apply in_concat in Hv as (c & Hc & Hv). exists c. auto.
    - assert (Hu' : In u keys) by (apply Hnodes, (Permutation_in _ H1), Hu).
      assert (Hv' : In v keys) by (apply Hnodes, (Permutation_in _ H1), Hv).
      destruct (add_edges_pairs keys u v Hu' Hv' Huv) as [Hin|Hin].
      + apply H4, Hin.
      + destruct (H4 _ _ Hin) as (c & Hc & Hcv & Hcu). exists c. auto. }
  assert (Hnd' : NoDup (List.concat final)).
  { apply (Permutation_NoDup (Permutation_sym H1)), Hnd. }
  destruct final as [|c1 [|c2 rest]]; cbn [List.length]; try lia.
  exfalso. inversion Hne as [|? ? Hc1 Hne']; subst.
  inversion Hne' as [|? ? Hc2 _]; subst.
  destruct c1 as [|x1 c1]; [congruence|]. destruct c2 as [|x2 c2]; [congruence|].
  destruct (Hsame x1 x2) as (c & Hc & Hx1 & Hx2).
  { cbn. left. reflexivity. }
  { cbn. right. apply in_or_app. right. left. reflexivity. }
  cbn [List.concat] in Hnd'.
  assert (Hdis : forall x, In x (x1 :: c1) -> In x ((x2 :: c2) ++ List.concat rest) -> False).
  { intros x Hx Hx'. revert Hnd'. clear -Hx Hx'. intro Hnd'.
    induction (x1 :: c1) as [|y l IH]; [destruct Hx|].
    cbn in Hnd'. inversion Hnd' as [|? ? Hnin Hnd'']; subst.
    destruct Hx as [->|Hx]; [|auto].
    apply Hnin. apply in_or_app. right. exact Hx'. }
  destruct Hc as [<-|[<-|Hc]].
  - apply (Hdis x2 Hx2). left. reflexivity.
  - apply (Hdis x1); [left; reflexivity|]. apply in_or_app. left. exact Hx1.
  - apply (Hdis x1); [left; reflexivity|]. apply in_or_app. right.
    apply in_concat. exists c. auto.
Qed.

(** * The query of the identifiers 10 and 20 *)

Lemma dict_get_find {V : Type} (p : V -> bool) k (d : pydict V) v :
  dict_get k d = Some v -> p v = true ->
  find (fun '(rel, x) => mem rel [k] && p x) d = Some (k, v).
Proof.
  induction d as [|[k' v'] d IH]; cbn [dict_get find mem]; [discriminate|].
  rewrite (String.eqb_sym k' k).
  destruct (String.eqb_spec k k') as [->|Hne].
  - intros H Hp. inversion H; subst. rewrite Hp. reflexivity.
  - cbn [andb]. exact IH.
Qed.

Lemma add_keys_single rel fs added :
  forall cols,
    add_keys rel fs added [(rel, cols)] =
    [(rel, cols ++ map name
                     (filter (fun f => is_key f && negb (mem (qualify rel (name f)) added))
                             fs))].
Proof.
  unfold add_keys. induction fs as [|f fs IH]; intro cols; cbn [fold_left filter map].
  - rewrite app_nil_r. reflexivity.
  - destruct (is_key f && negb (mem (qualify rel (name f)) added)).
    + cbn [setdefault_append]. rewrite String.eqb_refl, IH.
      rewrite <- app_assoc. reflexivity.
    + apply IH.
Qed.

Section IdsQuery.

Variable set_iter : list string -> list string.
Hypothesis set_iter_perm : forall l, Permutation (set_iter l) l.

Lemma set_iter_nil : set_iter [] = [].
Proof. apply Permutation_nil, Permutation_sym, set_iter_perm. Qed.

Lemma set_iter_single x : set_iter [x] = [x].
Proof. apply Permutation_length_1_inv, Permutation_sym, set_iter_perm. Qed.

Lemma plan_ids db fs :
  dict_get "item" (schema db) = Some fs ->
  has_field "i-id" fs = true ->
  _make_execution_plan set_iter ["i-id"] ["item"] (Some ids_parsed) db
  = Ret (["item.i-id"], [("item", "i-id" :: other_keys fs)], Some ids_condition).
Proof.
  intros Hitem Hfield.
  assert (Hres : _make_qname_resolver (_make_schema_map db ["item"]) "i-id"
                 = Ret "item.i-id").
  { rewrite resolver_first_relation by reflexivity.
    unfold first_relation.
    rewrite (dict_get_find (has_field "i-id") "item" (schema db) fs Hitem Hfield).
    reflexivity. }
  unfold _make_execution_plan, ids_parsed.
  cbn [list_eqb String.eqb Ascii.eqb Bool.eqb andb mapM].
  rewrite Hres. cbn [bind _process_condition_fields].
  rewrite Hres. cbn [bind set_update fold_left set_add mem app sorted fold_right
                     insert_sorted].
  cbn [String.eqb Ascii.eqb Bool.eqb].
  unfold _plan_joins.
  match goal with
  | |- context [requested ?a ?b ?c ?d] =>
      change (requested a b c d) with ([("item", ["i-id"])], ["item.i-id"], ["item"])
  end.
  unfold _pivot_relations, pivot_relations_in.
  rewrite set_iter_single. cbn [key_graph].
  unfold dict_lookup at 1. rewrite keymap_get, Hitem. cbn [option_map bind key_graph app].
  assert (Hloop : forall fuel keymap relset nodes edges,
            pivot_loop fuel keymap relset nodes edges []
              (_connected_components (set_update [] (map name (filter is_key fs)))
                                     (add_edges (map name (filter is_key fs))))
            = Ret []).
  { intros fuel keymap relset nodes edges.
    pose proof (clique_one_component (map name (filter is_key fs))) as Hc.
    destruct fuel; cbn [pivot_loop];
      destruct (Nat.ltb_spec 1 (List.length
        (_connected_components (set_update [] (map name (filter is_key fs)))
                               (add_edges (map name (filter is_key fs))))));
      try lia; reflexivity. }
  rewrite Hloop. cbn [bind].
  rewrite set_iter_nil. cbn [set_update fold_left]. rewrite set_iter_single.
  unfold order_joins. cbn [always_add_keys].
  unfold dict_lookup at 1. rewrite Hitem. cbn [bind].
  rewrite add_keys_single. cbn [bind app]. fold (other_keys fs).
  destruct (schema db) as [|entry sch] eqn:Esch; [discriminate Hitem|].
  cbn [List.length join_order find truthy_list negb orb].
  unfold dict_lookup. rewrite keymap_get, Esch, Hitem. cbn [option_map bind].
  cbn [dict_pop String.eqb Ascii.eqb Bool.eqb].
  destruct (List.length sch); reflexivity.
Qed.

End IdsQuery.

Lemma dict_get_set_same {V : Type} k (v : V) d : dict_get k (dict_set k v d) = Some v.
Proof.
  induction d as [|[k' v'] d IH]; cbn [dict_set dict_get].
  - rewrite String.eqb_refl. reflexivity.
  - destruct (String.eqb_spec k k') as [->|Hne]; cbn [dict_get].
    + rewrite String.eqb_refl. reflexivity.
    + destruct (String.eqb_spec k k'); [congruence|exact IH].
Qed.

Lemma dict_get_set_other {V : Type} k k' (v : V) d :
  k <> k' -> dict_get k (dict_set k' v d) = dict_get k d.
Proof.
  intro Hne. induction d as [|[k'' v''] d IH]; cbn [dict_set dict_get].
  - destruct (String.eqb_spec k k'); [congruence|reflexivity].
  - destruct (String.eqb_spec k' k'') as [->|Hne']; cbn [dict_get].
    + destruct (String.eqb_spec k k''); [congruence|reflexivity].
    + destruct (String.eqb k k''); [reflexivity|exact IH].
Qed.

Lemma index_fields_other fs :
  forall start index n,
    ~ In n (map name fs) -> dict_get n (index_fields start fs index) = dict_get n index.
Proof.
  induction fs as [|f fs IH]; intros start index n Hn; cbn [index_fields];
    [reflexivity|].
  rewrite IH by (intro H; apply Hn; right; exact H).
  apply dict_get_set_other. intro E. apply Hn. left. symmetry. exact E.
Qed.

Lemma index_fields_found fs :
  forall start index n,
    In n (map name fs) ->
    exists i f,
      dict_get n (index_fields start fs index) = Some (start + i) /\
      nth_error fs i = Some f /\ name f = n.
Proof.
  induction fs as [|f fs IH]; intros start index n Hn; [destruct Hn|].
  cbn [index_fields].
  destruct (in_dec string_dec n (map name fs)) as [Hin|Hnin].
  - destruct (IH (S start) (dict_set (name f) start index) n Hin) as (i & g & H1 & H2 & H3).
    exists (S i), g. repeat split; auto. rewrite H1. f_equal. lia.
  - destruct Hn as [Hn|Hn]; [|contradiction].
    exists 0, f. rewrite index_fields_other by exact Hnin.
    rewrite <- Hn, dict_get_set_same. repeat split. f_equal. lia.
Qed.

(** Fetching columns that the relation has: their positions and their
    fields. *)
Lemma fetch_fields fs names :
  (forall n, In n names -> In n (map name fs)) ->
  exists indices new,
    mapM (fun col => dict_lookup col (make_field_index fs)) names = Ret indices /\
    mapM (fun idx =>
            match nth_error fs idx with
            | Some f => Ret f
            | None => Raise (IndexError "list index out of range")
            end) indices = Ret new /\
    map name new = names.
Proof.
  induction names as [|n names IH]; intro Hin.
  - exists [], []. repeat split.
  - destruct IH as (indices & new & H1 & H2 & H3).
    { intros m Hm. apply Hin. right. exact Hm. }
    destruct (index_fields_found fs 0 [] n (Hin n (or_introl eq_refl)))
      as (i & f & G1 & G2 & G3).
    exists (i :: indices), (f :: new). cbn [mapM].
    unfold dict_lookup at 1. unfold make_field_index at 1. rewrite G1. cbn [bind].
    rewrite H1. cbn [bind plus]. rewrite G2. cbn [bind]. rewrite H2. cbn [bind map].
    rewrite G3, H3. repeat split.
Qed.

Lemma has_field_In col fs : has_field col fs = true -> In col (map name fs).
Proof.
  unfold has_field. intro H. apply existsb_exists in H as (f & Hf & E).
  apply String.eqb_eq in E. subst. apply in_map. exact Hf.
Qed.

Lemma other_keys_In fs n :
  In n (other_keys fs) -> In n (map name fs) /\ qualify "item" n <> "item.i-id".
Proof.
  unfold other_keys. intro H. apply in_map_iff in H as (f & <- & Hf).
  apply filter_In in Hf as [Hf Hp]. split; [apply in_map, Hf|].
  apply andb_true_iff in Hp as [_ Hp]. apply negb_true_iff in Hp.
  cbn [mem] in Hp. destruct (String.eqb_spec (qualify "item" (name f)) "item.i-id");
    [discriminate Hp|assumption].
Qed.

Lemma merge_each_spec relationname new :
  forall i fs index k v,
    dict_get k index = Some v ->
    (forall f, In f new -> qualify relationname (name f) <> k) ->
    fst (merge_each relationname i new fs index) = fs ++ new /\
    dict_get k (snd (merge_each relationname i new fs index)) = Some v.
Proof.
  induction new as [|f new IH]; intros i fs index k v Hk Hne; cbn [merge_each].
  - rewrite app_nil_r. auto.
  - destruct (IH (S i) (fs ++ [f])
                (dict_set (qualify relationname (name f)) i
                   (if dict_contains (name f) index then index
                    else dict_set (name f) i index)) k v) as [H1 H2].
    + rewrite dict_get_set_other by (intro E; apply (Hne f); [left; reflexivity|auto]).
      unfold dict_contains. destruct (dict_get (name f) index) eqn:E; [exact Hk|].
      rewrite dict_get_set_other; [exact Hk|]. intro E'. subst. congruence.
    + intros g Hg. apply Hne. right. exact Hg.
    + rewrite H1, <- app_assoc. auto.
Qed.

Lemma mapM_pure {A B : Type} (f : A -> outcome B) (g : A -> B) l :
  (forall a, In a l -> f a = Ret (g a)) -> mapM f l = Ret (map g l).
Proof.
  induction l as [|a l IH]; intro H; cbn [mapM map]; [reflexivity|].
  rewrite (H a (or_introl eq_refl)). cbn [bind].
  rewrite IH by (intros b Hb; apply H; right; exact Hb). reflexivity.
Qed.

Lemma filter_rows_pure func (p : list value -> bool) rows :
  (forall r, In r rows -> func r = Ret (p r)) ->
  filter_rows func rows = Ret (filter p rows).
Proof.
  induction rows as [|r rows IH]; intro H; cbn [filter_rows filter]; [reflexivity|].
  rewrite (H r (or_introl eq_refl)). cbn [bind].
  rewrite IH by (intros b Hb; apply H; right; exact Hb). reflexivity.
Qed.

Lemma filter_first_column (g : list value -> list value) (c : list value -> value)
      (table : list (list value)) :
  (forall r, exists rest, g r = c r :: rest) ->
  map (fun r : list value => [hd VNone r]) (filter first_is_10_or_20 (map g table))
  = filter id_is_10_or_20 (map (fun r => [c r]) table).
Proof.
  intro Hg. induction table as [|r table IH]; [reflexivity|].
  cbn [map filter]. destruct (Hg r) as [rest E]. rewrite E.
  cbn [first_is_10_or_20 id_is_10_or_20].
  destruct (c r) as [z| | |]; try exact IH.
  destruct ((z =? 10)%Z || (z =? 20)%Z); [|exact IH].
  cbn [map hd]. rewrite IH. reflexivity.
Qed.

Section IdsResult.

Variable set_iter : list string -> list string.
Variable re_search : string -> string -> option bool.
Variable date_eqb : string -> string -> bool.
Variable date_ltb : string -> string -> bool.
Hypothesis set_iter_perm : forall l, Permutation (set_iter l) l.

(** The filter of the resolved condition on a row whose first column is
    [item.i-id]. *)
Lemma ids_filter index :
  dict_get "item.i-id" index = Some 0 ->
  exists func,
    _process_condition_function re_search date_eqb date_ltb ids_condition index
    = Ret func /\
    forall r, r <> [] -> func r = Ret (first_is_10_or_20 r).
Proof.
  intro Hidx.
  exists (any_of
            [fun r => idx <- dict_lookup "item.i-id" index ;;
                      v <- row_get r idx ;; Ret (value_eqb date_eqb v (VInt 10));
             fun r => idx <- dict_lookup "item.i-id" index ;;
                      v <- row_get r idx ;; Ret (value_eqb date_eqb v (VInt 20))]).
  split; [reflexivity|].
  intros [|v r] Hr; [congruence|].
  cbn [any_of]. unfold dict_lookup. rewrite Hidx. cbn [bind row_get nth_error].
  destruct v as [z| | |]; cbn [value_eqb first_is_10_or_20 bind]; try reflexivity.
  destruct (z =? 10)%Z; cbn [orb]; [reflexivity|].
  destruct (z =? 20)%Z; reflexivity.
Qed.

(** C5. On every database whose schema has the relation [item] with a
    field [i-id], the query [select i-id from item where i-id = 10 or
    i-id = 20] returns the rows of the column [i-id] of [item], in their
    order, whose value is the integer 10 or 20, whatever the rows of the
    relation and their order. *)
Theorem select_ids_10_or_20 db fs :
  dict_get "item" (schema db) = Some fs ->
  has_field "i-id" fs = true ->
  exists ids,
    select_from db "item" ["i-id"] = Ret ids /\
    query_rows set_iter re_search date_eqb date_ltb ids_query db
    = Ret (filter id_is_10_or_20 ids).
Proof.
  intros Hitem Hfield.
  destruct (fetch_fields fs ("i-id" :: other_keys fs)) as (indices & new & Hcols & Hnew & Hnames).
  { intros n [<-|Hn]; [apply has_field_In, Hfield|apply other_keys_In in Hn; tauto]. }
  assert (Hshape : exists idx0 idxs f0 news,
             indices = idx0 :: idxs /\ new = f0 :: news /\
             dict_lookup "i-id" (make_field_index fs) = Ret idx0 /\
             name f0 = "i-id" /\ map name news = other_keys fs).
  { cbn [mapM] in Hcols.
    destruct (dict_lookup "i-id" (make_field_index fs)) as [idx0| |]; cbn [bind] in Hcols;
      try discriminate Hcols.
    destruct (mapM _ (other_keys fs)) as [idxs| |]; cbn [bind] in Hcols;
      try discriminate Hcols.
    inversion Hcols; subst indices. cbn [mapM] in Hnew.
    destruct (nth_error fs idx0) as [f0|]; cbn [bind] in Hnew; try discriminate Hnew.
    destruct (mapM _ idxs) as [news| |]; cbn [bind] in Hnew; try discriminate Hnew.
    inversion Hnew; subst new. cbn [map] in Hnames. inversion Hnames.
    exists idx0, idxs, f0, news. repeat split; assumption. }
  destruct Hshape as (idx0 & idxs & f0 & news & -> & -> & Hidx0 & Hf0 & Hnews).
  exists (map (fun r => [nth idx0 r VNone]) (table_rows db "item")). split.
  { unfold select_from. unfold dict_lookup at 1. rewrite Hitem. cbn [bind mapM].
    rewrite Hidx0. reflexivity. }
  assert (Hparse : _parse_query ids_query
                   = Ret (mk_queryobj "select" ["i-id"] ["item"] (Some ids_parsed)))
    by (vm_compute; reflexivity).
  unfold query_rows, query. rewrite Hparse.
  cbn [bind q_type q_projection q_relations q_condition mem String.eqb Ascii.eqb Bool.eqb].
  unfold _select. rewrite (plan_ids set_iter set_iter_perm db fs Hitem Hfield).
  cbn [bind join_all]. unfold _join, new_selection.
  cbn [mem String.eqb Ascii.eqb Bool.eqb negb sel_joined truthy_list].
  unfold dict_lookup at 1. rewrite Hitem. cbn [bind]. rewrite Hcols. cbn [bind].
  rewrite Hnew. cbn [bind]. unfold _merge_fields.
  cbn [sel_fields sel_field_index sel_data sel_projection sel_joined List.length
       merge_each].
  rewrite Hf0.
  cbn [dict_contains dict_get dict_set qualify append String.eqb Ascii.eqb Bool.eqb].
  destruct (merge_each_spec "item" news 1 ([] ++ [f0])
              [("i-id", 0); ("item.i-id", 0)] "item.i-id" 0 eq_refl) as [Hm1 Hm2].
  { intros f Hf. apply (in_map name) in Hf. rewrite Hnews in Hf.
    apply other_keys_In in Hf. tauto. }
  destruct (merge_each "item" 1 news ([] ++ [f0]) [("i-id", 0); ("item.i-id", 0)])
    as [fs' index].
  cbn [fst snd] in Hm1, Hm2. subst fs'.
  cbn [merge_on bind set_add mem app].
  assert (Hrows : select_from db "item" ("i-id" :: other_keys fs)
                  = Ret (map (fun r => map (fun idx => nth idx r VNone) (idx0 :: idxs))
                             (table_rows db "item"))).
  { unfold select_from. unfold dict_lookup at 1. rewrite Hitem. cbn [bind].
    rewrite Hcols. reflexivity. }
  rewrite Hrows.
  cbn [bind sel_fields sel_field_index sel_data sel_projection sel_joined].
  destruct (ids_filter index Hm2) as (func & Hfunc & Hrun).
  rewrite Hfunc. cbn [bind].
  rewrite (filter_rows_pure func first_is_10_or_20).
  2: { intros r Hr. apply Hrun. apply in_map_iff in Hr as (r0 & <- & _). discriminate. }
  cbn [bind sel_fields sel_field_index sel_data sel_projection sel_joined].
  unfold selection_rows, select_rows.
  cbn [sel_fields sel_field_index sel_data sel_projection sel_joined truthy_list mapM].
  unfold dict_lookup. rewrite Hm2. cbn [bind nth_error].
  rewrite (mapM_pure _ (fun r : list value => [hd VNone r])).
  2: { intros r Hr. apply filter_In in Hr as [Hr _].
       apply in_map_iff in Hr as (r0 & <- & _). reflexivity. }
  rewrite (filter_first_column _ (fun r => nth idx0 r VNone));
    [reflexivity|].
  intro r. eexists. reflexivity.
Qed.

End IdsResult.

Lemma select_ids_10_or_20_witness :
  exists ids,
    select_from item_db "item" ["i-id"] = Ret ids /\
    run_query ids_query item_db = Ret (filter id_is_10_or_20 ids).
Proof.
  apply (select_ids_10_or_20 (fun l => l) no_search String.eqb String.ltb
           (fun l => Permutation_refl l) item_db item_fields);
    reflexivity.
Defined.

(** * Where clauses: the examples *)

Lemma where_clauses_conjoin_witness :
  _parse_select_where
    (parser_fuel (tok_where :: body_A_tokens ++ tok_where :: body_B_tokens ++ [tok_dot]))
    (tok_where :: body_A_tokens ++ tok_where :: body_B_tokens ++ [tok_dot])
  = Ret (Some (BoolOp "and" [cond_A; cond_B]), [tok_dot]) /\
  _parse_select_where
    (parser_fuel (tok_where :: tok_lparen :: body_A_tokens ++ tok_rparen :: tok_and
                    :: tok_lparen :: body_B_tokens ++ [tok_rparen; tok_dot]))
    (tok_where :: tok_lparen :: body_A_tokens ++ tok_rparen :: tok_and
       :: tok_lparen :: body_B_tokens ++ [tok_rparen; tok_dot])
  = Ret (Some (BoolOp "and" [cond_A; cond_B]), [tok_dot]).
Proof.
  apply (where_clauses_conjoin 20 20 body_A_tokens body_B_tokens cond_A cond_B);
    reflexivity.
Defined.

(** C4 as stated fails: with [A] the body [i-id = 10 or i-id = 20] and
    [B] the body [i-wf = 0], the clauses [where A where B] parse to the
    conjunction of [A] and [B], the clause [where A and B] to the
    disjunction of the first comparison of [A] and of the conjunction of
    the second with [B], and the two queries select different rows of the
    example profile. *)
Lemma where_clauses_not_textual_and :
  parse_where ("where " ++ body_A ++ " where " ++ body_B)
  = Ret (Some (BoolOp "and" [cond_A; cond_B]), [tok_dot]) /\
  parse_where ("where " ++ body_A ++ " and " ++ body_B)
  = Ret (Some (BoolOp "or"
                 [Cmp "==" "i-id" (VInt 10);
                  BoolOp "and" [Cmp "==" "i-id" (VInt 20); cond_B]]), [tok_dot]) /\
  run_query ("select i-id i-wf where " ++ body_A ++ " where " ++ body_B) item_db
  = Ret [[VInt 10; VInt 0]] /\
  run_query ("select i-id i-wf where " ++ body_A ++ " and " ++ body_B) item_db
  = Ret [[VInt 10; VInt 1]; [VInt 10; VInt 0]].
Proof. repeat split; vm_compute; reflexivity. Qed.

(** * Further properties of the module *)

(** ** The lexer and the parser *)


Lemma lang_alts_lit texts w : lang (Alts (map Lit texts)) w -> In w texts.
Proof.
  induction texts as [|a [|b texts] IH]; cbn [map Alts]; intro H.
  - inversion H; subst. discriminate.
  - inversion H; subst. left. reflexivity.
  - inversion H as [| | | |r1 r2 w0 H1|r1 r2 w0 H1| | | | |]; subst.
    + inversion H1; subst. left. reflexivity.
    + right. apply IH. assumption.
Qed.

Lemma In_mem x l : In x l -> mem x l = true.
Proof. apply mem_In. Qed.

Lemma lang_id_truthy w : lang _id w -> truthy w = true.
Proof.
  unfold _id. intro L.
  inversion L as [| | |r1 r2 w1 w2 H1 H2| | | | | | |]; subst.
  inversion H1; subst. reflexivity.
Qed.

Lemma best_match_ok s tok rest :
  best_match tokens s = Some (tok, rest) -> token_ok tok = true.
Proof.
  intro H. apply best_match_in in H as (r & Hin & Hm).
  destruct tok as [t text]. cbn [fst snd] in *.
  apply rule_match_sound in Hm as (w & _ & L & G).
  unfold tokens in Hin. cbn [In] in Hin.
  repeat (destruct Hin as [Hin|Hin];
          [inversion Hin; subst r t; clear Hin; try reflexivity|]);
    try (rewrite (G eq_refl); unfold token_ok; cbn [fst snd keyword_texts];
         first [ inversion L; subst; reflexivity
               | apply In_mem;
                 match goal with |- In _ ?l => exact (lang_alts_lit l _ L) end ]).
  - rewrite (G eq_refl). unfold token_ok. cbn [fst snd keyword_texts].
    apply (lang_int w L).
  - rewrite (G eq_refl). unfold token_ok. cbn [fst snd keyword_texts].
    unfold _qid in L. cbn [Seq] in L.
    inversion L as [| | |r1 r2 w1 w2 H1 H2| | | | | | |]; subst.
    apply lang_id_truthy in H1. destruct w1; [discriminate|reflexivity].
  - rewrite (G eq_refl). unfold token_ok. cbn [fst snd keyword_texts].
    apply lang_id_truthy. assumption.
  - destruct Hin.
Qed.

Lemma lex_line_ok fuel s : forallb token_ok (lex_line fuel s) = true.
Proof.
  revert s. induction fuel as [|f IH]; intro s; [reflexivity|].
  cbn [lex_line]. destruct s as [|c s']; [reflexivity|].
  destruct (best_match tokens (String c s')) as [[tok rest]|] eqn:E; [|apply IH].
  destruct (String.length rest <? String.length (String c s'))%nat; [|apply IH].
  cbn [forallb]. rewrite (best_match_ok _ _ _ E), IH. reflexivity.
Qed.

Lemma lex_ok lines : forallb token_ok (lex lines) = true.
Proof.
  unfold lex. induction lines as [|l lines IH]; [reflexivity|].
  cbn [flat_map]. rewrite forallb_app, lex_line_ok, IH. reflexivity.
Qed.
Lemma projection_columns_ret fuel col_id lx cols rest :
  projection_columns fuel col_id lx = Ret (cols, rest) ->
  (exists p, lx = p ++ rest) /\
  (accepted col_id = true -> truthy_list cols = true).
Proof.
  revert col_id lx cols rest. induction fuel as [|f IH]; intros col lx cols rest H.
  - discriminate H.
  - cbn [projection_columns] in H. destruct col as [text|].
    + cbn [accepted]. destruct (truthy text).
      * destruct (accept_type _QID lx) as [q lx1] eqn:E1.
        apply accept_type_suffix in E1 as [p1 ->].
        destruct (accepted q).
        -- destruct (projection_columns f q lx1) as [[cols' lx2]| |] eqn:E2;
             cbn [bind] in H; try discriminate.
           inversion H; subst. apply IH in E2 as [[p2 ->] _]. split; [|reflexivity].
           exists (p1 ++ p2). rewrite <- app_assoc. reflexivity.
        -- destruct (accept_type _ID lx1) as [next lx2] eqn:E3.
           apply accept_type_suffix in E3 as [p3 ->].
           destruct (projection_columns f next lx2) as [[cols' lx3]| |] eqn:E2;
             cbn [bind] in H; try discriminate.
           inversion H; subst. apply IH in E2 as [[p2 ->] _]. split; [|reflexivity].
           exists (p1 ++ p3 ++ p2). rewrite <- !app_assoc. reflexivity.
      * inversion H; subst. split; [exists []; reflexivity|discriminate].
    + inversion H; subst. split; [exists []; reflexivity|discriminate].
Qed.

Lemma projection_stage fuel lx :
  match _parse_select_projection fuel lx with
  | Ret (proj, rest) =>
      (exists p, lx = p ++ rest) /\ (forallb token_ok lx = true -> proj <> [])
  | Raise e => syntax_other e = true
  | Fuel => fuel < List.length lx + 2
  end.
Proof.
  unfold _parse_select_projection.
  destruct (choice_type [_STAR; _QID; _ID] lx) as [[[typ col_id] lx1]| |] eqn:E1;
    cbn [bind].
  - apply choice_type_ret in E1 as [-> Hin].
    destruct (type_in typ [_QID; _ID]) eqn:Et.
    + destruct (projection_columns fuel (Some col_id) lx1) as [[proj rest]| |] eqn:E2.
      * apply projection_columns_ret in E2 as [[p ->] Hne]. split.
        -- exists ((typ, col_id) :: p). reflexivity.
        -- cbn [forallb]. intros Hok Hnil. apply andb_true_iff in Hok as [Hok _].
           assert (Ht : truthy col_id = true).
           { unfold token_ok in Hok. cbn [fst snd] in Hok.
             destruct typ; try discriminate Et; exact Hok. }
           specialize (Hne Ht). subst proj. discriminate Hne.
      * exfalso. exact (projection_columns_raises _ _ _ _ E2).
      * cbn [List.length].
        destruct (Nat.lt_ge_cases fuel (S (List.length lx1) + 2)) as [Hlt|Hge];
          [exact Hlt|].
        exfalso. apply (projection_columns_total fuel (Some col_id) lx1); [lia|exact E2].
    + split; [exists [(typ, col_id)]; reflexivity|discriminate].
  - exact (choice_type_raises _ _ _ E1).
  - exfalso. exact (choice_type_not_fuel _ _ E1).
Qed.

Lemma from_stage fuel lx :
  match _parse_select_from fuel lx with
  | Ret (rels, rest) => exists p, lx = p ++ rest
  | Raise e => syntax_other e = true
  | Fuel => fuel < List.length lx + 2
  end.
Proof.
  unfold _parse_select_from.
  destruct (accept_type _FROM lx) as [tok lx1] eqn:E1.
  pose proof (accept_type_length _ _ _ _ E1) as [Hl1 _].
  apply accept_type_suffix in E1 as [p1 ->].
  destruct (accepted tok); [|exists p1; reflexivity].
  destruct (expect_type _ID lx1) as [[relation lx2]| |] eqn:E2; cbn [bind].
  - apply expect_type_ret in E2 as ->.
    destruct (from_relations fuel (Some relation) lx2) as [[rels rest]| |] eqn:E3.
    + apply from_relations_ret in E3 as [[p ->] _].
      exists (p1 ++ (_ID, relation) :: p). rewrite <- app_assoc. reflexivity.
    + exfalso. exact (from_relations_raises _ _ _ _ E3).
    + cbn [List.length] in Hl1.
      destruct (Nat.lt_ge_cases fuel (List.length (p1 ++ (_ID, relation) :: lx2) + 2))
        as [Hlt|Hge]; [exact Hlt|].
      exfalso. apply (from_relations_total fuel (Some relation) lx2); [lia|exact E3].
  - exact (expect_type_raises _ _ _ E2).
  - exfalso. exact (expect_type_not_fuel _ _ E2).
Qed.

Lemma where_stage fuel lx :
  match _parse_select_where fuel lx with
  | Ret (c, rest) => exists p, lx = p ++ rest
  | Raise e => raises lx e
  | Fuel => fuel < 2 * List.length lx + 1
  end.
Proof.
  unfold _parse_select_where.
  destruct (where_conditions fuel lx) as [[conditions rest]| |] eqn:E; cbn [bind].
  - apply where_conditions_suffix in E.
    destruct conditions as [|c [|c' cs]]; exact E.
  - exact (where_conditions_raises _ _ _ E).
  - destruct (Nat.lt_ge_cases fuel (2 * List.length lx + 1)) as [Hlt|Hge]; [exact Hlt|].
    exfalso. exact (where_conditions_total fuel lx Hge E).
Qed.

Lemma raises_syntax lx e : syntax_other e = true -> raises lx e.
Proof. intro H. left. exact H. Qed.

(** What [parse_select_lexer] does on any token stream. *)
Lemma parse_select_lexer_stages fuel lx :
  match parse_select_lexer fuel lx with
  | Ret q =>
      q_type q = "select" /\
      (forallb token_ok lx = true -> q_projection q <> []) /\
      (q_projection q = ["*"] -> q_relations q <> [])
  | Raise e => raises lx e \/ e = star_requires_from
  | Fuel => fuel < 2 * List.length lx + 3
  end.
Proof.
  unfold parse_select_lexer.
  pose proof (projection_stage fuel lx) as H1.
  destruct (_parse_select_projection fuel lx) as [[proj lx1]| |]; cbn [bind];
    [|left; left; exact H1|lia].
  destruct H1 as [[p1 ->] Hproj].
  pose proof (from_stage fuel lx1) as H2.
  destruct (_parse_select_from fuel lx1) as [[rels lx2]| |]; cbn [bind];
    [|left; left; exact H2|rewrite length_app; lia].
  destruct H2 as [p2 ->].
  pose proof (where_stage fuel lx2) as H3.
  destruct (_parse_select_where fuel lx2) as [[c lx3]| |]; cbn [bind];
    [|left; do 2 apply raises_app; exact H3|rewrite !length_app; lia].
  destruct (expect_type _DOT lx3) as [[d lx4]| |] eqn:E4; cbn [bind].
  - destruct (list_eqb proj ["*"] && negb (truthy_list rels)) eqn:Estar.
    + right. reflexivity.
    + cbn [q_type q_projection q_relations]. split; [reflexivity|]. split.
      * exact Hproj.
      * intros -> ->. discriminate Estar.
  - left. left. exact (expect_type_raises _ _ _ E4).
  - exfalso. exact (expect_type_not_fuel _ _ E4).
Qed.

Lemma parse_select_stages querystring :
  match _parse_select querystring with
  | Ret q =>
      q_type q = "select" /\ q_projection q <> [] /\
      (q_projection q = ["*"] -> q_relations q <> [])
  | Raise e => exists msg, e = TSQLSyntaxError msg
  | Fuel => False
  end.
Proof.
  unfold _parse_select.
  set (lx := lex (splitlines (querystring ++ "."))).
  pose proof (parse_select_lexer_stages (parser_fuel lx) lx) as H.
  destruct (parse_select_lexer (parser_fuel lx) lx) as [q|e|].
  - destruct H as (Ht & Hp & Hs). split; [exact Ht|]. split; [|exact Hs].
    apply Hp. apply lex_ok.
  - destruct H as [H| ->]; [|eexists; reflexivity].
    apply (raises_wf lx) in H; [|apply lexed_wf, lex_lexed].
    destruct e; try discriminate H. eexists; reflexivity.
  - unfold parser_fuel in H. lia.
Qed.
Lemma accept_no_conn rest :
  hd_conn rest = None ->
  accept_type _AND rest = (None, rest) /\ accept_type _OR rest = (None, rest).
Proof.
  destruct rest as [|[t text] rest']; [split; reflexivity|].
  cbn [hd_conn accept_type]. destruct t; cbn; intro H; try discriminate H;
    split; reflexivity.
Qed.

(** X1. [inspect_query] on any query string either returns a query
    dictionary or raises [TSQLSyntaxError]: the loops of the parser end on
    every input and nothing else escapes, not even the [ValueError] of
    [int], which the integer rule of the token table rules out. *)
Theorem inspect_query_returns_or_syntax_error (querystring : string) :
  (exists q, inspect_query querystring = Ret q) \/
  (exists msg, inspect_query querystring = Raise (TSQLSyntaxError msg)).
Proof.
  unfold inspect_query, _parse_query.
  destruct (partition_space (lstrip querystring)) as [querytype querybody].
  destruct (mem (lower querytype) ["select"; "retrieve"]).
  - pose proof (parse_select_stages querybody) as H.
    destruct (_parse_select querybody) as [q|e|].
    + left. exists q. reflexivity.
    + right. destruct H as [msg ->]. exists msg. reflexivity.
    + destruct H.
  - right. eexists. reflexivity.
Qed.

(** X2. A query dictionary that [inspect_query] returns has the type
    [select] and a projection that is not empty, and names a relation
    whenever the projection is the wildcard. *)
Theorem parsed_query_shape (querystring : string) (q : queryobj) :
  inspect_query querystring = Ret q ->
  q_type q = "select" /\ q_projection q <> [] /\
  (q_projection q = ["*"] -> q_relations q <> []).
Proof.
  unfold inspect_query, _parse_query.
  destruct (partition_space (lstrip querystring)) as [querytype querybody].
  destruct (mem (lower querytype) ["select"; "retrieve"]); [|discriminate].
  intro H. pose proof (parse_select_stages querybody) as Hs.
  rewrite H in Hs. exact Hs.
Qed.

Lemma parsed_query_shape_witness :
  q_type (mk_queryobj "select" ["*"] ["item"] None) = "select" /\
  q_projection (mk_queryobj "select" ["*"] ["item"] None) <> [] /\
  (q_projection (mk_queryobj "select" ["*"] ["item"] None) = ["*"] ->
   q_relations (mk_queryobj "select" ["*"] ["item"] None) <> []).
Proof.
  apply (parsed_query_shape "retrieve * from item"). vm_compute. reflexivity.
Defined.

(** X3. The text of every token the lexer produces fits its rule of the
    token table: a keyword, operator or punctuation token carries one of
    the literals of its rule, an integer token a text that [int]
    converts, and an identifier, qualified or not, is not empty. *)
Theorem lex_token_texts (lines : list string) (tok : token) :
  In tok (lex lines) -> token_ok tok = true.
Proof.
  intro H. pose proof (lex_ok lines) as Hall.
  rewrite forallb_forall in Hall. exact (Hall tok H).
Qed.

Lemma lex_token_texts_witness : token_ok (_OP, "<=") = true.
Proof.
  apply (lex_token_texts ["i-length <= 10"]). vm_compute. right. left. reflexivity.
Defined.

(** X4. A negation takes the whole disjunction that follows it: when the
    tokens [body] parse as a disjunction to the condition [c], the tokens
    [not body] parse to [('not', c)], whatever follows, if it is not a
    connective. *)
Theorem negation_takes_disjunction fuel0 fuel body c text rest :
  _parse_condition_disjunction fuel0 (body ++ [tok_dot]) = Ret (c, [tok_dot]) ->
  2 * List.length body + 6 <= fuel ->
  hd_conn rest = None ->
  _parse_condition_disjunction fuel ((_NOT, text) :: body ++ rest) = Ret (Not c, rest).
Proof.
  intros H Hf Hr.
  destruct fuel as [|f1]; [lia|]. destruct f1 as [|f2]; [lia|].
  destruct (disjunction_body _ f2 _ _ rest H) as [_ (conds & E1 & E2)];
    [lia|exact Hr|].
  destruct (accept_no_conn rest Hr) as [Hand Hor].
  unfold _parse_condition_disjunction.
  rewrite disjunction_conds_S, conjunction_conds_S.
  cbn [choice_type type_in tokentype_eqb bind].
  rewrite E1. cbn [bind]. rewrite E2. cbn [bind].
  rewrite Hand. cbn [accepted bind conds_result]. rewrite Hor. reflexivity.
Qed.

Lemma negation_takes_disjunction_witness :
  _parse_condition_disjunction 20 ((_NOT, "not") :: body_A_tokens ++ [tok_dot])
  = Ret (Not cond_A, [tok_dot]).
Proof.
  apply (negation_takes_disjunction 20 20 body_A_tokens cond_A "not" [tok_dot]).
  - reflexivity.
  - simpl. lia.
  - reflexivity.
Defined.

(** X5. Parentheses leave no trace in the condition: when the tokens
    [body] parse as a disjunction to the condition [c], the tokens
    [( body )] parse to [c] itself. *)
Theorem parentheses_are_transparent fuel0 fuel body c rest :
  _parse_condition_disjunction fuel0 (body ++ [tok_dot]) = Ret (c, [tok_dot]) ->
  2 * List.length body + 6 <= fuel ->
  hd_conn rest = None ->
  _parse_condition_disjunction fuel (tok_lparen :: body ++ tok_rparen :: rest)
  = Ret (c, rest).
Proof.
  intros H Hf Hr.
  destruct fuel as [|f1]; [lia|]. destruct f1 as [|f2]; [lia|].
  destruct (conjunction_conds_group _ f2 _ _ rest H) as [E _]; [lia|exact Hr|].
  destruct (accept_no_conn rest Hr) as [_ Hor].
  unfold _parse_condition_disjunction.
  rewrite disjunction_conds_S, E. cbn [bind conds_result].
  rewrite Hor. reflexivity.
Qed.

Lemma parentheses_are_transparent_witness :
  _parse_condition_disjunction 20 (tok_lparen :: body_A_tokens ++ [tok_rparen; tok_dot])
  = Ret (cond_A, [tok_dot]).
Proof.
  apply (parentheses_are_transparent 20 20 body_A_tokens cond_A [tok_dot]).
  - reflexivity.
  - simpl. lia.
  - reflexivity.
Defined.
Lemma parse_query_type querystring q :
  _parse_query querystring = Ret q -> q_type q = "select".
Proof.
  unfold _parse_query.
  destruct (partition_space (lstrip querystring)) as [querytype querybody].
  destruct (mem (lower querytype) ["select"; "retrieve"]); [|discriminate].
  intro H. pose proof (parse_select_stages querybody) as Hs.
  rewrite H in Hs. exact (proj1 Hs).
Qed.

Lemma not_space_not_blank c : is_space c = false -> Ascii.eqb c " " = false.
Proof.
  intro H. destruct (Ascii.eqb c " ") eqn:E; [|reflexivity].
  apply Ascii.eqb_eq in E. subst c. discriminate H.
Qed.

Lemma partition_space_word kw rest :
  all_chars (fun c => negb (Ascii.eqb c " ")) kw = true ->
  partition_space (kw ++ String " " rest) = (kw, rest).
Proof.
  induction kw as [|c kw IH]; cbn [all_chars append partition_space]; intro H.
  - reflexivity.
  - apply andb_true_iff in H as [Hc Hkw]. apply negb_true_iff in Hc.
    rewrite Hc, (IH Hkw). reflexivity.
Qed.

(** X6. The keyword of a query is the text up to the first blank, read
    without regard to case: for a string that does not start with white
    space, [select] and [retrieve] hand the rest of the string to
    [_parse_select], and any other word is a syntax error that names it
    in lower case. *)
Theorem parse_query_keyword (c : ascii) (kw body : string) :
  is_space c = false ->
  all_chars (fun c => negb (Ascii.eqb c " ")) kw = true ->
  _parse_query (String c kw ++ " " ++ body) =
  if mem (lower (String c kw)) ["select"; "retrieve"] then _parse_select body
  else Raise (TSQLSyntaxError
                ("'" ++ lower (String c kw) ++ "' queries are not supported")).
Proof.
  intros Hc Hkw. unfold _parse_query.
  assert (Hstrip : lstrip (String c kw ++ " " ++ body)
                   = (String c kw ++ " " ++ body)%string).
  { cbn [append lstrip]. rewrite Hc. reflexivity. }
  rewrite Hstrip. change (" " ++ body)%string with (String " " body).
  rewrite (partition_space_word (String c kw) body); [reflexivity|].
  cbn [all_chars]. rewrite (not_space_not_blank c Hc). exact Hkw.
Qed.

Lemma parse_query_keyword_witness :
  _parse_query "Retrieve i-id" = _parse_select "i-id" /\
  _parse_query "insert i-id" = Raise (TSQLSyntaxError "'insert' queries are not supported").
Proof.
  split.
  - apply (parse_query_keyword "R" "etrieve" "i-id"); reflexivity.
  - apply (parse_query_keyword "i" "nsert" "i-id"); reflexivity.
Defined.

Section QuerySelect.

Variable set_iter : list string -> list string.
Variable re_search : string -> string -> option bool.
Variable date_eqb : string -> string -> bool.
Variable date_ltb : string -> string -> bool.

(** X7. The check of the query type in [query] never fails: whenever the
    query string parses, [query] runs [_select] on the parts of the
    query dictionary.  So [query] on [select] followed by a query body is
    [select] on that body. *)
Theorem query_runs_select (querystring : string) (db : Database) :
  query set_iter re_search date_eqb date_ltb querystring db =
  (queryobj <- _parse_query querystring ;;
   _select set_iter re_search date_eqb date_ltb
           (q_projection queryobj) (q_relations queryobj) (q_condition queryobj) db) /\
  query set_iter re_search date_eqb date_ltb ("select " ++ querystring) db =
  select set_iter re_search date_eqb date_ltb querystring db.
Proof.
  assert (H : forall s,
             query set_iter re_search date_eqb date_ltb s db =
             (queryobj <- _parse_query s ;;
              _select set_iter re_search date_eqb date_ltb
                      (q_projection queryobj) (q_relations queryobj)
                      (q_condition queryobj) db)).
  { intro s. unfold query.
    destruct (_parse_query s) as [q|e|] eqn:E; cbn [bind]; try reflexivity.
    rewrite (parse_query_type _ _ E). reflexivity. }
  split; [apply H|]. rewrite H. reflexivity.
Qed.

End QuerySelect.
Lemma process_condition_fields_BoolOp resolve_qname op body :
  _process_condition_fields resolve_qname (BoolOp op body) =
  ('(conditions, fieldset) <- resolve_body resolve_qname body [] ;;
   Ret (BoolOp op conditions, sorted fieldset)).
Proof. reflexivity. Qed.

Lemma resolve_body_cons resolve_qname c body fieldset :
  resolve_body resolve_qname (c :: body) fieldset =
  ('(c', fields) <- _process_condition_fields resolve_qname c ;;
   '(conditions, fieldset) <-
     resolve_body resolve_qname body (set_update fieldset fields) ;;
   Ret (c' :: conditions, fieldset)).
Proof. reflexivity. Qed.

Lemma process_condition_function_BoolOp re_search date_eqb date_ltb op body field_index :
  _process_condition_function re_search date_eqb date_ltb (BoolOp op body) field_index =
  (conditions <- compile_body re_search date_eqb date_ltb field_index body ;;
   Ret (if String.eqb op "and" then all_of conditions else any_of conditions)).
Proof. reflexivity. Qed.

Lemma compile_body_cons re_search date_eqb date_ltb field_index c body :
  compile_body re_search date_eqb date_ltb field_index (c :: body) =
  (func <- _process_condition_function re_search date_eqb date_ltb c field_index ;;
   funcs <- compile_body re_search date_eqb date_ltb field_index body ;;
   Ret (func :: funcs)).
Proof. reflexivity. Qed.

Lemma operator_known op :
  mem op ["=="; "="; "!="; "~"; "!~"; "<="; "<"; ">="; ">"] = true ->
  mem (if String.eqb op "=" then "==" else op) comparison_ops = true.
Proof.
  intro H. apply mem_In in H. cbn [In] in H.
  repeat (destruct H as [H|H]; [subst op; reflexivity|]). destruct H.
Qed.

Lemma statement_compilable column lx c rest :
  forallb token_ok lx = true ->
  _parse_condition_statement column lx = Ret (c, rest) -> compilable c = true.
Proof.
  intros Hok H. unfold _parse_condition_statement in H.
  destruct (expect_type _OP lx) as [[op lx1]| |] eqn:E1; cbn [bind] in H;
    try discriminate.
  apply expect_type_ret in E1. subst lx. cbn [forallb] in Hok.
  apply andb_true_iff in Hok as [Hop _]. unfold token_ok in Hop.
  cbn [fst snd keyword_texts] in Hop. apply operator_known in Hop.
  match type of H with
  | bind ?m _ = _ => destruct m as [[[typ text] lx2]| |]
  end; cbn [bind] in H; try discriminate.
  match type of H with
  | bind ?m _ = _ => destruct m as [val| |]
  end; cbn [bind] in H; try discriminate.
  inversion H; subst. exact Hop.
Qed.

Lemma conds_result_compilable op conds c :
  forallb compilable conds = true -> conds_result op conds = Ret c ->
  compilable c = true.
Proof.
  destruct conds as [|c1 [|c2 conds]]; cbn [conds_result]; intros Hc H;
    [discriminate| |]; inversion H; subst.
  - cbn [forallb] in Hc. apply andb_true_iff in Hc as [Hc _]. exact Hc.
  - exact Hc.
Qed.

Lemma forallb_suffix {A : Type} (p : A -> bool) pre rest :
  forallb p (pre ++ rest) = true -> forallb p rest = true.
Proof. rewrite forallb_app. intro H. apply andb_true_iff in H as [_ H]. exact H. Qed.

Lemma conds_compilable (fuel : nat) :
  (forall lx conds rest, forallb token_ok lx = true ->
     disjunction_conds fuel lx = Ret (conds, rest) ->
     forallb compilable conds = true) /\
  (forall lx conds rest, forallb token_ok lx = true ->
     conjunction_conds fuel lx = Ret (conds, rest) ->
     forallb compilable conds = true).
Proof.
  induction fuel as [|f [IHd IHc]]; [split; intros; discriminate|].
  assert (Hgroup : forall lx ds rest d,
            forallb token_ok lx = true ->
            disjunction_conds f lx = Ret (ds, rest) ->
            conds_result "or" ds = Ret d ->
            compilable d = true /\ forallb token_ok rest = true).
  { intros lx ds rest d Hok E1 E2. split.
    - exact (conds_result_compilable _ _ _ (IHd _ _ _ Hok E1) E2).
    - destruct (proj1 (stable_conds f) _ _ _ E1) as (pre & -> & _).
      exact (forallb_suffix _ _ _ Hok). }
  split; intros lx conds rest Hok H.
  - rewrite disjunction_conds_S in H.
    destruct (conjunction_conds f lx) as [[cs lx1]| |] eqn:E1; cbn [bind] in H;
      try discriminate.
    destruct (conds_result "and" cs) as [c| |] eqn:E2; cbn [bind] in H;
      try discriminate.
    pose proof (conds_result_compilable _ _ _ (IHc _ _ _ Hok E1) E2) as Hc.
    destruct (proj2 (stable_conds f) _ _ _ E1) as (pre & -> & _).
    apply forallb_suffix in Hok.
    destruct (accept_type _OR lx1) as [tok lx2] eqn:E3.
    destruct (accept_type_suffix _ _ _ _ E3) as [p ->].
    apply forallb_suffix in Hok.
    destruct (accepted tok).
    + destruct (disjunction_conds f lx2) as [[conds' lx3]| |] eqn:E4; cbn [bind] in H;
        try discriminate.
      inversion H; subst. cbn [forallb]. rewrite Hc. exact (IHd _ _ _ Hok E4).
    + inversion H; subst. cbn [forallb]. rewrite Hc. reflexivity.
  - rewrite conjunction_conds_S in H.
    destruct (choice_type [_NOT; _LPAREN; _QID; _ID] lx) as [[[typ token] lx1]| |] eqn:E1;
      cbn [bind] in H; try discriminate.
    apply choice_type_ret in E1 as [-> _].
    cbn [forallb] in Hok. apply andb_true_iff in Hok as [_ Hok].
    match type of H with
    | bind ?m _ = _ => destruct m as [[new lx2]| |] eqn:E2
    end; cbn [bind] in H; try discriminate.
    assert (Hnew : forallb compilable new = true /\ forallb token_ok lx2 = true).
    { destruct (tokentype_eqb typ _NOT); [|destruct (tokentype_eqb typ _LPAREN)];
        [| |destruct (type_in typ [_QID; _ID])].
      - destruct (disjunction_conds f lx1) as [[ds lx3]| |] eqn:E3; cbn [bind] in E2;
          try discriminate.
        destruct (conds_result "or" ds) as [d| |] eqn:E4; cbn [bind] in E2;
          try discriminate.
        inversion E2; subst. destruct (Hgroup _ _ _ _ Hok E3 E4) as [Hd Hrest].
        cbn [forallb compilable]. rewrite Hd. split; [reflexivity|exact Hrest].
      - destruct (disjunction_conds f lx1) as [[ds lx3]| |] eqn:E3; cbn [bind] in E2;
          try discriminate.
        destruct (conds_result "or" ds) as [d| |] eqn:E4; cbn [bind] in E2;
          try discriminate.
        destruct (expect_type _RPAREN lx3) as [[t lx4]| |] eqn:E5; cbn [bind] in E2;
          try discriminate.
        inversion E2; subst. destruct (Hgroup _ _ _ _ Hok E3 E4) as [Hd Hrest].
        apply expect_type_ret in E5. subst lx3. cbn [forallb] in Hrest.
        apply andb_true_iff in Hrest as [_ Hrest].
        cbn [forallb]. rewrite Hd. split; [reflexivity|exact Hrest].
      - destruct (_parse_condition_statement token lx1) as [[c lx3]| |] eqn:E3;
          cbn [bind] in E2; try discriminate.
        inversion E2; subst. cbn [forallb].
        rewrite (statement_compilable _ _ _ _ Hok E3).
        destruct (stable_statement token _ _ _ E3) as (pre & -> & _).
        split; [reflexivity|exact (forallb_suffix _ _ _ Hok)].
      - inversion E2; subst. split; [reflexivity|exact Hok]. }
    destruct Hnew as [Hnew Hok2].
    destruct (accept_type _AND lx2) as [tok lx3] eqn:E3.
    destruct (accept_type_suffix _ _ _ _ E3) as [p ->].
    apply forallb_suffix in Hok2.
    destruct (accepted tok).
    + destruct (conjunction_conds f lx3) as [[conds' lx4]| |] eqn:E4; cbn [bind] in H;
        try discriminate.
      inversion H; subst. rewrite forallb_app, Hnew. exact (IHc _ _ _ Hok2 E4).
    + inversion H; subst. exact Hnew.
Qed.

Lemma where_conditions_compilable fuel :
  forall lx conditions rest, forallb token_ok lx = true ->
    where_conditions fuel lx = Ret (conditions, rest) ->
    forallb compilable conditions = true.
Proof.
  induction fuel as [|f IH]; intros lx conditions rest Hok H; [discriminate|].
  rewrite where_conditions_S in H.
  destruct (accept_type _WHERE lx) as [tok lx1] eqn:E1.
  destruct (accept_type_suffix _ _ _ _ E1) as [p ->].
  apply forallb_suffix in Hok.
  destruct (accepted tok); [|inversion H; subst; reflexivity].
  destruct (_parse_condition_disjunction f lx1) as [[c lx2]| |] eqn:E2; cbn [bind] in H;
    try discriminate.
  destruct (where_conditions f lx2) as [[cs lx3]| |] eqn:E3; cbn [bind] in H;
    try discriminate.
  inversion H; subst.
  destruct (stable_disjunction f _ _ _ E2) as (pre & -> & _).
  unfold _parse_condition_disjunction in E2.
  destruct (disjunction_conds f (pre ++ lx2)) as [[ds lx4]| |] eqn:E4; cbn [bind] in E2;
    try discriminate.
  destruct (conds_result "or" ds) as [d| |] eqn:E5; cbn [bind] in E2; try discriminate.
  inversion E2; subst. cbn [forallb].
  rewrite (conds_result_compilable _ _ _ (proj1 (conds_compilable f) _ _ _ Hok E4) E5).
  exact (IH _ _ _ (forallb_suffix _ _ _ Hok) E3).
Qed.

Lemma parse_select_lexer_compilable fuel lx q c :
  forallb token_ok lx = true ->
  parse_select_lexer fuel lx = Ret q -> q_condition q = Some c ->
  compilable c = true.
Proof.
  intros Hok H Hc. unfold parse_select_lexer in H.
  pose proof (projection_stage fuel lx) as H1.
  destruct (_parse_select_projection fuel lx) as [[proj lx1]| |]; cbn [bind] in H;
    try discriminate.
  destruct H1 as [[p1 ->] _]. apply forallb_suffix in Hok.
  pose proof (from_stage fuel lx1) as H2.
  destruct (_parse_select_from fuel lx1) as [[rels lx2]| |]; cbn [bind] in H;
    try discriminate.
  destruct H2 as [p2 ->]. apply forallb_suffix in Hok.
  unfold _parse_select_where in H.
  destruct (where_conditions fuel lx2) as [[conditions lx3]| |] eqn:E3; cbn [bind] in H;
    try discriminate.
  pose proof (where_conditions_compilable _ _ _ _ Hok E3) as Hcs.
  assert (Hfin : forall oc : option condition,
            ('(_, lx) <- expect_type _DOT lx3 ;;
             if list_eqb proj ["*"] && negb (truthy_list rels)
             then Raise star_requires_from
             else Ret (mk_queryobj "select" proj rels oc)) = Ret q ->
            q_condition q = oc).
  { intros oc Hq. destruct (expect_type _DOT lx3) as [[d lx4]| |]; cbn [bind] in Hq;
      try discriminate.
    destruct (list_eqb proj ["*"] && negb (truthy_list rels)); [discriminate|].
    inversion Hq; subst. reflexivity. }
  destruct conditions as [|c1 [|c2 cs]]; cbn [bind] in H; apply Hfin in H;
    rewrite H in Hc; inversion Hc; subst.
  - cbn [forallb] in Hcs. apply andb_true_iff in Hcs as [Hcs _]. exact Hcs.
  - exact Hcs.
Qed.

Lemma resolve_compilable resolve_qname c :
  forall c' fields,
    _process_condition_fields resolve_qname c = Ret (c', fields) ->
    compilable c = true -> compilable c' = true.
Proof.
  induction c as [op column val|op body IH|body IH] using condition_induction;
    intros c' fields H Hc.
  - cbn [_process_condition_fields] in H.
    destruct (resolve_qname column) as [q| |]; cbn [bind] in H; try discriminate.
    inversion H; subst. exact Hc.
  - rewrite process_condition_fields_BoolOp in H.
    destruct (resolve_body resolve_qname body []) as [[cs fs]| |] eqn:E; cbn [bind] in H;
      try discriminate.
    inversion H; subst. cbn [compilable] in Hc |- *.
    clear H. revert cs fs E Hc. generalize (@nil string).
    induction IH as [|c body Hc' _ IHb]; intros fieldset cs fs E Hc.
    + inversion E; subst. reflexivity.
    + rewrite resolve_body_cons in E. cbn [forallb] in Hc.
      apply andb_true_iff in Hc as [Hc1 Hc2].
      destruct (_process_condition_fields resolve_qname c) as [[c1 f1]| |] eqn:E1;
        cbn [bind] in E; try discriminate.
      destruct (resolve_body resolve_qname body (set_update fieldset f1))
        as [[cs' fs']| |] eqn:E2; cbn [bind] in E; try discriminate.
      inversion E; subst. cbn [forallb].
      rewrite (Hc' _ _ eq_refl Hc1). exact (IHb _ _ _ E2 Hc2).
  - cbn [_process_condition_fields] in H.
    destruct (_process_condition_fields resolve_qname body) as [[c1 f1]| |] eqn:E;
      cbn [bind] in H; try discriminate.
    inversion H; subst. exact (IH _ _ eq_refl Hc).
Qed.

Section Compiles.

Variable re_search : string -> string -> option bool.
Variable date_eqb : string -> string -> bool.
Variable date_ltb : string -> string -> bool.

Lemma compilable_compiles field_index c :
  compilable c = true ->
  exists func,
    _process_condition_function re_search date_eqb date_ltb c field_index = Ret func.
Proof.
  induction c as [op column val|op body IH|body IH] using condition_induction;
    intro Hc.
  - cbn [compilable] in Hc. apply mem_In in Hc. unfold comparison_ops in Hc.
    cbn [In] in Hc.
    repeat (destruct Hc as [Hc|Hc]; [subst op; eexists; reflexivity|]). destruct Hc.
  - rewrite process_condition_function_BoolOp.
    assert (Hbody : exists funcs,
              compile_body re_search date_eqb date_ltb field_index body = Ret funcs).
    { cbn [compilable] in Hc. induction IH as [|c body Hc' _ IHb].
      - eexists; reflexivity.
      - cbn [forallb] in Hc. apply andb_true_iff in Hc as [Hc1 Hc2].
        destruct (Hc' Hc1) as [func E1]. destruct (IHb Hc2) as [funcs E2].
        rewrite compile_body_cons, E1. cbn [bind]. rewrite E2. cbn [bind].
        eexists; reflexivity. }
    destruct Hbody as [funcs ->]. cbn [bind]. eexists; reflexivity.
  - cbn [_process_condition_function]. destruct (IH Hc) as [nfunc ->]. cbn [bind].
    eexists; reflexivity.
Qed.

(** X8. The condition of a parsed query always compiles: once its column
    names are resolved, [_process_condition_function] returns a filter
    for it on any field index.  The lexer only lets through the
    operators of the token table and the parser rewrites [=], so the
    lookup in [_operator_functions] cannot fail. *)
Theorem parsed_condition_compiles querystring q c resolve_qname c' fields field_index :
  inspect_query querystring = Ret q ->
  q_condition q = Some c ->
  _process_condition_fields resolve_qname c = Ret (c', fields) ->
  exists func,
    _process_condition_function re_search date_eqb date_ltb c' field_index = Ret func.
Proof.
  intros Hq Hc Hres. apply compilable_compiles.
  apply (resolve_compilable _ _ _ _ Hres).
  unfold inspect_query, _parse_query in Hq.
  destruct (partition_space (lstrip querystring)) as [querytype querybody].
  destruct (mem (lower querytype) ["select"; "retrieve"]); [|discriminate].
  unfold _parse_select in Hq.
  exact (parse_select_lexer_compilable _ _ _ _ (lex_ok _) Hq Hc).
Qed.

End Compiles.

Lemma parsed_condition_compiles_witness :
  exists func,
    _process_condition_function no_search String.eqb String.ltb
      (Cmp "==" "item.i-id" (VInt 10)) [] = Ret func.
Proof.
  apply (parsed_condition_compiles no_search String.eqb String.ltb
           "select i-id where i-id = 10"
           (mk_queryobj "select" ["i-id"] [] (Some (Cmp "==" "i-id" (VInt 10))))
           (Cmp "==" "i-id" (VInt 10))
           (_make_qname_resolver (_make_schema_map item_db []))
           (Cmp "==" "item.i-id" (VInt 10)) ["item.i-id"] []).
  - vm_compute. reflexivity.
  - reflexivity.
  - vm_compute. reflexivity.
Defined.

(** ** Name resolution *)

Lemma rpartition_col_no_dot s : contains_dot (snd (rpartition s)) = false.
Proof.
  induction s as [|c s IH]; [reflexivity|].
  cbn [rpartition]. destruct (rpartition s) as [rel col]. cbn [snd] in IH.
  destruct (contains_dot s) eqn:E; [exact IH|].
  destruct (Ascii.eqb c dot) eqn:E2; cbn [snd]; [exact E|].
  cbn [contains_dot]. rewrite E2. exact E.
Qed.

Lemma contains_dot_qualify rel col : contains_dot (qualify rel col) = true.
Proof.
  unfold qualify. change ("." ++ col)%string with (String "." col).
  induction rel as [|c rel IH]; [reflexivity|].
  cbn [append contains_dot]. rewrite IH. destruct (Ascii.eqb c dot); reflexivity.
Qed.

Lemma rpartition_qualify rel col :
  contains_dot col = false -> rpartition (qualify rel col) = (rel, col).
Proof.
  intro Hcol. induction rel as [|c rel IH].
  - unfold qualify. cbn [append rpartition].
    rewrite (rpartition_no_dot col Hcol), Hcol. reflexivity.
  - change (qualify (String c rel) col) with (String c (qualify rel col)).
    cbn [rpartition]. rewrite IH, contains_dot_qualify. reflexivity.
Qed.

(** X9. A name that resolution qualified is sound and splits back: when
    [resolve] returns for a column name without a dot, the result is the
    name qualified by a relation of the schema that has a field of that
    name, and the split of the join planner gives back that relation and
    the column. *)
Theorem resolved_name_splits_back db relations colname qname :
  contains_dot colname = false ->
  _make_qname_resolver (_make_schema_map db relations) colname = Ret qname ->
  exists rel fields,
    In (rel, fields) (schema db) /\ has_field colname fields = true /\
    qname = qualify rel colname /\ rpartition qname = (rel, colname).
Proof.
  intros Hdot H. rewrite (resolver_first_relation db relations colname Hdot) in H.
  assert (Hfind : forall p rel,
            first_relation db p colname = Some rel ->
            exists fields, In (rel, fields) (schema db) /\ has_field colname fields = true).
  { intros p rel. unfold first_relation.
    destruct (find _ (schema db)) as [[rel' fields]|] eqn:E; [|discriminate].
    intro Hr. inversion Hr; subst. apply find_some in E as [Hin Hp].
    apply andb_true_iff in Hp as [_ Hp]. exists fields. split; assumption. }
  assert (Hq : exists p rel, first_relation db p colname = Some rel /\
                             qname = qualify rel colname).
  { destruct (first_relation db (fun r => mem r relations) colname) as [r|] eqn:E1.
    - inversion H; subst. eexists _, r. split; [exact E1|reflexivity].
    - destruct (first_relation db (fun _ => true) colname) as [r|] eqn:E2;
        [|discriminate].
      inversion H; subst. eexists _, r. split; [exact E2|reflexivity]. }
  destruct Hq as (p & rel & Hfirst & ->).
  destruct (Hfind p rel Hfirst) as (fields & Hin & Hhas).
  exists rel, fields. repeat split; try assumption.
  exact (rpartition_qualify rel colname Hdot).
Qed.

Lemma resolved_name_splits_back_witness :
  exists rel fields,
    In (rel, fields) (schema db123) /\ has_field "y" fields = true /\
    "R3.y" = qualify rel "y" /\ rpartition "R3.y" = (rel, "y").
Proof.
  apply (resolved_name_splits_back db123 ["R1"] "y" "R3.y"); reflexivity.
Defined.

(** X10. Resolution is idempotent: a name that [resolve] returned is
    returned unchanged when it is resolved again, on any schema map. *)
Theorem resolve_idempotent schema_map colname qname :
  _make_qname_resolver schema_map colname = Ret qname ->
  _make_qname_resolver schema_map qname = Ret qname.
Proof.
  unfold _make_qname_resolver.
  pose proof (rpartition_col_no_dot colname) as Hcol.
  destruct (rpartition colname) as [rel col] eqn:E. cbn [snd] in Hcol.
  destruct (truthy rel) eqn:Hrel.
  - intro H. inversion H; subst. rewrite E, Hrel. reflexivity.
  - destruct (dict_get col schema_map) as [[|r rels]|] eqn:Eget; try discriminate.
    intro H. inversion H; subst.
    rewrite (rpartition_qualify r col Hcol), Eget.
    destruct (truthy r); reflexivity.
Qed.

Lemma resolve_idempotent_witness :
  _make_qname_resolver (_make_schema_map db123 []) "R1.x" = Ret "R1.x".
Proof.
  apply (resolve_idempotent (_make_schema_map db123 []) "x" "R1.x"). reflexivity.
Defined.

(** ** Conditions *)

Lemma mapM_app {A B : Type} (f : A -> outcome B) (l1 l2 : list A) :
  mapM f (l1 ++ l2) =
  (x <- mapM f l1 ;; y <- mapM f l2 ;; Ret (x ++ y)).
Proof.
  induction l1 as [|a l1 IH]; cbn [app mapM bind].
  - destruct (mapM f l2); reflexivity.
  - destruct (f a) as [b| |]; cbn [bind]; try reflexivity.
    rewrite IH. destruct (mapM f l1) as [x| |]; cbn [bind]; try reflexivity.
    destruct (mapM f l2); reflexivity.
Qed.

Lemma insert_sorted_perm x l : Permutation (insert_sorted x l) (x :: l).
Proof.
  induction l as [|y l IH]; cbn [insert_sorted]; [reflexivity|].
  destruct (String.leb x y); [reflexivity|].
  rewrite IH. apply perm_swap.
Qed.

Lemma sorted_perm l : Permutation (sorted l) l.
Proof.
  unfold sorted. induction l as [|x l IH]; cbn [fold_right]; [reflexivity|].
  rewrite insert_sorted_perm. constructor. exact IH.
Qed.

Lemma resolve_body_spec resolve_qname body :
  Forall (fun c => forall c' fields,
            _process_condition_fields resolve_qname c = Ret (c', fields) ->
            mapM resolve_qname (condition_columns c) = Ret (condition_columns c') /\
            NoDup fields /\
            (forall q, In q fields <-> In q (condition_columns c'))) body ->
  forall fieldset conditions fieldset',
    resolve_body resolve_qname body fieldset = Ret (conditions, fieldset') ->
    NoDup fieldset ->
    mapM resolve_qname (flat_map condition_columns body)
    = Ret (flat_map condition_columns conditions) /\
    NoDup fieldset' /\
    (forall q, In q fieldset' <->
               In q fieldset \/ In q (flat_map condition_columns conditions)).
Proof.
  induction 1 as [|c body Hc _ IH]; intros fieldset conditions fieldset' H Hnd.
  - inversion H; subst. split; [reflexivity|]. split; [exact Hnd|].
    intro q. cbn [flat_map In]. tauto.
  - rewrite resolve_body_cons in H.
    destruct (_process_condition_fields resolve_qname c) as [[c1 f1]| |] eqn:E1;
      cbn [bind] in H; try discriminate.
    destruct (resolve_body resolve_qname body (set_update fieldset f1))
      as [[cs fs]| |] eqn:E2; cbn [bind] in H; try discriminate.
    inversion H; subst.
    destruct (Hc _ _ eq_refl) as (Hm1 & _ & Hin1).
    destruct (IH _ _ _ E2 (set_update_NoDup _ _ Hnd)) as (Hm2 & Hnd2 & Hin2).
    split; [|split; [exact Hnd2|]].
    + cbn [flat_map]. rewrite mapM_app, Hm1. cbn [bind]. rewrite Hm2. reflexivity.
    + intro q. rewrite Hin2, set_update_In, Hin1. cbn [flat_map]. rewrite in_app_iff.
      tauto.
Qed.

(** X11. What [_process_condition_fields] returns: the columns of the
    resolved condition are the resolutions of the columns of the
    condition, in their order, and the list of fields has no repetition
    and holds exactly the columns of the resolved condition. *)
Theorem process_condition_fields_columns resolve_qname c c' fields :
  _process_condition_fields resolve_qname c = Ret (c', fields) ->
  mapM resolve_qname (condition_columns c) = Ret (condition_columns c') /\
  NoDup fields /\
  (forall q, In q fields <-> In q (condition_columns c')).
Proof.
  revert c' fields.
  induction c as [op column val|op body IH|body IH] using condition_induction;
    intros c' fields H.
  - cbn [_process_condition_fields] in H. cbn [condition_columns mapM].
    destruct (resolve_qname column) as [q| |]; cbn [bind] in H |- *; try discriminate.
    inversion H; subst. split; [reflexivity|]. split.
    + constructor; [intros []|constructor].
    + intro q'. reflexivity.
  - rewrite process_condition_fields_BoolOp in H.
    destruct (resolve_body resolve_qname body []) as [[cs fs]| |] eqn:E; cbn [bind] in H;
      try discriminate.
    inversion H; subst.
    destruct (resolve_body_spec _ _ IH _ _ _ E (NoDup_nil _)) as (Hm & Hnd & Hin).
    cbn [condition_columns]. split; [exact Hm|]. split.
    + exact (Permutation_NoDup (Permutation_sym (sorted_perm fs)) Hnd).
    + intro q. split; intro Hq.
      * apply (Permutation_in _ (sorted_perm fs)) in Hq. apply Hin in Hq.
        destruct Hq as [[]|Hq]. exact Hq.
      * apply (Permutation_in _ (Permutation_sym (sorted_perm fs))).
        apply Hin. right. exact Hq.
  - cbn [_process_condition_fields] in H.
    destruct (_process_condition_fields resolve_qname body) as [[c1 f1]| |] eqn:E;
      cbn [bind] in H; try discriminate.
    inversion H; subst. exact (IH _ _ eq_refl).
Qed.

Lemma process_condition_fields_columns_witness :
  mapM (_make_qname_resolver (_make_schema_map item_db [])) (condition_columns ids_parsed)
  = Ret (condition_columns ids_condition) /\
  NoDup ["item.i-id"] /\
  (forall q, In q ["item.i-id"] <-> In q (condition_columns ids_condition)).
Proof.
  apply (process_condition_fields_columns
           (_make_qname_resolver (_make_schema_map item_db [])) ids_parsed).
  vm_compute. reflexivity.
Defined.

Section ConditionLaws.

Variable re_search : string -> string -> option bool.
Variable date_eqb : string -> string -> bool.
Variable date_ltb : string -> string -> bool.

(** X12. A negated equality filters as the inequality, and a negated
    pattern match as the negative match: [not c = v] and [c != v], and
    [not c ~ p] and [c !~ p], compile to filters that agree on every row,
    errors included. *)
Theorem negated_comparisons column val field_index :
  same_filter
    (_process_condition_function re_search date_eqb date_ltb
       (Not (Cmp "==" column val)) field_index)
    (_process_condition_function re_search date_eqb date_ltb
       (Cmp "!=" column val) field_index) /\
  same_filter
    (_process_condition_function re_search date_eqb date_ltb
       (Not (Cmp "~" column val)) field_index)
    (_process_condition_function re_search date_eqb date_ltb
       (Cmp "!~" column val) field_index).
Proof.
  split; cbn; intro r;
    destruct (dict_lookup column field_index) as [idx| |]; cbn [bind]; try reflexivity;
    destruct (row_get r idx) as [v| |]; cbn [bind]; reflexivity.
Qed.

Lemma compile_body_map_not field_index body :
  compile_body re_search date_eqb date_ltb field_index (map Not body) =
  (funcs <- compile_body re_search date_eqb date_ltb field_index body ;;
   Ret (map negate funcs)).
Proof.
  induction body as [|c body IH]; [reflexivity|].
  cbn [map]. rewrite !compile_body_cons, IH.
  cbn [_process_condition_function].
  destruct (_process_condition_function re_search date_eqb date_ltb c field_index)
    as [func| |]; cbn [bind]; try reflexivity.
  destruct (compile_body re_search date_eqb date_ltb field_index body) as [funcs| |];
    cbn [bind]; reflexivity.
Qed.

Lemma all_of_negate funcs r :
  all_of (map negate funcs) r = (b <- any_of funcs r ;; Ret (negb b)).
Proof.
  induction funcs as [|func funcs IH]; [reflexivity|].
  cbn [map all_of any_of]. unfold negate at 1.
  destruct (func r) as [[|]| |]; cbn [bind negb]; try reflexivity. exact IH.
Qed.

Lemma any_of_negate funcs r :
  any_of (map negate funcs) r = (b <- all_of funcs r ;; Ret (negb b)).
Proof.
  induction funcs as [|func funcs IH]; [reflexivity|].
  cbn [map all_of any_of]. unfold negate at 1.
  destruct (func r) as [[|]| |]; cbn [bind negb]; try reflexivity. exact IH.
Qed.

(** X13. De Morgan's laws hold for the compiled filters: the negation of
    a disjunction compiles to the same filter as the conjunction of the
    negations, and the negation of a conjunction to the same filter as
    the disjunction of the negations, errors included. *)
Theorem de_morgan body field_index :
  same_filter
    (_process_condition_function re_search date_eqb date_ltb
       (Not (BoolOp "or" body)) field_index)
    (_process_condition_function re_search date_eqb date_ltb
       (BoolOp "and" (map Not body)) field_index) /\
  same_filter
    (_process_condition_function re_search date_eqb date_ltb
       (Not (BoolOp "and" body)) field_index)
    (_process_condition_function re_search date_eqb date_ltb
       (BoolOp "or" (map Not body)) field_index).
Proof.
  split.
  - change (_process_condition_function re_search date_eqb date_ltb
              (Not (BoolOp "or" body)) field_index)
      with (nfunc <- _process_condition_function re_search date_eqb date_ltb
                       (BoolOp "or" body) field_index ;;
            Ret (negate nfunc)).
    rewrite !process_condition_function_BoolOp, compile_body_map_not.
    destruct (compile_body re_search date_eqb date_ltb field_index body) as [funcs| |];
      cbn [bind same_filter]; try reflexivity.
    intro r. cbn [String.eqb Ascii.eqb Bool.eqb]. unfold negate at 1.
    symmetry. apply all_of_negate.
  - change (_process_condition_function re_search date_eqb date_ltb
              (Not (BoolOp "and" body)) field_index)
      with (nfunc <- _process_condition_function re_search date_eqb date_ltb
                       (BoolOp "and" body) field_index ;;
            Ret (negate nfunc)).
    rewrite !process_condition_function_BoolOp, compile_body_map_not.
    destruct (compile_body re_search date_eqb date_ltb field_index body) as [funcs| |];
      cbn [bind same_filter]; try reflexivity.
    intro r. cbn [String.eqb Ascii.eqb Bool.eqb]. unfold negate at 1.
    symmetry. apply any_of_negate.
Qed.


End ConditionLaws.


(** ** The executor *)

(** ** The wildcard projection *)

Lemma project_fields_spec relname fields :
  forall projection keys_added projection' keys',
    project_fields relname fields projection keys_added = (projection', keys') ->
    incl projection projection' /\
    (forall q, In q projection' ->
       In q projection \/ exists f, In f fields /\ q = qualify relname (name f)) /\
    (forall k, In k keys' ->
       In k keys_added \/ In (qualify relname k) projection') /\
    (forall f, In f fields ->
       if is_key f then In (name f) keys' else In (qualify relname (name f)) projection') /\
    incl keys_added keys'.
Proof.
  induction fields as [|f fields IH]; intros proj keys proj' keys' H;
    cbn [project_fields] in H.
  - inversion H; subst. repeat split.
    + apply incl_refl.
    + intros q Hq. left. exact Hq.
    + intros k Hk. left. exact Hk.
    + intros f [].
    + apply incl_refl.
  - destruct (is_key f) eqn:Ekey; cbn [negb] in H.
    + destruct (mem (name f) keys) eqn:Emem; cbn [negb] in H.
      * destruct (IH _ _ _ _ H) as (H1 & H2 & H3 & H4 & H5). repeat split.
        -- exact H1.
        -- intros q Hq. destruct (H2 q Hq) as [Hin|(g & Hg & ->)]; [left; exact Hin|].
           right. exists g. split; [right; exact Hg|reflexivity].
        -- exact H3.
        -- intros g [<-|Hg]; [|exact (H4 g Hg)].
           rewrite Ekey. apply H5. apply mem_In. exact Emem.
        -- exact H5.
      * destruct (IH _ _ _ _ H) as (H1 & H2 & H3 & H4 & H5). repeat split.
        -- intros q Hq. apply H1. apply in_or_app. left. exact Hq.
        -- intros q Hq. destruct (H2 q Hq) as [Hin|(g & Hg & ->)].
           ++ apply in_app_or in Hin as [Hin|[<-|[]]]; [left; exact Hin|].
              right. exists f. split; [left; reflexivity|reflexivity].
           ++ right. exists g. split; [right; exact Hg|reflexivity].
        -- intros k Hk. destruct (H3 k Hk) as [Hin|Hin]; [|right; exact Hin].
           apply set_add_In in Hin as [->|Hin]; [|left; exact Hin].
           right. apply H1. apply in_or_app. right. left. reflexivity.
        -- intros g [<-|Hg]; [|exact (H4 g Hg)].
           rewrite Ekey. apply H5. apply set_add_In. left. reflexivity.
        -- intros k Hk. apply H5. apply set_add_In. right. exact Hk.
    + destruct (IH _ _ _ _ H) as (H1 & H2 & H3 & H4 & H5). repeat split.
      * intros q Hq. apply H1. apply in_or_app. left. exact Hq.
      * intros q Hq. destruct (H2 q Hq) as [Hin|(g & Hg & ->)].
        -- apply in_app_or in Hin as [Hin|[<-|[]]]; [left; exact Hin|].
           right. exists f. split; [left; reflexivity|reflexivity].
        -- right. exists g. split; [right; exact Hg|reflexivity].
      * exact H3.
      * intros g [<-|Hg]; [|exact (H4 g Hg)].
        rewrite Ekey. apply H1. apply in_or_app. right. left. reflexivity.
      * exact H5.
Qed.

Lemma project_relations_spec db relations :
  forall done projection keys_added proj,
    project_relations db relations projection keys_added = Ret proj ->
    (forall k, In k keys_added ->
       exists rel, In rel done /\ In (qualify rel k) projection) ->
    incl projection proj /\
    (forall q, In q proj ->
       In q projection \/
       exists rel fields f,
         In rel relations /\ dict_get rel (schema db) = Some fields /\
         In f fields /\ q = qualify rel (name f)) /\
    (forall rel fields f,
       In rel relations -> dict_get rel (schema db) = Some fields -> In f fields ->
       (is_key f = false -> In (qualify rel (name f)) proj) /\
       exists rel', In rel' (done ++ relations) /\ In (qualify rel' (name f)) proj).
Proof.
  induction relations as [|relname relations IH];
    intros done projection keys_added proj H Hinv; cbn [project_relations] in H.
  - inversion H; subst. split; [apply incl_refl|]. split.
    + intros q Hq. left. exact Hq.
    + intros rel fields f [].
  - unfold dict_lookup in H.
    destruct (dict_get relname (schema db)) as [fs|] eqn:Efs; cbn [bind] in H;
      [|discriminate].
    destruct (project_fields relname fs projection keys_added) as [projA keysA] eqn:E1.
    destruct (project_fields_spec _ _ _ _ _ _ E1) as (F1 & F2 & F3 & F4 & F5).
    destruct (IH (done ++ [relname]) _ _ _ H) as (G1 & G2 & G3).
    { intros k Hk. destruct (F3 k Hk) as [Hin|Hin].
      - destruct (Hinv k Hin) as (rel & Hrel & Hq). exists rel. split.
        + apply in_or_app. left. exact Hrel.
        + apply F1. exact Hq.
      - exists relname. split; [apply in_or_app; right; left; reflexivity|exact Hin]. }
    split; [|split].
    + intros q Hq. apply G1, F1. exact Hq.
    + intros q Hq. destruct (G2 q Hq) as [Hin|(rel & fields & f & Hrel & Hget & Hf & ->)].
      * destruct (F2 q Hin) as [Hin'|(f & Hf & ->)]; [left; exact Hin'|].
        right. exists relname, fs, f. repeat split; auto. left. reflexivity.
      * right. exists rel, fields, f. repeat split; auto. right. exact Hrel.
    + intros rel fields f H0 H1 H2. split; destruct H0 as [<-|Hrel].
      * rewrite Efs in H1. inversion H1; subst fields. intro Hkey.
        specialize (F4 f H2). rewrite Hkey in F4. apply G1. exact F4.
      * exact (proj1 (G3 rel fields f Hrel H1 H2)).
      * rewrite Efs in H1. inversion H1; subst fields.
        specialize (F4 f H2). destruct (is_key f).
        -- destruct (F3 _ F4) as [Hin|Hin].
           ++ destruct (Hinv _ Hin) as (rel & Hdone & Hq). exists rel. split.
              ** apply in_or_app. left. exact Hdone.
              ** apply G1, F1. exact Hq.
           ++ exists relname. split; [apply in_or_app; right; left; reflexivity|].
              apply G1. exact Hin.
        -- exists relname. split; [apply in_or_app; right; left; reflexivity|].
           apply G1. exact F4.
      * destruct (proj2 (G3 rel fields f Hrel H1 H2)) as (rel' & Hin & Hq).
        exists rel'. split; [|exact Hq]. rewrite <- app_assoc in Hin. exact Hin.
Qed.

(** X15. What the wildcard projects: every name [_project_all] returns
    is a field of a listed relation, qualified by that relation; every
    field of a listed relation that is not a key is projected under its
    own relation, and every field name of a listed relation, key or not,
    is projected under some listed relation. *)
Theorem project_all_covers relations db proj :
  _project_all relations db = Ret proj ->
  (forall q, In q proj ->
     exists rel fields f,
       In rel relations /\ dict_get rel (schema db) = Some fields /\
       In f fields /\ q = qualify rel (name f)) /\
  (forall rel fields f,
     In rel relations -> dict_get rel (schema db) = Some fields -> In f fields ->
     (is_key f = false -> In (qualify rel (name f)) proj) /\
     exists rel', In rel' relations /\ In (qualify rel' (name f)) proj).
Proof.
  unfold _project_all. intro H.
  destruct (project_relations_spec db relations [] [] [] proj H) as (_ & H2 & H3).
  { intros k []. }
  split.
  - intros q Hq. destruct (H2 q Hq) as [[]|Hex]. exact Hex.
  - exact H3.
Qed.

Lemma project_all_covers_witness :
  (forall q, In q ["R1.a"; "R1.x"; "R2.b"] ->
     exists rel fields f,
       In rel ["R1"; "R2"] /\ dict_get rel (schema db123) = Some fields /\
       In f fields /\ q = qualify rel (name f)) /\
  (forall rel fields f,
     In rel ["R1"; "R2"] -> dict_get rel (schema db123) = Some fields -> In f fields ->
     (is_key f = false -> In (qualify rel (name f)) ["R1.a"; "R1.x"; "R2.b"]) /\
     exists rel', In rel' ["R1"; "R2"] /\ In (qualify rel' (name f)) ["R1.a"; "R1.x"; "R2.b"]).
Proof.
  apply (project_all_covers ["R1"; "R2"] db123). reflexivity.
Defined.

(** ** Selections and joins *)

Lemma skipn_nth_error {A : Type} (l : list A) s v :
  nth_error l s = Some v -> skipn s l = v :: skipn (S s) l.
Proof.
  revert l. induction s as [|s IH]; intros [|a l] H; try discriminate H.
  - inversion H; subst. reflexivity.
  - cbn [nth_error] in H. change (skipn (S s) (a :: l)) with (skipn s l).
    rewrite (IH l H). reflexivity.
Qed.

Lemma row_get_seq (r : list value) n :
  forall s, s + n <= List.length r ->
    mapM (row_get r) (seq s n) = Ret (firstn n (skipn s r)).
Proof.
  induction n as [|n IH]; intros s Hs; [reflexivity|].
  cbn [seq mapM]. unfold row_get at 1.
  destruct (nth_error r s) as [v|] eqn:E.
  - cbn [bind]. rewrite IH by lia. cbn [bind].
    rewrite (skipn_nth_error r s v E). reflexivity.
  - apply nth_error_None in E. lia.
Qed.

Lemma nth_field_seq (fs : list Field) n :
  forall s, s + n <= List.length fs ->
    is_ret (mapM (fun idx =>
                    match nth_error fs idx with
                    | Some f => Ret f
                    | None => Raise (IndexError "list index out of range")
                    end) (seq s n)) = true.
Proof.
  induction n as [|n IH]; intros s Hs; [reflexivity|].
  cbn [seq mapM]. destruct (nth_error fs s) as [f|] eqn:E.
  - cbn [bind]. specialize (IH (S s)).
    destruct (mapM _ (seq (S s) n)); cbn [bind]; [reflexivity| |]; apply IH; lia.
  - apply nth_error_None in E. lia.
Qed.

Lemma select_rows_indices selection indices :
  Forall (fun idx => idx < List.length (sel_fields selection)) indices ->
  is_ret (mapM (fun idx =>
                  match nth_error (sel_fields selection) idx with
                  | Some f => Ret f
                  | None => Raise (IndexError "list index out of range")
                  end) indices) = true.
Proof.
  induction 1 as [|idx indices Hidx _ IH]; [reflexivity|].
  cbn [mapM]. destruct (nth_error (sel_fields selection) idx) eqn:E.
  - cbn [bind]. destruct (mapM _ indices); cbn [bind]; [reflexivity| |]; exact IH.
  - apply nth_error_None in E. lia.
Qed.

(** X16. Iterating over a selection that has no projection yields its
    rows cut to the number of its fields, so the rows themselves when
    each has one value per field; a row with fewer values would be an
    index error. *)
Theorem selection_rows_all selection :
  sel_projection selection = None ->
  Forall (fun r : list value => List.length (sel_fields selection) <= List.length r)
         (sel_data selection) ->
  selection_rows selection
  = Ret (map (firstn (List.length (sel_fields selection))) (sel_data selection)).
Proof.
  intros Hproj Hrows. unfold selection_rows. rewrite Hproj.
  unfold select_rows. cbn [truthy_list bind].
  pose proof (nth_field_seq (sel_fields selection) (List.length (sel_fields selection)) 0
                (Nat.le_refl _)) as Hf.
  destruct (mapM _ (seq 0 (List.length (sel_fields selection)))) as [fs| |];
    try discriminate Hf.
  cbn [bind]. apply mapM_pure. intros r Hr.
  rewrite Forall_forall in Hrows. rewrite row_get_seq by (apply Hrows; exact Hr).
  reflexivity.
Qed.

Lemma selection_rows_all_witness :
  selection_rows (mk_Selection item_fields [] item_rows None ["item"])
  = Ret (map (firstn 3) item_rows).
Proof.
  apply (selection_rows_all (mk_Selection item_fields [] item_rows None ["item"])).
  - reflexivity.
  - repeat constructor.
Defined.

Lemma qualify_inj rel a b : qualify rel a = qualify rel b -> a = b.
Proof.
  unfold qualify. induction rel as [|c rel IH]; cbn [append]; intro H.
  - inversion H. reflexivity.
  - inversion H. apply IH. assumption.
Qed.

Lemma merge_each_fields relationname new :
  forall i fs index, fst (merge_each relationname i new fs index) = fs ++ new.
Proof.
  induction new as [|f new IH]; intros i fs index; cbn [merge_each].
  - rewrite app_nil_r. reflexivity.
  - rewrite IH, <- app_assoc. reflexivity.
Qed.

(** After the fields [new] are merged from position [i] on, the
    qualified name of the [j]-th of them is at position [i + j]. *)
Lemma merge_each_lookup relationname new :
  NoDup (map name new) ->
  forall i fs index j f,
    nth_error new j = Some f ->
    dict_get (qualify relationname (name f))
             (snd (merge_each relationname i new fs index)) = Some (i + j).
Proof.
  induction new as [|g new IH]; intros Hnd i fs index j f Hj.
  - destruct j; discriminate Hj.
  - inversion Hnd as [|? ? Hnotin Hnd']; subst. cbn [merge_each].
    destruct j as [|j].
    + inversion Hj; subst g. rewrite Nat.add_0_r.
      apply merge_each_spec.
      * apply dict_get_set_same.
      * intros h Hh E. apply qualify_inj in E. apply Hnotin. rewrite <- E.
        apply in_map. exact Hh.
    + cbn [nth_error] in Hj. rewrite (IH Hnd' (S i) _ _ j f Hj). f_equal. lia.
Qed.

Lemma mapM_positions {A : Type} (f : A -> outcome nat) l :
  forall start,
    (forall j a, nth_error l j = Some a -> f a = Ret (start + j)) ->
    mapM f l = Ret (seq start (List.length l)).
Proof.
  induction l as [|a l IH]; intros start H; [reflexivity|].
  cbn [mapM List.length seq]. rewrite (H 0 a eq_refl), Nat.add_0_r. cbn [bind].
  rewrite (IH (S start)); [reflexivity|].
  intros j b Hj. rewrite (H (S j) b Hj). f_equal. lia.
Qed.

Lemma firstn_length_all {A : Type} (l : list A) n : List.length l = n -> firstn n l = l.
Proof. intros <-. apply firstn_all. Qed.

(** X17. The first join loads the relation and indexes it: joining the
    columns [columns] (without repetition, all fields of the relation)
    into the empty selection gives a selection whose fields are those
    columns, whose rows are the rows [select_from] gives for them and
    whose only joined relation is the one named; and selecting the
    columns back by their qualified names returns the same rows. *)
Theorem first_join_loads_relation date_eqb db relname columns how fields :
  mem how ["inner"; "left"] = true ->
  dict_get relname (schema db) = Some fields ->
  NoDup columns ->
  (forall col, In col columns -> In col (map name fields)) ->
  exists selection rows,
    _join date_eqb new_selection db relname columns how = Ret selection /\
    select_from db relname columns = Ret rows /\
    sel_data selection = rows /\
    map name (sel_fields selection) = columns /\
    sel_joined selection = [relname] /\
    select_rows selection (map (qualify relname) columns) = Ret rows.
Proof.
  intros Hhow Hget Hnd Hcols.
  destruct (fetch_fields fields columns Hcols) as (indices & new & E1 & E2 & E3).
  assert (Hsel : select_from db relname columns
                 = Ret (map (fun r : list value => map (fun idx => nth idx r VNone) indices)
                            (match dict_get relname (tables db) with
                             | Some rs => rs
                             | None => []
                             end))).
  { unfold select_from. unfold dict_lookup at 1. rewrite Hget. cbn [bind].
    rewrite E1. reflexivity. }
  assert (Hlook : dict_lookup relname (schema db) = Ret fields).
  { unfold dict_lookup. rewrite Hget. reflexivity. }
  unfold _join, new_selection. rewrite Hhow. cbn [negb sel_joined mem truthy_list].
  rewrite Hlook. cbn [bind]. rewrite E1. cbn [bind].
  rewrite E2. cbn [bind].
  unfold _merge_fields. cbn [sel_fields sel_field_index List.length].
  destruct (merge_each relname 0 new [] []) as [fs index] eqn:Em.
  pose proof (merge_each_fields relname new 0 [] []) as Hfs.
  rewrite Em in Hfs. cbn [fst app] in Hfs. subst fs.
  cbn [merge_on bind sel_data sel_projection sel_joined set_add mem app].
  rewrite Hsel. cbn [bind sel_fields sel_field_index sel_projection sel_joined].
  eexists _, _. split; [reflexivity|]. split; [reflexivity|].
  cbn [sel_data sel_fields sel_joined]. split; [reflexivity|].
  split; [exact E3|]. split; [reflexivity|].
  (* selecting the columns back *)
  assert (Hidx : mapM (fun n => dict_lookup n index) (map (qualify relname) columns)
                 = Ret (seq 0 (List.length columns))).
  { rewrite <- (length_map (qualify relname) columns). apply mapM_positions.
    intros j q Hj. rewrite nth_error_map in Hj.
    destruct (nth_error columns j) as [col|] eqn:Ecol; [|discriminate Hj].
    inversion Hj; subst q. rewrite <- E3 in Ecol. rewrite nth_error_map in Ecol.
    destruct (nth_error new j) as [f|] eqn:Ef; [|discriminate Ecol].
    inversion Ecol; subst col.
    pose proof (merge_each_lookup relname new) as Hl.
    rewrite E3 in Hl. specialize (Hl Hnd 0 [] [] j f Ef).
    rewrite Em in Hl. cbn [snd] in Hl. unfold dict_lookup. rewrite Hl. reflexivity. }
  assert (Hlen : List.length new = List.length columns).
  { rewrite <- E3. symmetry. apply length_map. }
  assert (Hind : List.length indices = List.length columns).
  { clear - E1. revert indices E1.
    induction columns as [|c columns IH]; intros indices E1; cbn [mapM] in E1.
    - inversion E1. reflexivity.
    - destruct (dict_lookup c (make_field_index fields)); cbn [bind] in E1;
        try discriminate.
      destruct (mapM _ columns) as [ixs| |] eqn:E; cbn [bind] in E1; try discriminate.
      inversion E1; subst. cbn [List.length]. rewrite (IH _ eq_refl). reflexivity. }
  unfold select_rows. cbn [sel_field_index sel_fields sel_data].
  assert (Hindices :
            (if truthy_list (map (qualify relname) columns)
             then mapM (fun n => dict_lookup n index) (map (qualify relname) columns)
             else Ret (seq 0 (List.length new)))
            = Ret (seq 0 (List.length columns))).
  { destruct columns as [|c columns']; [|exact Hidx].
    cbn [map truthy_list]. rewrite Hlen. reflexivity. }
  rewrite Hindices. cbn [bind].
  assert (Hf := nth_field_seq new (List.length columns) 0 ltac:(lia)).
  destruct (mapM _ (seq 0 (List.length columns))) as [fs| |]; try discriminate Hf.
  cbn [bind].
  match goal with
  | |- mapM ?f ?l = _ => transitivity (Ret (map (fun r : list value => r) l))
  end; [|rewrite map_id; reflexivity].
  apply mapM_pure. intros r Hr.
  apply in_map_iff in Hr as (r0 & <- & _).
  rewrite row_get_seq by (rewrite length_map; lia).
  cbn [skipn]. apply f_equal. apply firstn_length_all. rewrite length_map. exact Hind.
Qed.

Lemma first_join_loads_relation_witness :
  exists selection rows,
    _join String.eqb new_selection item_db "item" ["i-id"; "i-wf"] "inner" = Ret selection /\
    select_from item_db "item" ["i-id"; "i-wf"] = Ret rows /\
    sel_data selection = rows /\
    map name (sel_fields selection) = ["i-id"; "i-wf"] /\
    sel_joined selection = ["item"] /\
    select_rows selection (map (qualify "item") ["i-id"; "i-wf"]) = Ret rows.
Proof.
  apply (first_join_loads_relation String.eqb item_db "item" ["i-id"; "i-wf"] "inner"
           item_fields).
  - reflexivity.
  - reflexivity.
  - repeat constructor; simpl; intuition discriminate.
  - intros col [<-|[<-|[]]]; simpl; auto.
Defined.

Lemma fetched_fields_In (fs : list Field) indices new :
  mapM (fun idx =>
          match nth_error fs idx with
          | Some f => Ret f
          | None => Raise (IndexError "list index out of range")
          end) indices = Ret new ->
  forall f, In f new -> In f fs.
Proof.
  revert new. induction indices as [|idx indices IH]; intros new H f Hf;
    cbn [mapM] in H.
  - inversion H; subst. destruct Hf.
  - destruct (nth_error fs idx) as [g|] eqn:E; cbn [bind] in H; [|discriminate].
    destruct (mapM _ indices) as [new'| |]; cbn [bind] in H; try discriminate.
    inversion H; subst. destruct Hf as [<-|Hf].
    + exact (nth_error_In _ _ E).
    + exact (IH _ eq_refl f Hf).
Qed.

Lemma filter_nil {A : Type} (p : A -> bool) l :
  (forall x, In x l -> p x = false) -> filter p l = [].
Proof.
  induction l as [|a l IH]; intro H; [reflexivity|].
  cbn [filter]. rewrite (H a (or_introl eq_refl)).
  apply IH. intros x Hx. apply H. right. exact Hx.
Qed.

(** X18. A later join needs a shared key: joining a relation into a
    selection that already has a joined relation raises the engine error
    "no shared keys for joining" when none of the fetched columns is a
    key of the relation whose name is already in the field index of the
    selection. *)
Theorem join_needs_shared_key date_eqb selection db relname columns how fields :
  mem how ["inner"; "left"] = true ->
  truthy_list (sel_joined selection) = true ->
  mem relname (sel_joined selection) = false ->
  dict_get relname (schema db) = Some fields ->
  (forall col, In col columns -> In col (map name fields)) ->
  (forall f, In f fields -> In (name f) columns -> is_key f = true ->
             dict_contains (name f) (sel_field_index selection) = false) ->
  _join date_eqb selection db relname columns how = Raise no_shared_keys.
Proof.
  intros Hhow Hjoined Hnew Hget Hcols Hkeys.
  destruct (fetch_fields fields columns Hcols) as (indices & new & E1 & E2 & E3).
  unfold _join. rewrite Hhow, Hnew, Hjoined. cbn [negb].
  unfold dict_lookup at 1. rewrite Hget. cbn [bind]. rewrite E1. cbn [bind].
  rewrite E2. cbn [bind].
  rewrite (filter_nil _ new); [reflexivity|].
  intros f Hf. destruct (is_key f) eqn:Ekey; [|reflexivity]. cbn [andb].
  apply Hkeys.
  - exact (fetched_fields_In _ _ _ E2 f Hf).
  - rewrite <- E3. apply in_map. exact Hf.
  - exact Ekey.
Qed.

Lemma join_needs_shared_key_witness :
  _join String.eqb (mk_Selection R1_fields [("a", 0); ("x", 1)] [] None ["R1"])
        db123 "R3" ["b"; "y"] "inner"
  = Raise no_shared_keys.
Proof.
  apply (join_needs_shared_key String.eqb
           (mk_Selection R1_fields [("a", 0); ("x", 1)] [] None ["R1"])
           db123 "R3" ["b"; "y"] "inner" R3_fields).
  - reflexivity.
  - reflexivity.
  - reflexivity.
  - reflexivity.
  - intros col [<-|[<-|[]]]; simpl; auto.
  - intros f [<-|[<-|[]]] _ Hkey; [reflexivity|discriminate Hkey].
Defined.

(** ** The join planner *)

(** The column [col] is planned for the relation [rel]. *)
Lemma setdefault_append_old (jm : list (string * list string)) r c rel col :
  (exists cols, dict_get rel jm = Some cols /\ In col cols) ->
  exists cols, dict_get rel (setdefault_append r c jm) = Some cols /\ In col cols.
Proof.
  intros (cols & Hget & Hin). rewrite dict_get_setdefault_append, Hget.
  destruct (String.eqb rel r).
  - eexists. split; [reflexivity|]. apply in_or_app. left. exact Hin.
  - exists cols. split; [reflexivity|exact Hin].
Qed.

Lemma setdefault_append_new (jm : list (string * list string)) r c :
  exists cols, dict_get r (setdefault_append r c jm) = Some cols /\ In c cols.
Proof.
  rewrite dict_get_setdefault_append, String.eqb_refl.
  destruct (dict_get r jm) as [l|]; eexists; (split; [reflexivity|]).
  - apply in_or_app. right. left. reflexivity.
  - left. reflexivity.
Qed.

Lemma requested_cols qnames :
  forall joinmap added relset joinmap' added' relset',
    requested qnames joinmap added relset = (joinmap', added', relset') ->
    (forall q, In q added ->
       exists cols, dict_get (fst (rpartition q)) joinmap = Some cols /\
                    In (snd (rpartition q)) cols) ->
    (forall q, In q added' ->
       exists cols, dict_get (fst (rpartition q)) joinmap' = Some cols /\
                    In (snd (rpartition q)) cols) /\
    (forall q, In q qnames -> In q added') /\
    (forall q, In q added -> In q added').
Proof.
  induction qnames as [|q qnames IH]; intros jm added relset jm' added' relset' H Hinv.
  - inversion H; subst. split; [exact Hinv|]. split; [intros q []|auto].
  - cbn [requested] in H. destruct (mem q added) eqn:Emem.
    + destruct (IH _ _ _ _ _ _ H Hinv) as (H1 & H2 & H3).
      split; [exact H1|]. split; [|exact H3].
      intros q' [<-|Hq']; [apply H3, mem_In, Emem|apply H2, Hq'].
    + destruct (rpartition q) as [rel col] eqn:Erp.
      destruct (IH _ _ _ _ _ _ H) as (H1 & H2 & H3).
      { intros q' Hq'. apply set_add_In in Hq' as [->|Hq'].
        - rewrite Erp. cbn [fst snd]. apply setdefault_append_new.
        - apply setdefault_append_old. exact (Hinv q' Hq'). }
      split; [exact H1|]. split.
      * intros q' [<-|Hq']; [|apply H2, Hq'].
        apply H3, set_add_In. left. reflexivity.
      * intros q' Hq'. apply H3, set_add_In. right. exact Hq'.
Qed.

Lemma add_keys_cols relation fields added :
  forall joinmap,
    (forall rel col,
       (exists cols, dict_get rel joinmap = Some cols /\ In col cols) ->
       exists cols, dict_get rel (add_keys relation fields added joinmap) = Some cols /\
                    In col cols) /\
    (forall f, In f fields -> is_key f = true ->
       In (qualify relation (name f)) added \/
       exists cols,
         dict_get relation (add_keys relation fields added joinmap) = Some cols /\
         In (name f) cols).
Proof.
  unfold add_keys. induction fields as [|f fields IH]; intro jm; cbn [fold_left].
  - split; [auto|intros f []].
  - destruct (is_key f && negb (mem (qualify relation (name f)) added)) eqn:E.
    + destruct (IH (setdefault_append relation (name f) jm)) as [H1 H2]. split.
      * intros rel col Hold. apply H1, setdefault_append_old, Hold.
      * intros g [<-|Hg] Hkey; [|exact (H2 g Hg Hkey)].
        right. apply H1. apply setdefault_append_new.
    + destruct (IH jm) as [H1 H2]. split; [exact H1|].
      intros g [<-|Hg] Hkey; [|exact (H2 g Hg Hkey)].
      left. rewrite Hkey in E. cbn [andb] in E. apply negb_false_iff in E.
      apply mem_In. exact E.
Qed.

Lemma always_add_keys_cols db order added :
  forall joinmap joinmap',
    always_add_keys db order added joinmap = Ret joinmap' ->
    (forall rel col,
       (exists cols, dict_get rel joinmap = Some cols /\ In col cols) ->
       exists cols, dict_get rel joinmap' = Some cols /\ In col cols) /\
    (forall rel fields f,
       In rel order -> dict_get rel (schema db) = Some fields ->
       In f fields -> is_key f = true ->
       In (qualify rel (name f)) added \/
       exists cols, dict_get rel joinmap' = Some cols /\ In (name f) cols).
Proof.
  induction order as [|relation order IH]; intros jm jm' H; cbn [always_add_keys] in H.
  - inversion H; subst. split; [auto|intros rel fields f []].
  - unfold dict_lookup in H.
    destruct (dict_get relation (schema db)) as [fs|] eqn:E; cbn [bind] in H;
      [|discriminate].
    destruct (add_keys_cols relation fs added jm) as [A1 A2].
    destruct (IH _ _ H) as [H1 H2]. split.
    + intros rel col Hold. apply H1, A1, Hold.
    + intros rel fields f [<-|Hrel] Hget Hf Hkey; [|exact (H2 _ _ _ Hrel Hget Hf Hkey)].
      rewrite E in Hget. inversion Hget; subst fields.
      destruct (A2 f Hf Hkey) as [Hin|Hnew]; [left; exact Hin|].
      right. apply H1. exact Hnew.
Qed.

Lemma dict_get_In {V : Type} k (v : V) (d : pydict V) :
  NoDup (map fst d) -> In (k, v) d -> dict_get k d = Some v.
Proof.
  induction d as [|[k' v'] d IH]; intros Hnd Hin; [destruct Hin|].
  cbn [map fst] in Hnd. inversion Hnd as [|? ? Hnin Hnd']; subst.
  cbn [dict_get]. destruct Hin as [E|Hin].
  - inversion E; subst. rewrite String.eqb_refl. reflexivity.
  - destruct (String.eqb_spec k k') as [->|Hne]; [|exact (IH Hnd' Hin)].
    exfalso. apply Hnin. apply in_map_iff. exists (k', v). auto.
Qed.

Lemma dict_get_Some_In {V : Type} k (v : V) (d : pydict V) :
  dict_get k d = Some v -> In (k, v) d.
Proof.
  induction d as [|[k' v'] d IH]; cbn [dict_get]; [discriminate|].
  destruct (String.eqb_spec k k') as [->|Hne].
  - intro H. inversion H; subst. left. reflexivity.
  - intro H. right. exact (IH H).
Qed.

Lemma dict_pop_perm {V : Type} k (v : V) (d : pydict V) :
  NoDup (map fst d) -> In (k, v) d -> Permutation d ((k, v) :: dict_pop k d).
Proof.
  induction d as [|[k' v'] d IH]; intros Hnd Hin; [destruct Hin|].
  cbn [map fst] in Hnd. inversion Hnd as [|? ? Hnin Hnd']; subst.
  cbn [dict_pop]. destruct Hin as [E|Hin].
  - inversion E; subst. rewrite String.eqb_refl. reflexivity.
  - destruct (String.eqb_spec k k') as [->|Hne].
    + exfalso. apply Hnin. apply in_map_iff. exists (k', v). auto.
    + rewrite (IH Hnd' Hin) at 1. apply perm_swap.
Qed.

(** The join loop plans the entries of the join map, each once. *)
Lemma join_order_perm fuel :
  forall keymap joinmap joined_keys joins planned,
    join_order fuel keymap joinmap joined_keys joins = Ret planned ->
    NoDup (map fst joinmap) ->
    Permutation planned (joins ++ joinmap).
Proof.
  induction fuel as [|f IH]; intros keymap joinmap joined_keys joins planned H Hnd.
  - destruct joinmap; [|discriminate H]. inversion H; subst.
    rewrite app_nil_r. reflexivity.
  - cbn [join_order] in H. destruct joinmap as [|entry joinmap'].
    { inversion H; subst. rewrite app_nil_r. reflexivity. }
    destruct (find _ (entry :: joinmap')) as [[rel cols]|] eqn:E; [|discriminate H].
    apply find_some in E as [Hin _].
    destruct (dict_lookup rel keymap) as [keys| |]; cbn [bind] in H; try discriminate H.
    apply IH in H; [|exact (proj1 (dict_pop_keys rel _ Hnd))].
    rewrite H, <- app_assoc. apply Permutation_app_head. cbn [app].
    symmetry. exact (dict_pop_perm rel cols _ Hnd Hin).
Qed.

Section PlanProperties.

Variable set_iter : list string -> list string.
Hypothesis set_iter_perm : forall l, Permutation (set_iter l) l.

(** The stages of a plan that was returned. *)
Lemma plan_joins_stages projection condition_fields relations db joins :
  _plan_joins set_iter projection condition_fields relations db = Ret joins ->
  exists joinmap added relset pivots joinmap',
    requested (projection ++ condition_fields) [] [] (set_update [] relations)
    = (joinmap, added, relset) /\
    _pivot_relations set_iter relset (_make_keymap db) = Ret pivots /\
    always_add_keys db (set_iter (set_update relset (set_iter pivots))) added joinmap
    = Ret joinmap' /\
    NoDup (map fst joinmap') /\
    (forall rel, In rel (map fst joinmap') ->
                 In rel (set_iter (set_update relset (set_iter pivots)))) /\
    join_order (List.length (schema db)) (_make_keymap db) joinmap' [] [] = Ret joins /\
    Permutation joins joinmap'.
Proof.
  unfold _plan_joins.
  destruct (requested (projection ++ condition_fields) [] [] (set_update [] relations))
    as [[joinmap added] relset] eqn:E.
  destruct (_pivot_relations set_iter relset (_make_keymap db)) as [pivots| |] eqn:E2;
    cbn [bind]; try discriminate.
  unfold order_joins.
  destruct (always_add_keys db _ added joinmap) as [joinmap'| |] eqn:E3; cbn [bind];
    try discriminate.
  intro H. exists joinmap, added, relset, pivots, joinmap'.
  destruct (requested_keys _ _ _ _ _ _ _ E) as [Hnd Hincl];
    [constructor|intros k []|].
  destruct (always_add_keys_ret _ _ _ _ _ E3 Hnd) as (Hnd' & Hkeys & _).
  repeat split; try assumption.
  - intros rel Hrel. destruct (Hkeys rel Hrel) as [Hin|Hin]; [exact Hin|].
    apply (Permutation_in _ (Permutation_sym (set_iter_perm _))).
    apply set_update_In. left. apply Hincl. exact Hin.
  - exact (join_order_perm _ _ _ _ _ _ H Hnd').
Qed.

(** X19. The plan fetches what the query asks for: when [_plan_joins]
    returns, every name among the projection and the condition fields
    is planned, its column among the columns of the join of its
    relation. *)
Theorem plan_covers_requested projection condition_fields relations db joins qname :
  _plan_joins set_iter projection condition_fields relations db = Ret joins ->
  In qname (projection ++ condition_fields) ->
  exists cols,
    In (fst (rpartition qname), cols) joins /\ In (snd (rpartition qname)) cols.
Proof.
  intros H Hq.
  destruct (plan_joins_stages _ _ _ _ _ H)
    as (jm & added & relset & pivots & jm' & E1 & _ & E3 & Hnd & _ & _ & Hperm).
  destruct (requested_cols _ _ _ _ _ _ _ E1) as (H1 & H2 & _); [intros q []|].
  destruct (always_add_keys_cols _ _ _ _ _ E3) as [A1 _].
  destruct (A1 _ _ (H1 qname (H2 qname Hq))) as (cols & Hget & Hin).
  exists cols. split; [|exact Hin].
  apply (Permutation_in _ (Permutation_sym Hperm)). apply dict_get_Some_In. exact Hget.
Qed.

(** X20. Every join fetches the keys of its relation: when the names of
    the fields of the schema have no dot and [_plan_joins] returns, the
    columns of each planned join include every key field of its
    relation. *)
Theorem plan_fetches_keys projection condition_fields relations db joins
        rel cols fields f :
  (forall r fs g, In (r, fs) (schema db) -> In g fs -> contains_dot (name g) = false) ->
  _plan_joins set_iter projection condition_fields relations db = Ret joins ->
  In (rel, cols) joins ->
  dict_get rel (schema db) = Some fields ->
  In f fields -> is_key f = true ->
  In (name f) cols.
Proof.
  intros Hdots H Hjoin Hget Hf Hkey.
  destruct (plan_joins_stages _ _ _ _ _ H)
    as (jm & added & relset & pivots & jm' & E1 & _ & E3 & Hnd & Horder & _ & Hperm).
  destruct (requested_cols _ _ _ _ _ _ _ E1) as (H1 & _ & _); [intros q []|].
  destruct (always_add_keys_cols _ _ _ _ _ E3) as [A1 A2].
  assert (Hin : In (rel, cols) jm') by exact (Permutation_in _ Hperm Hjoin).
  assert (Hcols : dict_get rel jm' = Some cols) by exact (dict_get_In _ _ _ Hnd Hin).
  assert (Hrel : In rel (set_iter (set_update relset (set_iter pivots)))).
  { apply Horder. apply in_map_iff. exists (rel, cols). auto. }
  assert (Hplanned : exists cols', dict_get rel jm' = Some cols' /\ In (name f) cols').
  { destruct (A2 rel fields f Hrel Hget Hf Hkey) as [Hadded|Hnew]; [|exact Hnew].
    apply A1. specialize (H1 _ Hadded).
    rewrite rpartition_qualify in H1; [exact H1|].
    exact (Hdots rel fields f (dict_get_Some_In _ _ _ Hget) Hf). }
  destruct Hplanned as (cols' & Hget' & Hin'). congruence.
Qed.

Lemma join_order_valid fuel :
  forall keymap joinmap joined_keys joins planned,
    join_order fuel keymap joinmap joined_keys joins = Ret planned ->
    exists tail,
      planned = joins ++ tail /\
      valid_order keymap joined_keys (negb (truthy_list joins)) tail = true.
Proof.
  induction fuel as [|f IH]; intros keymap joinmap joined_keys joins planned H.
  - destruct joinmap; [|discriminate H]. inversion H; subst.
    exists []. rewrite app_nil_r. split; reflexivity.
  - cbn [join_order] in H. destruct joinmap as [|entry joinmap'].
    { inversion H; subst. exists []. rewrite app_nil_r. split; reflexivity. }
    destruct (find _ (entry :: joinmap')) as [[rel cols]|] eqn:E; [|discriminate H].
    apply find_some in E as [_ Hp].
    unfold dict_lookup in H.
    destruct (dict_get rel keymap) as [keys|] eqn:Ek; cbn [bind] in H;
      [|discriminate H].
    apply IH in H as (tail & -> & Hvalid).
    exists ((rel, cols) :: tail). rewrite <- app_assoc. split; [reflexivity|].
    cbn [valid_order]. rewrite Hp, Ek. cbn [andb].
    replace (negb (truthy_list (joins ++ [(rel, cols)]))) with false in Hvalid;
      [exact Hvalid|].
    destruct joins; reflexivity.
Qed.

(** X21. The joins are planned in a valid order: when [_plan_joins]
    returns, every join after the first has, among its columns, a key of
    a relation planned before it. *)
Theorem plan_order_valid projection condition_fields relations db joins :
  _plan_joins set_iter projection condition_fields relations db = Ret joins ->
  valid_order (_make_keymap db) [] true joins = true.
Proof.
  intro H.
  destruct (plan_joins_stages _ _ _ _ _ H)
    as (jm & added & relset & pivots & jm' & _ & _ & _ & _ & _ & E & _).
  apply join_order_valid in E as (tail & -> & Hvalid). exact Hvalid.
Qed.

End PlanProperties.

Lemma pivot_loop_pivots fuel :
  forall keymap relset nodes edges pivots components result,
    pivot_loop fuel keymap relset nodes edges pivots components = Ret result ->
    NoDup pivots ->
    (forall p, In p pivots ->
       ~ In p relset /\ exists keys, In (p, keys) keymap /\ 1 < List.length keys) ->
    NoDup result /\
    (forall p, In p result ->
       ~ In p relset /\ exists keys, In (p, keys) keymap /\ 1 < List.length keys).
Proof.
  induction fuel as [|f IH]; intros keymap relset nodes edges pivots comps result H Hnd Hinv;
    cbn [pivot_loop] in H; destruct (1 <? List.length comps); try discriminate H;
    try (inversion H; subst; split; assumption).
  destruct (find_pivot keymap (set_update relset pivots) comps) as [[rel keys]|] eqn:E;
    [|discriminate H].
  unfold find_pivot in E. apply find_some in E as [Hin Hp].
  apply andb_true_iff in Hp as [Hp _]. apply andb_true_iff in Hp as [Hnew Hlen].
  apply negb_true_iff, mem_not_In in Hnew. apply Nat.ltb_lt in Hlen.
  apply IH in H; [exact H|apply set_add_NoDup, Hnd|].
  intros p Hp. apply set_add_In in Hp as [->|Hp]; [|exact (Hinv p Hp)].
  split.
  - intro Hrel. apply Hnew. apply set_update_In. left. exact Hrel.
  - exists keys. split; assumption.
Qed.

(** X22. The pivots are new relations with several keys: the relations
    [_pivot_relations] returns are all different, none of them is among
    the relations it was given, and each is a relation of the key map
    with more than one key. *)
Theorem pivots_are_new set_iter relset keymap pivots :
  _pivot_relations set_iter relset keymap = Ret pivots ->
  NoDup pivots /\
  (forall p, In p pivots ->
     ~ In p relset /\ exists keys, In (p, keys) keymap /\ 1 < List.length keys).
Proof.
  unfold _pivot_relations, pivot_relations_in.
  destruct (key_graph keymap (set_iter relset) [] []) as [[nodes edges]| |];
    cbn [bind]; try discriminate.
  intro H. apply pivot_loop_pivots in H; [exact H|constructor|intros p []].
Qed.

Lemma pivots_are_new_witness :
  NoDup ["R2"] /\
  (forall p, In p ["R2"] ->
     ~ In p ["R1"; "R3"] /\
     exists keys, In (p, keys) (_make_keymap db123) /\ 1 < List.length keys).
Proof.
  apply (pivots_are_new (fun l => l) ["R1"; "R3"] (_make_keymap db123) ["R2"]).
  reflexivity.
Defined.

Lemma plan_covers_requested_witness :
  exists cols,
    In (fst (rpartition "R3.y"), cols)
       [("R1", ["x"; "a"]); ("R2", ["a"; "b"]); ("R3", ["y"; "b"])] /\
    In (snd (rpartition "R3.y")) cols.
Proof.
  apply (plan_covers_requested (fun l => l) (fun l => Permutation_refl l)
           ["R1.x"; "R3.y"] [] [] db123).
  - reflexivity.
  - simpl. auto.
Defined.

Lemma plan_fetches_keys_witness : In "b" ["a"; "b"].
Proof.
  apply (plan_fetches_keys (fun l => l) (fun l => Permutation_refl l)
           ["R1.x"; "R3.y"] [] [] db123
           [("R1", ["x"; "a"]); ("R2", ["a"; "b"]); ("R3", ["y"; "b"])]
           "R2" ["a"; "b"] R2_fields (key_field "b")).
  - intros r fs g Hr Hg. simpl in Hr.
    destruct Hr as [E|[E|[E|[]]]]; inversion E; subst; simpl in Hg;
      destruct Hg as [<-|[<-|[]]]; reflexivity.
  - reflexivity.
  - simpl. auto.
  - reflexivity.
  - simpl. auto.
  - reflexivity.
Defined.

Lemma plan_order_valid_witness :
  valid_order (_make_keymap db123) [] true
    [("R1", ["x"; "a"]); ("R2", ["a"; "b"]); ("R3", ["y"; "b"])] = true.
Proof.
  apply (plan_order_valid (fun l => l) (fun l => Permutation_refl l)
           ["R1.x"; "R3.y"] [] [] db123).
  reflexivity.
Defined.

Lemma set_update_same rel relations :
  Forall (fun r => r = rel) relations ->
  forall acc, acc = [] \/ acc = [rel] ->
    set_update acc relations = [] \/ set_update acc relations = [rel].
Proof.
  unfold set_update. induction 1 as [|r relations Hr _ IH]; intros acc Hacc;
    cbn [fold_left]; [exact Hacc|].
  subst r. apply IH. right.
  destruct Hacc as [->| ->]; unfold set_add; cbn [mem app].
  - reflexivity.
  - rewrite String.eqb_refl. reflexivity.
Qed.

Lemma requested_single rel qnames :
  Forall (fun q => fst (rpartition q) = rel) qnames ->
  forall cols added,
    exists cols' added',
      requested qnames [(rel, cols)] added [rel] = ([(rel, cols')], added', [rel]).
Proof.
  induction 1 as [|q qnames Hq _ IH]; intros cols added; cbn [requested].
  - eexists _, _. reflexivity.
  - destruct (mem q added); [apply IH|].
    destruct (rpartition q) as [r col]. cbn [fst] in Hq. subst r.
    cbn [setdefault_append]. rewrite String.eqb_refl.
    unfold set_add at 2. cbn [mem]. rewrite String.eqb_refl. apply IH.
Qed.

Section SingleRelation.

Variable set_iter : list string -> list string.
Hypothesis set_iter_perm : forall l, Permutation (set_iter l) l.

(** X23. A query over one relation is planned as one join: when every
    requested name is qualified by the same relation of the schema and
    no other relation is listed, [_plan_joins] finds no pivot and returns
    a single join, of that relation. *)
Theorem single_relation_plan projection condition_fields relations db rel fields :
  dict_get rel (schema db) = Some fields ->
  projection <> [] ->
  Forall (fun q => fst (rpartition q) = rel) (projection ++ condition_fields) ->
  Forall (fun r => r = rel) relations ->
  _pivot_relations set_iter [rel] (_make_keymap db) = Ret [] /\
  exists cols,
    _plan_joins set_iter projection condition_fields relations db = Ret [(rel, cols)].
Proof.
  intros Hget Hne Hq Hrels.
  assert (Hkeys : dict_lookup rel (_make_keymap db)
                  = Ret (map name (filter is_key fields))).
  { unfold dict_lookup. rewrite keymap_get, Hget. reflexivity. }
  assert (Hpivot : _pivot_relations set_iter [rel] (_make_keymap db) = Ret []).
  { unfold _pivot_relations, pivot_relations_in.
    rewrite (set_iter_single set_iter set_iter_perm). cbn [key_graph].
    rewrite Hkeys. cbn [bind key_graph app].
    pose proof (clique_one_component (map name (filter is_key fields))) as Hc.
    cbn [pivot_loop].
    destruct (Nat.ltb_spec 1 (List.length
      (_connected_components (set_update [] (map name (filter is_key fields)))
                             (add_edges (map name (filter is_key fields))))));
      [lia|reflexivity]. }
  split; [exact Hpivot|].
  unfold _plan_joins.
  destruct projection as [|q projection]; [contradiction|].
  cbn [app] in Hq |- *.
  pose proof (Forall_inv Hq) as Hq1. pose proof (Forall_inv_tail Hq) as Hq2.
  cbn beta in Hq1. cbn [requested mem]. destruct (rpartition q) as [r col]. cbn [fst] in Hq1. subst r.
  cbn [setdefault_append].
  assert (Hset : set_add rel (set_update [] relations) = [rel]).
  { destruct (set_update_same rel relations Hrels [] (or_introl eq_refl)) as [-> | ->];
      unfold set_add; cbn [mem app]; [reflexivity|].
    rewrite String.eqb_refl. reflexivity. }
  rewrite Hset.
  destruct (requested_single rel _ Hq2 [col] (set_add q [])) as (cols' & added' & ->).
  rewrite Hpivot. cbn [bind].
  rewrite (set_iter_nil set_iter set_iter_perm). cbn [set_update fold_left].
  rewrite (set_iter_single set_iter set_iter_perm).
  unfold order_joins. cbn [always_add_keys].
  unfold dict_lookup at 1. rewrite Hget. cbn [bind].
  rewrite add_keys_single. cbn [bind].
  destruct (schema db) as [|entry sch] eqn:Esch; [discriminate Hget|].
  cbn [List.length join_order find truthy_list negb orb].
  rewrite Hkeys. cbn [bind dict_pop]. rewrite String.eqb_refl.
  eexists. destruct (List.length sch); reflexivity.
Qed.

End SingleRelation.

Lemma single_relation_plan_witness :
  _pivot_relations (fun l => l) ["item"] (_make_keymap item_db) = Ret [] /\
  exists cols,
    _plan_joins (fun l => l) ["item.i-input"] ["item.i-wf"] ["item"] item_db
    = Ret [("item", cols)].
Proof.
  apply (single_relation_plan (fun l => l) (fun l => Permutation_refl l)
           ["item.i-input"] ["item.i-wf"] ["item"] item_db "item" item_fields).
  - reflexivity.
  - discriminate.
  - repeat constructor.
  - repeat constructor.
Defined.

(** ** Queries *)

Lemma mapM_length {A B : Type} (f : A -> outcome B) l l' :
  mapM f l = Ret l' -> List.length l' = List.length l.
Proof.
  revert l'. induction l as [|a l IH]; intros l' H; cbn [mapM] in H.
  - inversion H. reflexivity.
  - destruct (f a); cbn [bind] in H; try discriminate.
    destruct (mapM f l) as [bs| |]; cbn [bind] in H; try discriminate.
    inversion H; subst. cbn [List.length]. rewrite (IH _ eq_refl). reflexivity.
Qed.

Lemma mapM_Forall {A B : Type} (f : A -> outcome B) (P : B -> Prop) l l' :
  (forall a b, f a = Ret b -> P b) -> mapM f l = Ret l' -> Forall P l'.
Proof.
  intro Hf. revert l'. induction l as [|a l IH]; intros l' H; cbn [mapM] in H.
  - inversion H. constructor.
  - destruct (f a) as [b| |] eqn:E; cbn [bind] in H; try discriminate.
    destruct (mapM f l) as [bs| |]; cbn [bind] in H; try discriminate.
    inversion H; subst. constructor; [exact (Hf a b E)|exact (IH _ eq_refl)].
Qed.

Lemma select_rows_width selection names rows :
  names <> [] ->
  select_rows selection names = Ret rows ->
  Forall (fun r : list value => List.length r = List.length names) rows.
Proof.
  intros Hne H. unfold select_rows in H.
  destruct names as [|n names]; [contradiction|]. cbn [truthy_list] in H.
  destruct (mapM _ (n :: names)) as [indices| |] eqn:E1; cbn [bind] in H;
    try discriminate.
  apply mapM_length in E1.
  destruct (mapM _ indices) as [fs| |]; cbn [bind] in H; try discriminate.
  revert H. apply mapM_Forall. intros r row Hrow.
  apply mapM_length in Hrow. congruence.
Qed.

Section ResultWidth.

Variable set_iter : list string -> list string.
Variable re_search : string -> string -> option bool.
Variable date_eqb : string -> string -> bool.
Variable date_ltb : string -> string -> bool.

(** X24. Every row of a result has one value per projected column: when
    a query whose projection is not the wildcard returns rows, each row
    has as many values as the projection of the query has names. *)
Theorem result_rows_width querystring db q rows :
  _parse_query querystring = Ret q ->
  q_projection q <> ["*"] ->
  query_rows set_iter re_search date_eqb date_ltb querystring db = Ret rows ->
  Forall (fun r : list value => List.length r = List.length (q_projection q)) rows.
Proof.
  intros Hq Hstar H. unfold query_rows, query in H. rewrite Hq in H. cbn [bind] in H.
  rewrite (parse_query_type _ _ Hq) in H. cbn [mem String.eqb Ascii.eqb Bool.eqb] in H.
  assert (Hne : q_projection q <> []).
  { unfold _parse_query in Hq.
    destruct (partition_space (lstrip querystring)) as [querytype querybody].
    destruct (mem (lower querytype) ["select"; "retrieve"]); [|discriminate].
    pose proof (parse_select_stages querybody) as Hs. rewrite Hq in Hs.
    exact (proj1 (proj2 Hs)). }
  unfold _select, _make_execution_plan in H.
  destruct (list_eqb (q_projection q) ["*"]) eqn:Elist.
  { exfalso. apply Hstar. apply list_eqb_eq. exact Elist. }
  destruct (mapM _ (q_projection q)) as [proj| |] eqn:E1; cbn [bind] in H;
    try discriminate.
  apply mapM_length in E1.
  assert (Hfinal : forall sel : Selection,
            selection_rows
              (mk_Selection (sel_fields sel) (sel_field_index sel) (sel_data sel)
                            (Some proj) (sel_joined sel)) = Ret rows ->
            Forall (fun r : list value => List.length r = List.length (q_projection q))
                   rows).
  { intros sel Hsel. unfold selection_rows in Hsel. cbn [sel_projection] in Hsel.
    rewrite <- E1. revert Hsel. apply select_rows_width.
    intros ->. apply Hne. destruct (q_projection q); [reflexivity|discriminate E1]. }
  destruct (q_condition q) as [c|].
  - destruct (_process_condition_fields _ c) as [[c' fs]| |]; cbn [bind] in H;
      try discriminate.
    destruct (_plan_joins set_iter proj fs (q_relations q) db) as [joins| |];
      cbn [bind] in H; try discriminate.
    destruct (join_all date_eqb new_selection db joins) as [sel| |]; cbn [bind] in H;
      try discriminate.
    destruct (_process_condition_function re_search date_eqb date_ltb c'
                (sel_field_index sel)) as [func| |]; cbn [bind] in H; try discriminate.
    destruct (filter_rows func (sel_data sel)) as [kept| |]; cbn [bind] in H;
      try discriminate.
    exact (Hfinal (mk_Selection (sel_fields sel) (sel_field_index sel) kept
                                (sel_projection sel) (sel_joined sel)) H).
  - cbn [bind] in H.
    destruct (_plan_joins set_iter proj [] (q_relations q) db) as [joins| |];
      cbn [bind] in H; try discriminate.
    destruct (join_all date_eqb new_selection db joins) as [sel| |]; cbn [bind] in H;
      try discriminate.
    exact (Hfinal sel H).
Qed.

End ResultWidth.

Lemma result_rows_width_witness :
  Forall (fun r : list value => List.length r = 2)
         [[VInt 10; VInt 1]; [VInt 20; VInt 1]; [VInt 30; VInt 0]; [VInt 10; VInt 0]].
Proof.
  apply (result_rows_width (fun l => l) no_search String.eqb String.ltb
           "select i-id i-wf" item_db (mk_queryobj "select" ["i-id"; "i-wf"] [] None)).
  - vm_compute. reflexivity.
  - discriminate.
  - vm_compute. reflexivity.
Defined.

(** ** Later joins *)

Section LaterJoin.

Variable date_eqb : string -> string -> bool.
Hypothesis date_eqb_sym : forall a b, date_eqb a b = date_eqb b a.
Hypothesis date_eqb_trans :
  forall a b c, date_eqb a b = true -> date_eqb b c = true -> date_eqb a c = true.













End LaterJoin.


